(** * clang-includes: trace interval reconstruction, verified

    A shallow embedding of the two converters of the repository,
    [clang-trace-to-profiler.js] and [clang-trace-to-dashboard.js]:
    the begin/end event matcher they share, the containment-based
    include hierarchy (full ancestor chain and nearest parent), the
    self-time computation, the timeline merger and the two serializers.

    Numbers are JavaScript numbers holding integers (trace timestamps in
    microseconds, process and thread ids, counters); they are modelled
    as [Z].  A JavaScript object reference into an array that is never
    reordered is modelled as the pair of its position and its value, so
    that [a !== b] is inequality of positions. *)

From Stdlib Require Import ZArith Lia Decimal DecimalString DecimalZ DecimalPos.
From Stdlib Require Import Sorting.Sorted Sorting.Permutation.
From stdpp Require Import base decidable option list strings gmap fin_maps.

Local Open Scope Z_scope.

(** ** JavaScript library functions used by the converters *)

Module Js.

(** Template-literal rendering [`${n}`] of an integer number. *)
Definition numToString (n : Z) : string :=
  NilEmpty.string_of_int (Z.to_int n).

(** A value is truthy unless it is [undefined]/[null] or the empty
    string (the only falsy values a string-valued field can take). *)
Definition truthy (v : option string) : bool :=
  match v with
  | Some s => negb (String.eqb s "")
  | None => false
  end.

Section Arrays.
Context {A : Type}.

(** An array seen as the list of its (position, element) pairs. *)
Definition entries (l : list A) : list (nat * A) :=
  imap (fun i x => (i, x)) l.

(** [Array.prototype.find] together with [indexOf] of the object it
    returned: the first position whose element satisfies [p]. *)
Fixpoint findFrom (p : A -> bool) (i : nat) (l : list A) : option (nat * A) :=
  match l with
  | [] => None
  | x :: l' => if p x then Some (i, x) else findFrom p (S i) l'
  end.

Definition find (p : A -> bool) (l : list A) : option (nat * A) :=
  findFrom p 0 l.

(** [arr.splice(idx, 1)]. *)
Fixpoint splice1 (idx : nat) (l : list A) : list A :=
  match l, idx with
  | [], _ => []
  | _ :: l', O => l'
  | x :: l', S k => x :: splice1 k l'
  end.

(** [Array.prototype.sort(cmp)]: a stable sort, an element moves in
    front of another only when the comparator is negative. *)
Fixpoint sortInsert (cmp : A -> A -> Z) (x : A) (l : list A) : list A :=
  match l with
  | [] => [x]
  | y :: l' => if cmp x y <=? 0 then x :: y :: l' else y :: sortInsert cmp x l'
  end.

Fixpoint sort (cmp : A -> A -> Z) (l : list A) : list A :=
  match l with
  | [] => []
  | x :: l' => sortInsert cmp x (sort cmp l')
  end.
End Arrays.

(** [Math.round(x / 1000)] for an integer [x]: the nearest integer,
    a tie going up.  The source divides in floating point; for the
    integers a double holds exactly (below 2^53) the quotient is off by
    less than the 1/1000 that separates it from a tie, so the rounded
    value is the one of exact arithmetic. *)
Definition roundDiv1000 (x : Z) : Z := (x + 500) / 1000.

(** What truncation, [Math.trunc(x / 1000)], would give instead. *)
Definition truncDiv1000 (x : Z) : Z := Z.quot x 1000.

End Js.

(** ** Trace events and the begin/end matcher

    The matcher is the first half of [extractSourceMarkers]; the text is
    the same in both converters. *)

Module Trace.

Record RawEvent := mkEvent {
  cat : string;
  name : string;
  ph : string;
  (** [e.args && e.args.detail]; [None] when either is missing. *)
  detail : option string;
  ts : Z;
  pid : Z;
  tid : Z;
  id : Z
}.

Record Interval := mkInterval {
  file : string;
  startTime : Z;
  endTime : Z;
  duration : Z
}.

Definition isSource (e : RawEvent) : bool :=
  String.eqb (cat e) "Source" && String.eqb (name e) "Source".

Definition isBegin (e : RawEvent) : bool :=
  String.eqb (ph e) "b" && Js.truthy (detail e).

Definition isEnd (e : RawEvent) : bool := String.eqb (ph e) "e".

Definition sourceEvents (events : list RawEvent) : list RawEvent :=
  List.filter isSource events.

Definition beginEvents (events : list RawEvent) : list RawEvent :=
  List.filter isBegin (sourceEvents events).

Definition endEvents (events : list RawEvent) : list RawEvent :=
  List.filter isEnd (sourceEvents events).

(** [`${e.pid}-${e.tid}-${e.id}`] *)
Definition eventKey (e : RawEvent) : string :=
  Js.numToString (pid e) +:+ "-" +:+ Js.numToString (tid e) +:+ "-"
    +:+ Js.numToString (id e).

(** The pool of a key: [endMap.get(key) || []]. *)
Definition pool (endMap : gmap string (list RawEvent)) (key : string) : list RawEvent :=
  default [] (endMap !! key).

(** Index end events by their key. *)
Definition indexEnd (endMap : gmap string (list RawEvent)) (e : RawEvent)
  : gmap string (list RawEvent) :=
  <[eventKey e := pool endMap (eventKey e) ++ [e]]> endMap.

Definition buildEndMap (ends : list RawEvent) : gmap string (list RawEvent) :=
  fold_left indexEnd ends ∅.

(** The predicate handed to [find]: [e.ts > beginEvent.ts]. *)
Definition after (b e : RawEvent) : bool := ts b <? ts e.

Definition detailString (b : RawEvent) : string := default "" (detail b).

(** One iteration of the matching loop. *)
Definition matchBegin (st : gmap string (list RawEvent) * list Interval) (b : RawEvent)
  : gmap string (list RawEvent) * list Interval :=
  let '(endMap, intervals) := st in
  let endCandidates := pool endMap (eventKey b) in
  match Js.find (after b) endCandidates with
  | Some (idx, matchingEnd) =>
      (<[eventKey b := Js.splice1 idx endCandidates]> endMap,
       intervals ++ [mkInterval (detailString b) (ts b) (ts matchingEnd)
                                (ts matchingEnd - ts b)])
  | None => st
  end.

Definition matchLoop (endMap : gmap string (list RawEvent)) (begins : list RawEvent)
  : gmap string (list RawEvent) * list Interval :=
  fold_left matchBegin begins (endMap, []).

Definition matchIntervals (events : list RawEvent) : list Interval :=
  snd (matchLoop (buildEndMap (endEvents events)) (beginEvents events)).

(** [other.startTime <= interval.startTime && other.endTime >= interval.endTime] *)
Definition contains (other interval : Interval) : bool :=
  (startTime other <=? startTime interval) && (endTime interval <=? endTime other).

End Trace.

(** ** The profiler converter, [clang-trace-to-profiler.js] *)

Module Profiler.

Record SourceMarker := mkMarker {
  file : string;
  startTime : Z;
  endTime : Z;
  (** the self-time, not the total duration *)
  duration : Z;
  stack : list string;
  compilationUnit : option string
}.

(** *** [extractSourceMarkers], second half: include chain and self-time *)

(** The intervals that contain [interval], as pushed on [stack] by the
    first inner loop. *)
Definition containers (intervals : list Trace.Interval) (i : nat)
    (interval : Trace.Interval) : list (nat * Trace.Interval) :=
  List.filter (fun o => negb (Nat.eqb (fst o) i) && Trace.contains (snd o) interval)
              (Js.entries intervals).

(** [stack.sort((a, b) => a.startTime - b.startTime)] then
    [stack.push(interval)]. *)
Definition chain (intervals : list Trace.Interval) (i : nat)
    (interval : Trace.Interval) : list (nat * Trace.Interval) :=
  Js.sort (fun a b => Trace.startTime (snd a) - Trace.startTime (snd b))
          (containers intervals i interval)
    ++ [(i, interval)].

(** The innermost loop: it leaves [isDirect] true unless some [middle]
    lies between [interval] and [other]. *)
Definition isDirect (intervals : list Trace.Interval) (i : nat)
    (interval : Trace.Interval) (j : nat) (other : Trace.Interval) : bool :=
  negb (existsb
          (fun m => negb (Nat.eqb (fst m) i) && negb (Nat.eqb (fst m) j)
                    && Trace.contains interval (snd m)
                    && Trace.contains (snd m) other)
          (Js.entries intervals)).

Definition childrenTime (intervals : list Trace.Interval) (i : nat)
    (interval : Trace.Interval) : Z :=
  fold_left
    (fun acc o =>
       if negb (Nat.eqb (fst o) i) && Trace.contains interval (snd o) then
         if isDirect intervals i interval (fst o) (snd o)
         then acc + Trace.duration (snd o)
         else acc
       else acc)
    (Js.entries intervals) 0.

(** The positions whose duration [childrenTime] adds up. *)
Definition directChildren (intervals : list Trace.Interval) (i : nat)
    (interval : Trace.Interval) : list nat :=
  map fst (List.filter
             (fun o => negb (Nat.eqb (fst o) i) && Trace.contains interval (snd o)
                       && isDirect intervals i interval (fst o) (snd o))
             (Js.entries intervals)).

Definition selfTime (intervals : list Trace.Interval) (i : nat)
    (interval : Trace.Interval) : Z :=
  Trace.duration interval - childrenTime intervals i interval.

Definition markerOf (intervals : list Trace.Interval) (i : nat)
    (interval : Trace.Interval) : SourceMarker :=
  mkMarker (Trace.file interval) (Trace.startTime interval) (Trace.endTime interval)
           (selfTime intervals i interval)
           (map (fun s => Trace.file (snd s)) (chain intervals i interval))
           None.

Definition markersOf (intervals : list Trace.Interval) : list SourceMarker :=
  imap (markerOf intervals) intervals.

Definition extractSourceMarkers (events : list Trace.RawEvent) : list SourceMarker :=
  markersOf (Trace.matchIntervals events).

(** *** [mergeIntoProfile]: laying the units out on one timeline *)

(** [let maxEndTime = 0; for (...) if (marker.endTime > maxEndTime) ...] *)
Definition maxEndTime (markers : list SourceMarker) : Z :=
  fold_left (fun mx m => if mx <? endTime m then endTime m else mx) markers 0.

Definition shift (timeOffset : Z) (m : SourceMarker) : SourceMarker :=
  mkMarker (file m) (startTime m + timeOffset) (endTime m + timeOffset)
           (duration m) (stack m) (compilationUnit m).

(** One iteration of the first loop; the state is the running
    [timeOffset] and the units already visited. *)
Definition layoutStep (st : Z * list (string * list SourceMarker))
    (u : string * list SourceMarker) : Z * list (string * list SourceMarker) :=
  if Nat.eqb (length (snd u)) 0 then (fst st, snd st ++ [u])
  else (fst st + maxEndTime (snd u),
        snd st ++ [(fst u, map (shift (fst st)) (snd u))]).

Definition layout (allSourceMarkers : list (string * list SourceMarker))
  : Z * list (string * list SourceMarker) :=
  fold_left layoutStep allSourceMarkers (0, []).

Definition mergedMarkers (allSourceMarkers : list (string * list SourceMarker))
  : list SourceMarker :=
  concat (map snd (snd (layout allSourceMarkers))).

(** *** [convertToProfiler]: the deduplicated tables

    The caches and tables are local to one call of [convertToProfiler];
    they are threaded through the helpers as an explicit state.  Of
    each table the column that identifies the row is kept; the columns
    that receive a constant ([isJS], [category], [address], ...) and
    [fileName], which repeats [name], run parallel to it and are left
    out. *)

Record Tables := mkTables {
  stringTable : list string;
  stringMap : gmap string nat;
  funcTable_name : list nat;
  funcTable_length : nat;
  funcCache : gmap string nat;
  frameTable_func : list nat;
  frameTable_length : nat;
  frameCache : gmap string nat;
  stackTable_frame : list nat;
  stackTable_prefix : list (option nat);
  stackTable_length : nat;
  stackCache : gmap string nat
}.

(** [stringTable = ['']], [stringMap = new Map([['', 0]])], the rest empty. *)
Definition initialTables : Tables :=
  mkTables [""] {[ "" := 0%nat ]} [] 0 ∅ [] 0 ∅ [] [] 0 ∅.

Definition M (A : Type) : Type := Tables -> A * Tables.

Definition ret {A} (a : A) : M A := fun t => (a, t).

Definition bind {A B} (c : M A) (k : A -> M B) : M B :=
  fun t => let '(a, t') := c t in k a t'.

Notation "'let!' x ':=' c 'in' k" := (bind c (fun x => k))
  (at level 10, x name, c at level 100, k at level 200).

Definition addString (str : string) : M nat := fun t =>
  match stringMap t !! str with
  | Some index => (index, t)
  | None =>
      let index := length (stringTable t) in
      (index,
       mkTables (stringTable t ++ [str]) (<[str := index]> (stringMap t))
                (funcTable_name t) (funcTable_length t) (funcCache t)
                (frameTable_func t) (frameTable_length t) (frameCache t)
                (stackTable_frame t) (stackTable_prefix t) (stackTable_length t)
                (stackCache t))
  end.

(** The part of [getOrCreateFunc] after the string was interned. *)
Definition pushFunc (name : string) (funcIndex nameIndex : nat) : M nat := fun t =>
  (funcIndex,
   mkTables (stringTable t) (stringMap t)
            (funcTable_name t ++ [nameIndex]) (S (funcTable_length t))
            (<[name := funcIndex]> (funcCache t))
            (frameTable_func t) (frameTable_length t) (frameCache t)
            (stackTable_frame t) (stackTable_prefix t) (stackTable_length t)
            (stackCache t)).

Definition getOrCreateFunc (name : string) : M nat := fun t =>
  match funcCache t !! name with
  | Some funcIndex => (funcIndex, t)
  | None =>
      let funcIndex := funcTable_length t in
      (let! nameIndex := addString name in pushFunc name funcIndex nameIndex) t
  end.

Definition pushFrame (name : string) (funcIndex : nat) : M nat := fun t =>
  let frameIndex := frameTable_length t in
  (frameIndex,
   mkTables (stringTable t) (stringMap t)
            (funcTable_name t) (funcTable_length t) (funcCache t)
            (frameTable_func t ++ [funcIndex]) (S (frameTable_length t))
            (<[name := frameIndex]> (frameCache t))
            (stackTable_frame t) (stackTable_prefix t) (stackTable_length t)
            (stackCache t)).

Definition getOrCreateFrame (name : string) : M nat := fun t =>
  match frameCache t !! name with
  | Some frameIndex => (frameIndex, t)
  | None => (let! funcIndex := getOrCreateFunc name in pushFrame name funcIndex) t
  end.

(** [`${frameIndex}-${prefixStack !== null ? prefixStack : 'null'}`] *)
Definition stackKey (frameIndex : nat) (prefixStack : option nat) : string :=
  Js.numToString (Z.of_nat frameIndex) +:+ "-" +:+
    match prefixStack with
    | Some p => Js.numToString (Z.of_nat p)
    | None => "null"
    end.

Definition getOrCreateStack (frameIndex : nat) (prefixStack : option nat) : M nat :=
  fun t =>
  match stackCache t !! stackKey frameIndex prefixStack with
  | Some stackIndex => (stackIndex, t)
  | None =>
      let stackIndex := stackTable_length t in
      (stackIndex,
       mkTables (stringTable t) (stringMap t)
                (funcTable_name t) (funcTable_length t) (funcCache t)
                (frameTable_func t) (frameTable_length t) (frameCache t)
                (stackTable_frame t ++ [frameIndex])
                (stackTable_prefix t ++ [prefixStack])
                (S (stackTable_length t))
                (<[stackKey frameIndex prefixStack := stackIndex]> (stackCache t)))
  end.

(** The samples; [time] and [weight] hold the microsecond values that
    the source divides by 1000 on the way out. *)
Record Sample := mkSample {
  sample_stack : option nat;
  sample_time : Z;
  sample_weight : Z
}.

(** [for (const filePath of includeStack)] *)
Fixpoint walkStack (includeStack : list string) (currentStack : option nat)
  : M (option nat) :=
  match includeStack with
  | [] => ret currentStack
  | filePath :: rest =>
      let! frameIndex := getOrCreateFrame filePath in
      let! stackIndex := getOrCreateStack frameIndex currentStack in
      walkStack rest (Some stackIndex)
  end.

Definition processMarker (marker : SourceMarker) : M Sample :=
  let! root := (if Js.truthy (compilationUnit marker)
                then (let! frameIndex :=
                        getOrCreateFrame (default "" (compilationUnit marker)) in
                      let! stackIndex := getOrCreateStack frameIndex None in
                      ret (Some stackIndex))
                else ret None) in
  let! currentStack := walkStack (stack marker) root in
  ret (mkSample currentStack (endTime marker) (duration marker)).

Fixpoint processMarkers (markers : list SourceMarker) : M (list Sample) :=
  match markers with
  | [] => ret []
  | marker :: rest =>
      let! s := processMarker marker in
      let! ss := processMarkers rest in
      ret (s :: ss)
  end.

Definition convertToProfiler (sourceMarkers : list SourceMarker)
  : list Sample * Tables :=
  processMarkers (Js.sort (fun a b => endTime a - endTime b) sourceMarkers)
                 initialTables.

Definition mergeIntoProfile (allSourceMarkers : list (string * list SourceMarker))
  : list Sample * Tables :=
  convertToProfiler (mergedMarkers allSourceMarkers).

(** A request to one of the three deduplicating helpers, and a run of
    requests in sequence. *)
Inductive Request :=
| GetFunc (name : string)
| GetFrame (name : string)
| GetStack (frameIndex : nat) (prefixStack : option nat).

Definition serve (r : Request) : M nat :=
  match r with
  | GetFunc name => getOrCreateFunc name
  | GetFrame name => getOrCreateFrame name
  | GetStack frameIndex prefixStack => getOrCreateStack frameIndex prefixStack
  end.

Fixpoint serveAll (rs : list Request) : M (list nat) :=
  match rs with
  | [] => ret []
  | r :: rest =>
      let! a := serve r in
      let! answers := serveAll rest in
      ret (a :: answers)
  end.

End Profiler.

(** ** The dashboard converter, [clang-trace-to-dashboard.js] *)

Module Dashboard.

Record Include := mkInclude {
  file : string;
  startTime : Z;
  endTime : Z;
  duration : Z;
  (** [null] is [None] *)
  parentFile : option string
}.

Definition extractSourceMarkers (events : list Trace.RawEvent) : list Trace.Interval :=
  Trace.matchIntervals events.

(** *** [buildIncludeHierarchy] *)

(** [other.duration < smallestParentDuration], where the bound starts
    at [Infinity], here [None]. *)
Definition below (d : Z) (smallestParentDuration : option Z) : bool :=
  match smallestParentDuration with
  | None => true
  | Some s => d <? s
  end.

(** One iteration of the inner loop; the state is [immediateParent]
    and [smallestParentDuration]. *)
Definition parentStep (i : nat) (interval : Trace.Interval)
    (st : option (nat * Trace.Interval) * option Z) (o : nat * Trace.Interval)
  : option (nat * Trace.Interval) * option Z :=
  if negb (Nat.eqb (fst o) i) && Trace.contains (snd o) interval then
    if below (Trace.duration (snd o)) (snd st)
    then (Some o, Some (Trace.duration (snd o)))
    else st
  else st.

Definition immediateParent (intervals : list Trace.Interval) (i : nat)
    (interval : Trace.Interval) : option (nat * Trace.Interval) :=
  fst (fold_left (parentStep i interval) (Js.entries intervals) (None, None)).

Definition includeOf (intervals : list Trace.Interval) (i : nat)
    (interval : Trace.Interval) : Include :=
  mkInclude (Trace.file interval) (Trace.startTime interval) (Trace.endTime interval)
            (Trace.duration interval)
            (option_map (fun p => Trace.file (snd p)) (immediateParent intervals i interval)).

Definition buildIncludeHierarchy (intervals : list Trace.Interval) : list Include :=
  imap (includeOf intervals) intervals.

(** *** [main]: the usage counts

    [fileUsageCount] is a [Map]; its iteration order, the order of
    first insertion, decides ties of the later sort, so it is kept as
    an association list in that order. *)

Fixpoint mapGet (m : list (string * Z)) (k : string) : option Z :=
  match m with
  | [] => None
  | (k', v) :: m' => if String.eqb k' k then Some v else mapGet m' k
  end.

Fixpoint mapSet (m : list (string * Z)) (k : string) (v : Z) : list (string * Z) :=
  match m with
  | [] => [(k, v)]
  | (k', v') :: m' =>
      if String.eqb k' k then (k', v) :: m' else (k', v') :: mapSet m' k v
  end.

(** [fileUsageCount.get(f) || 0] *)
Definition usageCount (m : list (string * Z)) (f : string) : Z :=
  default 0 (mapGet m f).

(** [fileUsageCount.set(f, (fileUsageCount.get(f) || 0) + 1)] *)
Definition bump (m : list (string * Z)) (f : string) : list (string * Z) :=
  mapSet m f (usageCount m f + 1).

Definition countInclude (m : list (string * Z)) (inc : Include) : list (string * Z) :=
  let m1 := bump m (file inc) in
  if Js.truthy (parentFile inc) then bump m1 (default "" (parentFile inc)) else m1.

(** One iteration of the loop over the input files, for a file that
    parsed; the state is [compilationUnitsData] (name and includes)
    and [fileUsageCount]. *)
Definition processFile (st : list (string * list Include) * list (string * Z))
    (input : string * list Trace.RawEvent)
  : list (string * list Include) * list (string * Z) :=
  let intervals := extractSourceMarkers (snd input) in
  if Nat.eqb (length intervals) 0 then st
  else
    let includesWithHierarchy :=
      Js.sort (fun a b => startTime a - startTime b) (buildIncludeHierarchy intervals) in
    (fst st ++ [(fst input, includesWithHierarchy)],
     fold_left countInclude includesWithHierarchy (snd st)).

Definition collect (inputs : list (string * list Trace.RawEvent))
  : list (string * list Include) * list (string * Z) :=
  fold_left processFile inputs ([], []).

(** Sorted file table, by usage frequency. *)
Definition filesArray (fileUsageCount : list (string * Z)) : list string :=
  map fst (Js.sort (fun a b => snd b - snd a) fileUsageCount).

Definition fileToId (files : list string) : gmap string nat :=
  fold_left (fun m e => <[snd e := fst e]> m) (Js.entries files) ∅.

Definition sortUnits (cus : list (string * list Include)) : list (string * list Include) :=
  Js.sort (fun a b => Z.of_nat (length (snd b)) - Z.of_nat (length (snd a))) cus.

(** *** [main]: the per-unit parallel arrays

    An array element is [None] where the source would store
    [undefined]. *)
Record UnitArrays := mkArrays {
  prevStartTime : Z;
  fileIds : list (option Z);
  startTimes : list Z;
  durations : list Z;
  parentFileIds : list (option Z)
}.

Definition idOf (ids : gmap string nat) (f : string) : option Z :=
  Z.of_nat <$> ids !! f.

(** [inc.parentFile ? fileToId.get(inc.parentFile) : -1] *)
Definition parentIdOf (ids : gmap string nat) (inc : Include) : option Z :=
  if Js.truthy (parentFile inc)
  then idOf ids (default "" (parentFile inc))
  else Some (-1).

Definition encodeStep (ids : gmap string nat) (a : UnitArrays) (inc : Include)
  : UnitArrays :=
  let startTimeMs := Js.roundDiv1000 (startTime inc) in
  mkArrays startTimeMs
           (fileIds a ++ [idOf ids (file inc)])
           (startTimes a ++ [startTimeMs - prevStartTime a])
           (durations a ++ [Js.roundDiv1000 (duration inc)])
           (parentFileIds a ++ [parentIdOf ids inc]).

Definition encodeUnit (ids : gmap string nat) (includes : list Include) : UnitArrays :=
  fold_left (encodeStep ids) includes (mkArrays 0 [] [] [] []).

Record Output := mkOutput {
  totalCompilationUnits : nat;
  totalIncludes : nat;
  names : list string;
  files : list string;
  includes : list UnitArrays
}.

Definition main (inputs : list (string * list Trace.RawEvent)) : Output :=
  let '(compilationUnitsData, fileUsageCount) := collect inputs in
  let files := filesArray fileUsageCount in
  let ids := fileToId files in
  let cus := sortUnits compilationUnitsData in
  mkOutput (length cus)
           (length (concat (map snd cus)))
           (map fst cus)
           files
           (map (fun cu => encodeUnit ids (snd cu)) cus).

(** Running cumulative sum, as a consumer of [startTimes] computes it. *)
Fixpoint cumulative (acc : Z) (deltas : list Z) : list Z :=
  match deltas with
  | [] => []
  | d :: rest => (acc + d) :: cumulative (acc + d) rest
  end.

End Dashboard.

(** ** The notions of the specification

    These definitions follow the words of the specification, not the
    code; the theorems below compare the two. *)

Module Spec.

Definition sumZ (l : list Z) : Z := foldr Z.add 0 l.

(** [a] contains [b]: [a.start <= b.start] and [a.end >= b.end]. *)
Definition containsP (a b : Trace.Interval) : Prop :=
  Trace.startTime a <= Trace.startTime b /\ Trace.endTime a >= Trace.endTime b.

(** The interval at position [j] is another interval than the one at
    position [i], and is contained by it. *)
Definition containedIn (intervals : list Trace.Interval) (i j : nat) : Prop :=
  j <> i /\
  exists a b, intervals !! i = Some a /\ intervals !! j = Some b /\ containsP a b.

(** [j] is a direct child of [i]: contained by [i], with no third
    interval [m], also contained by [i], that contains [j]. *)
Definition directChild (intervals : list Trace.Interval) (i j : nat) : Prop :=
  containedIn intervals i j /\
  ~ exists m, m <> j /\ containedIn intervals i m /\ containedIn intervals m j.

Definition durationAt (intervals : list Trace.Interval) (j : nat) : Z :=
  default 0 (Trace.duration <$> intervals !! j).

Definition startAt (intervals : list Trace.Interval) (j : nat) : Z :=
  default 0 (Trace.startTime <$> intervals !! j).

Definition fileAt (intervals : list Trace.Interval) (j : nat) : string :=
  default "" (Trace.file <$> intervals !! j).

(** Two intervals are disjoint when one ends no later than the other
    starts. *)
Definition disjoint (a b : Trace.Interval) : Prop :=
  Trace.endTime a <= Trace.startTime b \/ Trace.endTime b <= Trace.startTime a.

(** Laminar family: any two intervals are disjoint or nested. *)
Definition laminar (intervals : list Trace.Interval) : Prop :=
  forall i j a b, intervals !! i = Some a -> intervals !! j = Some b -> i <> j ->
    disjoint a b \/ containsP a b \/ containsP b a.

(** A root is an interval that no other interval contains. *)
Definition root (intervals : list Trace.Interval) (r : nat) : Prop :=
  is_Some (intervals !! r) /\ forall j, ~ containedIn intervals j r.

(** [mx] is the maximum end timestamp across [markers]. *)
Definition isMaxEnd (markers : list Profiler.SourceMarker) (mx : Z) : Prop :=
  (exists m, m ∈ markers /\ Profiler.endTime m = mx) /\
  forall m, m ∈ markers -> Profiler.endTime m <= mx.

(** The running offset when the merger reaches the unit at position
    [k]: what the units before it have added. *)
Definition offsetBefore (units : list (string * list Profiler.SourceMarker)) (k : nat) : Z :=
  sumZ (map (fun u => Profiler.maxEndTime (snd u)) (take k units)).

(** Delta encoding: each value as its difference from the previous
    one, the first from [prev]. *)
Fixpoint deltas (prev : Z) (l : list Z) : list Z :=
  match l with
  | [] => []
  | x :: rest => (x - prev) :: deltas x rest
  end.

(** The units of a dashboard run, in input order: each input with at
    least one interval, with its includes in chronological order. *)
Definition unitsOf (inputs : list (string * list Trace.RawEvent))
  : list (string * list Dashboard.Include) :=
  flat_map
    (fun input =>
       let intervals := Trace.matchIntervals (snd input) in
       match intervals with
       | [] => []
       | _ :: _ =>
           [(fst input,
             Js.sort (fun a b => Dashboard.startTime a - Dashboard.startTime b)
                     (Dashboard.buildIncludeHierarchy intervals))]
       end)
    inputs.

(** How often [f] occurs in [incs], as the own file of an include or as
    the file of its parent. *)
Definition occurrences (f : string) (incs : list Dashboard.Include) : Z :=
  sumZ (map (fun inc =>
               (if String.eqb (Dashboard.file inc) f then 1 else 0)
               + (if Js.truthy (Dashboard.parentFile inc)
                     && String.eqb (default "" (Dashboard.parentFile inc)) f
                  then 1 else 0))
            incs).

(** What the cache of the table a request goes to holds for its key. *)
Definition cached (t : Profiler.Tables) (r : Profiler.Request) : option nat :=
  match r with
  | Profiler.GetFunc name => Profiler.funcCache t !! name
  | Profiler.GetFrame name => Profiler.frameCache t !! name
  | Profiler.GetStack frameIndex prefixStack =>
      Profiler.stackCache t !! Profiler.stackKey frameIndex prefixStack
  end.

(** The distinct keys requested from each table by a run of requests; a
    frame request passes its name on to the function table. *)
Definition funcKeys (rs : list Profiler.Request) : gset string :=
  list_to_set (flat_map (fun r => match r with
                                  | Profiler.GetFunc name => [name]
                                  | Profiler.GetFrame name => [name]
                                  | Profiler.GetStack _ _ => []
                                  end) rs).

Definition frameKeys (rs : list Profiler.Request) : gset string :=
  list_to_set (flat_map (fun r => match r with
                                  | Profiler.GetFrame name => [name]
                                  | _ => []
                                  end) rs).

Definition stackKeys (rs : list Profiler.Request) : gset (nat * option nat) :=
  list_to_set (flat_map (fun r => match r with
                                  | Profiler.GetStack frameIndex prefixStack =>
                                      [(frameIndex, prefixStack)]
                                  | _ => []
                                  end) rs).

(** The rows of the stack table. *)
Definition stackRows (t : Profiler.Tables) : list (nat * option nat) :=
  zip (Profiler.stackTable_frame t) (Profiler.stackTable_prefix t).

(** The state of the tables and caches between two requests, when the
    keys requested so far are within [F], [Fr] and [St]: each cache
    entry points at the row made for its key, and each row has a cache
    entry. *)
Definition stringsInv (t : Profiler.Tables) : Prop :=
  forall s i, Profiler.stringMap t !! s = Some i -> Profiler.stringTable t !! i = Some s.

Definition funcInv (t : Profiler.Tables) (F : gset string) : Prop :=
  Profiler.funcTable_length t = length (Profiler.funcTable_name t) /\
  Profiler.funcTable_length t = size (Profiler.funcCache t) /\
  dom (Profiler.funcCache t) ⊆ F /\
  (forall n i, Profiler.funcCache t !! n = Some i ->
     exists si, Profiler.funcTable_name t !! i = Some si /\
                Profiler.stringMap t !! n = Some si) /\
  (forall i, (i < Profiler.funcTable_length t)%nat ->
     exists n, Profiler.funcCache t !! n = Some i).

Definition frameInv (t : Profiler.Tables) (Fr : gset string) : Prop :=
  Profiler.frameTable_length t = length (Profiler.frameTable_func t) /\
  Profiler.frameTable_length t = size (Profiler.frameCache t) /\
  dom (Profiler.frameCache t) ⊆ Fr /\
  (forall n i, Profiler.frameCache t !! n = Some i ->
     exists fi, Profiler.frameTable_func t !! i = Some fi /\
                Profiler.funcCache t !! n = Some fi) /\
  (forall i, (i < Profiler.frameTable_length t)%nat ->
     exists n, Profiler.frameCache t !! n = Some i).

Definition stackInv (t : Profiler.Tables) (St : gset (nat * option nat)) : Prop :=
  Profiler.stackTable_length t = length (Profiler.stackTable_frame t) /\
  length (Profiler.stackTable_prefix t) = length (Profiler.stackTable_frame t) /\
  forall i f p, stackRows t !! i = Some (f, p) ->
    (f, p) ∈ St /\ Profiler.stackCache t !! Profiler.stackKey f p = Some i.

Definition tablesInv (t : Profiler.Tables) (F Fr : gset string)
    (St : gset (nat * option nat)) : Prop :=
  stringsInv t /\ funcInv t F /\ frameInv t Fr /\ stackInv t St.

(** The duration of an interval is the length of its span, which is
    not negative. *)
Definition spanned (iv : Trace.Interval) : Prop :=
  Trace.startTime iv <= Trace.endTime iv /\
  Trace.duration iv = Trace.endTime iv - Trace.startTime iv.

(** No two intervals of the unit have the same start and the same end. *)
Definition distinctSpans (intervals : list Trace.Interval) : Prop :=
  forall i j a b, intervals !! i = Some a -> intervals !! j = Some b ->
    Trace.startTime a = Trace.startTime b -> Trace.endTime a = Trace.endTime b ->
    i = j.

(** An interval as the matcher builds it. *)
Definition wellFormed (iv : Trace.Interval) : Prop :=
  Trace.startTime iv < Trace.endTime iv /\
  Trace.duration iv = Trace.endTime iv - Trace.startTime iv.

End Spec.

(** ** Concrete traces used in the examples below *)

Module Scenario.

(** A begin-marker and an end-marker of category and name [Source], all
    of one process and thread; [k] is the correlation id. *)
Definition beginAt (f : string) (t k : Z) : Trace.RawEvent :=
  Trace.mkEvent "Source" "Source" "b" (Some f) t 1 1 k.

Definition endAt (t k : Z) : Trace.RawEvent :=
  Trace.mkEvent "Source" "Source" "e" None t 1 1 k.

(** One begin at 10 whose key has two end-markers, listed in the trace
    with the later one (30) before the earlier one (20). *)
Definition unorderedEnds : list Trace.RawEvent :=
  [beginAt "a.h" 10 0; endAt 30 0; endAt 20 0].

(** Scenario 2 of the specification: an outer interval [0,100] and an
    inner interval [10,40] in one unit. *)
Definition nested : list Trace.RawEvent :=
  [beginAt "outer.h" 0 0; beginAt "inner.h" 10 1; endAt 40 1; endAt 100 0].

(** Scenario 1 of the specification: one begin at 1000 with detail
    [a.h] and one end at 2000 under the same key. *)
Definition single : list Trace.RawEvent :=
  [beginAt "a.h" 1000 0; endAt 2000 0].

(** A root [0,100] and three includes that all span [10,20]. *)
Definition sameSpan : list Trace.RawEvent :=
  [beginAt "r.h" 0 1; endAt 100 1;
   beginAt "a.h" 10 0; beginAt "b.h" 10 0; beginAt "c.h" 10 0;
   endAt 20 0; endAt 20 0; endAt 20 0].

(** An include [in.h] over [0,50] inside an include [out.h] over
    [0,100] that starts at the same timestamp, with a leaf [leaf.h]
    over [10,20] inside both; the begin-marker of [in.h] comes first in
    the trace. *)
Definition tiedStarts : list Trace.RawEvent :=
  [beginAt "in.h" 0 0; beginAt "out.h" 0 1; beginAt "leaf.h" 10 2;
   endAt 20 2; endAt 50 0; endAt 100 1].

(** Two traces whose timestamps lie before zero: one include over
    [-100,-50], and one include over [-80,-60]. *)
Definition beforeZero : list Trace.RawEvent :=
  [beginAt "a.h" (-100) 0; endAt (-50) 0].

Definition beforeZeroInner : list Trace.RawEvent :=
  [beginAt "b.h" (-80) 0; endAt (-60) 0].

(** Scenario 3 of the specification read in trace units: three
    intervals that start at 100, 250 and 400. *)
Definition threeStarts : list Trace.RawEvent :=
  [beginAt "a.h" 100 0; endAt 200 0; beginAt "b.h" 250 0; endAt 300 0;
   beginAt "c.h" 400 0; endAt 500 0].

(** The same with the start times taken as milliseconds, that is
    100000, 250000 and 400000 in trace units. *)
Definition threeStartsMs : list Trace.RawEvent :=
  [beginAt "a.h" 100000 0; endAt 200000 0; beginAt "b.h" 250000 0; endAt 300000 0;
   beginAt "c.h" 400000 0; endAt 500000 0].

End Scenario.

(** ** Notions used to state further properties of the converters *)

Module Derived.

(** [e] has the process, thread and correlation ids of [b]. *)
Definition sameIds (b e : Trace.RawEvent) : bool :=
  (Trace.pid e =? Trace.pid b) && (Trace.tid e =? Trace.tid b)
  && (Trace.id e =? Trace.id b).

(** The number of end-markers held by all the pools together. *)
Definition poolTotal (endMap : gmap string (list Trace.RawEvent)) : nat :=
  map_fold (fun _ l acc => (length l + acc)%nat) 0%nat endMap.

(** What the matcher makes of the begin-marker [b] when no other
    begin-marker competes for its end-markers: the interval up to the
    first later end-marker with its ids, in trace order. *)
Definition matchAlone (events : list Trace.RawEvent) (b : Trace.RawEvent)
  : option Trace.Interval :=
  match Js.find (Trace.after b) (List.filter (sameIds b) (Trace.endEvents events)) with
  | Some (_, e) =>
      Some (Trace.mkInterval (Trace.detailString b) (Trace.ts b) (Trace.ts e)
                             (Trace.ts e - Trace.ts b))
  | None => None
  end.

(** Every string of the string table is in the string map, at its
    position. *)
Definition stringsFull (t : Profiler.Tables) : Prop :=
  forall i s, Profiler.stringTable t !! i = Some s -> Profiler.stringMap t !! s = Some i.

(** Every entry of the stack cache points at the row of its key. *)
Definition stackCacheInv (t : Profiler.Tables) : Prop :=
  forall k i, Profiler.stackCache t !! k = Some i ->
    exists f p, Spec.stackRows t !! i = Some (f, p) /\ Profiler.stackKey f p = k.

(** The stack table is well formed: the frame of a row exists and its
    prefix is an earlier row. *)
Definition stackWf (t : Profiler.Tables) : Prop :=
  forall i f p, Spec.stackRows t !! i = Some (f, p) ->
    (f < Profiler.frameTable_length t)%nat /\ forall q, p = Some q -> (q < i)%nat.

(** [t'] has the rows of [t], and maybe more after them. *)
Definition extends (t t' : Profiler.Tables) : Prop :=
  Profiler.stringTable t `prefix_of` Profiler.stringTable t' /\
  Profiler.funcTable_name t `prefix_of` Profiler.funcTable_name t' /\
  Profiler.frameTable_func t `prefix_of` Profiler.frameTable_func t' /\
  Spec.stackRows t `prefix_of` Spec.stackRows t'.

(** Two requests go to the same table. *)
Definition sameTable (r r' : Profiler.Request) : Prop :=
  match r, r' with
  | Profiler.GetFunc _, Profiler.GetFunc _ => True
  | Profiler.GetFrame _, Profiler.GetFrame _ => True
  | Profiler.GetStack _ _, Profiler.GetStack _ _ => True
  | _, _ => False
  end.

(** A stack index as [walkStack] holds it: none, or a row of the table. *)
Definition validStack (t : Profiler.Tables) (s : option nat) : Prop :=
  forall q, s = Some q -> (q < Profiler.stackTable_length t)%nat.

(** The fuel that reading the stack [s] needs at most. *)
Definition depthFuel (s : option nat) : nat :=
  match s with
  | None => 0
  | Some q => S q
  end.

(** The state of the tables between two steps of a run of
    [convertToProfiler]. *)
Definition runInv (t : Profiler.Tables) : Prop :=
  (exists F Fr St, Spec.tablesInv t F Fr St) /\
  stringsFull t /\ stackCacheInv t /\ stackWf t.

(** The two intervals of scenario 2, outer [0,100] and inner [10,40]. *)
Definition nestedPair : list Trace.Interval :=
  [Trace.mkInterval "outer.h" 0 100 100; Trace.mkInterval "inner.h" 10 40 30].

(** Where an interval comes from: a begin-marker and an end-marker of
    the trace with the same ids. *)
Definition fromTrace (events : list Trace.RawEvent) (iv : Trace.Interval) : Prop :=
  exists b e, b ∈ Trace.beginEvents events /\ e ∈ Trace.endEvents events /\
    sameIds b e = true /\
    Trace.detail b = Some (Trace.file iv) /\ Trace.file iv <> "" /\
    Trace.startTime iv = Trace.ts b /\ Trace.endTime iv = Trace.ts e.

End Derived.

(** ** Reading a profile back

    What a consumer of the tables does with an index: follow it to the
    string it stands for. *)

Module Reader.

(** [stringArray[funcTable.name[funcIndex]]] *)
Definition funcName (t : Profiler.Tables) (funcIndex : nat) : option string :=
  match Profiler.funcTable_name t !! funcIndex with
  | Some nameIndex => Profiler.stringTable t !! nameIndex
  | None => None
  end.

(** The name of the function of a frame. *)
Definition frameName (t : Profiler.Tables) (frameIndex : nat) : option string :=
  match Profiler.frameTable_func t !! frameIndex with
  | Some funcIndex => funcName t funcIndex
  | None => None
  end.

(** The frame names of a stack, root first, found by following the
    [prefix] column up to the root; [fuel] bounds the number of steps. *)
Fixpoint stackNames (t : Profiler.Tables) (fuel : nat) (s : option nat)
  : option (list string) :=
  match s with
  | None => Some []
  | Some i =>
      match fuel with
      | O => None
      | S fuel' =>
          match Spec.stackRows t !! i with
          | Some (frameIndex, prefixStack) =>
              match frameName t frameIndex, stackNames t fuel' prefixStack with
              | Some name, Some rest => Some (rest ++ [name])
              | _, _ => None
              end
          | None => None
          end
      end
  end.

(** The index [a] stands for the key of the request [r]. *)
Definition resolves (t : Profiler.Tables) (r : Profiler.Request) (a : nat) : Prop :=
  match r with
  | Profiler.GetFunc name => funcName t a = Some name
  | Profiler.GetFrame name => frameName t a = Some name
  | Profiler.GetStack frameIndex prefixStack =>
      Spec.stackRows t !! a = Some (frameIndex, prefixStack)
  end.

(** The file an entry of [fileIds] or [parentFileIds] stands for in the
    dictionary [files]: [Some None] for the sentinel -1, [Some (Some f)]
    for the id of [f]; nothing for [undefined] or an id out of range. *)
Definition readId (files : list string) (v : option Z) : option (option string) :=
  match v with
  | None => None
  | Some z =>
      if z =? -1 then Some None
      else if 0 <=? z then
             match files !! Z.to_nat z with
             | Some f => Some (Some f)
             | None => None
             end
           else None
  end.

(** The chain of names a marker is sampled with: its compilation unit,
    when it has one, then its include chain. *)
Definition markerNames (m : Profiler.SourceMarker) : list string :=
  (if Js.truthy (Profiler.compilationUnit m)
   then [default "" (Profiler.compilationUnit m)] else [])
  ++ Profiler.stack m.

End Reader.

(** * Properties *)

(** Settles a statement about the positions of a short literal list by
    going through the positions. *)
Ltac by_positions :=
  repeat match goal with
         | H : (_ :: _) !! ?i = Some _ |- _ => destruct i; cbn in H
         | H : [] !! _ = Some _ |- _ => by inversion H
         | H : Some _ = Some _ |- _ => injection H as <-
         end.

(** ** Arrays: positions, [find], [splice], [sort] *)

Section JsFacts.
Context {A : Type}.
Implicit Types (l : list A) (p : A -> bool) (cmp : A -> A -> Z).

Lemma entries_lookup l i :
  Js.entries l !! i = (fun x => (i, x)) <$> l !! i.
Proof. unfold Js.entries. apply list_lookup_imap. Qed.

Lemma entries_elem l i x : (i, x) ∈ Js.entries l <-> l !! i = Some x.
Proof.
  unfold Js.entries. rewrite elem_of_lookup_imap. split.
  - intros (j & y & Heq & Hy). by inversion Heq; subst.
  - intros H. by exists i, x.
Qed.

Lemma entries_In l o : In o (Js.entries l) <-> l !! (fst o) = Some (snd o).
Proof. destruct o as [i x]. rewrite <- list_elem_of_In. apply entries_elem. Qed.

Lemma entries_length l : length (Js.entries l) = length l.
Proof. unfold Js.entries. apply length_imap. Qed.

Lemma entries_fst l : map fst (Js.entries l) = seq 0 (length l).
Proof.
  unfold Js.entries.
  assert (H : forall l k,
             map fst (imap (fun i x => ((k + i)%nat, x)) l) = seq k (length l)).
  { clear. induction l as [|x l IH]; intros k; [done|].
    rewrite imap_cons. cbn [map fst length seq]. f_equal; [lia|].
    rewrite <- (IH (S k)). f_equal. apply imap_ext. intros. cbn. f_equal. lia. }
  apply (H l 0%nat).
Qed.

Lemma entries_snd l : map snd (Js.entries l) = l.
Proof.
  unfold Js.entries.
  assert (H : forall (f : nat -> nat) l, map snd (imap (fun i x => (f i, x)) l) = l).
  { clear. intros f l. revert f. induction l as [|x l IH]; intros f; [done|].
    rewrite imap_cons. cbn [map snd]. f_equal. apply (IH (f ∘ S)). }
  apply (H (fun i => i)).
Qed.

Lemma entries_NoDup l : NoDup (Js.entries l).
Proof.
  apply (NoDup_fmap_1 fst). change (fmap fst (Js.entries l)) with (map fst (Js.entries l)).
  rewrite entries_fst. apply NoDup_seq.
Qed.

Lemma findFrom_Some p k l i x :
  Js.findFrom p k l = Some (i, x) ->
  (k <= i)%nat /\ l !! (i - k)%nat = Some x /\ p x = true /\
  forall j y, (j < i - k)%nat -> l !! j = Some y -> p y = false.
Proof.
  revert k. induction l as [|a l IH]; intros k; cbn [Js.findFrom]; [done|].
  destruct (p a) eqn:Hpa.
  - intros [= <- <-]. replace (k - k)%nat with 0%nat by lia.
    split_and!; [lia|done|done|]. intros; lia.
  - intros H. apply IH in H as (Hle & Hx & Hpx & Hmin).
    replace (i - k)%nat with (S (i - S k)) by lia.
    split_and!; [lia|done|done|].
    intros [|j] y Hj; cbn; [by intros [= <-]|]. apply Hmin. lia.
Qed.

Lemma find_Some p l i x :
  Js.find p l = Some (i, x) ->
  l !! i = Some x /\ p x = true /\
  forall j y, (j < i)%nat -> l !! j = Some y -> p y = false.
Proof.
  intros H. apply findFrom_Some in H as (_ & Hx & Hp & Hmin).
  rewrite Nat.sub_0_r in Hx, Hmin. auto.
Qed.

Lemma findFrom_None p k l :
  Js.findFrom p k l = None <-> forall x, x ∈ l -> p x = false.
Proof.
  revert k. induction l as [|a l IH]; intros k; cbn [Js.findFrom].
  - split; [|done]. intros _ x Hx. by apply elem_of_nil in Hx.
  - destruct (p a) eqn:Hpa.
    + split; [done|]. intros H. specialize (H a (list_elem_of_here _ _)). congruence.
    + rewrite IH. split.
      * intros H x [->|Hx]%elem_of_cons; auto.
      * intros H x Hx. apply H. by apply list_elem_of_further.
Qed.

Lemma find_None p l : Js.find p l = None <-> forall x, x ∈ l -> p x = false.
Proof. apply findFrom_None. Qed.

Lemma splice1_delete idx l : Js.splice1 idx l = delete idx l.
Proof.
  revert idx. induction l as [|a l IH]; intros [|k]; cbn; try done.
  by rewrite IH.
Qed.

Lemma sortInsert_Permutation cmp x l : Js.sortInsert cmp x l ≡ₚ x :: l.
Proof.
  induction l as [|y l IH]; cbn; [done|].
  destruct (cmp x y <=? 0); [done|]. rewrite IH. apply Permutation_swap.
Qed.

Lemma sort_Permutation cmp l : Js.sort cmp l ≡ₚ l.
Proof.
  induction l as [|x l IH]; cbn; [done|].
  rewrite sortInsert_Permutation. by rewrite IH.
Qed.

Lemma sort_length cmp l : length (Js.sort cmp l) = length l.
Proof. apply Permutation_length, sort_Permutation. Qed.

Lemma NoDup_map_filter {B} (g : A -> B) (f : A -> bool) l :
  NoDup (map g l) -> NoDup (map g (List.filter f l)).
Proof.
  induction l as [|x l IH]; cbn; [done|].
  intros [Hx Hl]%NoDup_cons. destruct (f x); cbn; [|by apply IH].
  apply NoDup_cons. split; [|by apply IH].
  rewrite list_elem_of_In, in_map_iff. intros (y & Hy & [Hin _]%filter_In).
  apply Hx. rewrite list_elem_of_In, in_map_iff. by exists y.
Qed.

Lemma StronglySorted_lookup (R : A -> A -> Prop) l i j x y :
  StronglySorted R l -> (i < j)%nat ->
  l !! i = Some x -> l !! j = Some y -> R x y.
Proof.
  intros Hs. revert i j. induction Hs as [|a l Hs IH Ha]; intros i j Hij; [done|].
  destruct i as [|i], j as [|j]; try lia; cbn.
  - intros [= <-] Hy. rewrite Forall_forall in Ha. apply Ha.
    apply list_elem_of_lookup. eauto.
  - apply IH. lia.
Qed.

(** Sorting by an integer key, the comparator being the difference of
    the keys (ascending) or its opposite (descending). *)
Section ByKey.
Variable key : A -> Z.
Variable cmp : A -> A -> Z.
Hypothesis cmp_key : forall a b, cmp a b <= 0 <-> key a <= key b.

Lemma sortInsert_sorted x l :
  StronglySorted (fun a b => key a <= key b) l ->
  StronglySorted (fun a b => key a <= key b) (Js.sortInsert cmp x l).
Proof.
  induction 1 as [|y l Hl IH Hy]; cbn.
  - repeat constructor.
  - destruct (Z.leb_spec (cmp x y) 0) as [Hc|Hc].
    + apply cmp_key in Hc. constructor; [by constructor|].
      constructor; [done|]. eapply Forall_impl; [exact Hy|]. cbn. intros; lia.
    + constructor; [done|].
      rewrite sortInsert_Permutation. constructor; [|done].
      assert (~ key x <= key y) by (rewrite <- cmp_key; lia). lia.
Qed.

Lemma sort_sorted l : StronglySorted (fun a b => key a <= key b) (Js.sort cmp l).
Proof.
  induction l as [|x l IH]; cbn; [constructor|]. by apply sortInsert_sorted.
Qed.
End ByKey.

End JsFacts.

(** ** The key of an event determines its three identifiers *)

Section Keys.

Lemma uint_dash_split d1 d2 r1 r2 :
  NilEmpty.string_of_uint d1 +:+ ("-" +:+ r1)
  = NilEmpty.string_of_uint d2 +:+ ("-" +:+ r2) ->
  d1 = d2 /\ r1 = r2.
Proof.
  revert d2. induction d1 as [|d1 IH|d1 IH|d1 IH|d1 IH|d1 IH|d1 IH|d1 IH|d1 IH|d1 IH|d1 IH];
    intros [|d2|d2|d2|d2|d2|d2|d2|d2|d2|d2]; cbn; intros H;
    try discriminate H;
    try (injection H as H; apply IH in H as [-> ->]; done).
  simpl in H. by injection H as H.
Qed.

Lemma int_dash_split i1 i2 r1 r2 :
  (forall d, i1 = Pos d -> d <> Nil) ->
  (forall d, i2 = Pos d -> d <> Nil) ->
  NilEmpty.string_of_int i1 +:+ ("-" +:+ r1)
  = NilEmpty.string_of_int i2 +:+ ("-" +:+ r2) ->
  i1 = i2 /\ r1 = r2.
Proof.
  intros H1 H2. destruct i1 as [d1|d1], i2 as [d2|d2]; cbn.
  - intros [-> ->]%uint_dash_split. done.
  - specialize (H1 d1 eq_refl). destruct d1; try done; cbn; discriminate.
  - specialize (H2 d2 eq_refl). destruct d2; try done; cbn; discriminate.
  - intros H. injection H as H. apply uint_dash_split in H as [-> ->]. done.
Qed.

Lemma to_int_nonnil z d : Z.to_int z = Pos d -> d <> Nil.
Proof.
  destruct z as [|p|p]; cbn; intros [= <-]; [done|].
  apply Unsigned.to_uint_nonnil.
Qed.

Lemma numToString_dash_split a b r1 r2 :
  Js.numToString a +:+ ("-" +:+ r1) = Js.numToString b +:+ ("-" +:+ r2) ->
  a = b /\ r1 = r2.
Proof.
  unfold Js.numToString. intros H.
  apply int_dash_split in H as [H ->]; [|apply to_int_nonnil..].
  split; [|done]. by apply DecimalZ.to_int_inj.
Qed.

Lemma numToString_inj a b : Js.numToString a = Js.numToString b -> a = b.
Proof.
  unfold Js.numToString. intros H. apply DecimalZ.to_int_inj.
  assert (Some (Z.to_int a) = Some (Z.to_int b)) as [= ->]; [|done].
  by rewrite <- !NilEmpty.isi, H.
Qed.

Lemma eventKey_inj (e1 e2 : Trace.RawEvent) :
  Trace.eventKey e1 = Trace.eventKey e2 <->
  Trace.pid e1 = Trace.pid e2 /\ Trace.tid e1 = Trace.tid e2 /\ Trace.id e1 = Trace.id e2.
Proof.
  unfold Trace.eventKey. split.
  - intros H. apply numToString_dash_split in H as [Hp H].
    apply numToString_dash_split in H as [Ht H].
    apply numToString_inj in H. done.
  - by intros (-> & -> & ->).
Qed.

End Keys.

(** ** The event matcher *)

Section Matcher.
Import Trace.
Implicit Types (endMap : gmap string (list RawEvent)) (b e : RawEvent).

Lemma pool_indexEnd endMap e key :
  pool (indexEnd endMap e) key =
  pool endMap key ++ (if String.eqb (eventKey e) key then [e] else []).
Proof.
  unfold indexEnd, pool at 1. destruct (String.eqb_spec (eventKey e) key) as [->|Hne].
  - by rewrite lookup_insert_eq.
  - rewrite lookup_insert_ne by done. by rewrite app_nil_r.
Qed.

Lemma pool_fold_indexEnd ends endMap key :
  pool (fold_left indexEnd ends endMap) key =
  pool endMap key ++ List.filter (fun e => String.eqb (eventKey e) key) ends.
Proof.
  revert endMap. induction ends as [|e ends IH]; intros endMap; cbn.
  - by rewrite app_nil_r.
  - rewrite IH, pool_indexEnd, <- app_assoc.
    by destruct (String.eqb (eventKey e) key).
Qed.

(** The pool of a key holds the end-markers of that key, in trace order. *)
Lemma pool_buildEndMap ends key :
  pool (buildEndMap ends) key =
  List.filter (fun e => String.eqb (eventKey e) key) ends.
Proof. unfold buildEndMap. by rewrite pool_fold_indexEnd. Qed.

(** A begin-marker with a candidate: it takes the first end-marker of
    its pool, in pool order, that is later than itself, and removes it
    from the pool; the other pools are untouched. *)
Lemma matchBegin_match endMap intervals b idx e :
  Js.find (after b) (pool endMap (eventKey b)) = Some (idx, e) ->
  pool endMap (eventKey b) !! idx = Some e /\
  ts b < ts e /\
  (forall j e', (j < idx)%nat -> pool endMap (eventKey b) !! j = Some e' ->
                ts e' <= ts b) /\
  snd (matchBegin (endMap, intervals) b) =
    intervals ++ [mkInterval (detailString b) (ts b) (ts e) (ts e - ts b)] /\
  pool (fst (matchBegin (endMap, intervals) b)) (eventKey b) =
    delete idx (pool endMap (eventKey b)) /\
  (forall key, key <> eventKey b ->
     pool (fst (matchBegin (endMap, intervals) b)) key = pool endMap key).
Proof.
  intros Hfind. cbn [matchBegin]. rewrite Hfind. cbn [fst snd].
  apply find_Some in Hfind as (Hidx & Hafter & Hmin). unfold after in *.
  split_and!; try done.
  - lia.
  - intros j e' Hj He'. specialize (Hmin j e' Hj He'). lia.
  - unfold pool at 1. by rewrite lookup_insert_eq, splice1_delete.
  - intros key Hne. unfold pool at 1. by rewrite lookup_insert_ne.
Qed.

(** A begin-marker with no candidate leaves everything as it was. *)
Lemma matchBegin_drop endMap intervals b :
  (forall e, e ∈ pool endMap (eventKey b) -> ts e <= ts b) ->
  matchBegin (endMap, intervals) b = (endMap, intervals).
Proof.
  intros Hnone. cbn [matchBegin].
  assert (Js.find (after b) (pool endMap (eventKey b)) = None) as ->; [|done].
  apply find_None. intros e He. specialize (Hnone e He). unfold after. lia.
Qed.

(** In a pool that is in time order the first later end-marker is
    also the earliest one. *)
Lemma find_after_sorted b (l : list RawEvent) idx e :
  StronglySorted (fun x y => ts x <= ts y) l ->
  Js.find (after b) l = Some (idx, e) ->
  forall e', e' ∈ l -> ts b < ts e' -> ts e <= ts e'.
Proof.
  intros Hsorted (Hidx & _ & Hmin)%find_Some e' [j Hj]%list_elem_of_lookup Hlate.
  destruct (decide (j < idx)%nat) as [Hlt|Hge].
  - specialize (Hmin j e' Hlt Hj). unfold after in Hmin. lia.
  - destruct (decide (j = idx)) as [->|Hne]; [by simplify_eq|].
    apply (StronglySorted_lookup (fun x y => ts x <= ts y) l idx j e e');
      [done|lia|done..].
Qed.

Lemma matchBegin_wellFormed st b :
  Forall Spec.wellFormed (snd st) -> Forall Spec.wellFormed (snd (matchBegin st b)).
Proof.
  destruct st as [endMap intervals]. intros Hwf. cbn [matchBegin].
  destruct (Js.find _ _) as [[idx e]|] eqn:Hfind; [|done]. cbn [snd].
  apply Forall_app. split; [done|]. constructor; [|constructor].
  apply find_Some in Hfind as (_ & Hafter & _). unfold after in Hafter.
  unfold Spec.wellFormed. cbn. lia.
Qed.

Lemma matchLoop_wellFormed begins st :
  Forall Spec.wellFormed (snd st) ->
  Forall Spec.wellFormed (snd (fold_left matchBegin begins st)).
Proof.
  revert st. induction begins as [|b begins IH]; intros st Hst; cbn; [done|].
  by apply IH, matchBegin_wellFormed.
Qed.

Lemma matchIntervals_wellFormed events : Forall Spec.wellFormed (matchIntervals events).
Proof. unfold matchIntervals, matchLoop. by apply matchLoop_wellFormed. Qed.

End Matcher.


(** ** What the matcher emits *)

Section MatcherTheorems.
Import Trace.

(** C10: every interval emitted by the event matcher, for every input
    trace, has an end timestamp strictly greater than its start
    timestamp, and its duration is their difference, hence strictly
    positive. *)
Theorem C10_emitted_interval_positive (events : list RawEvent) :
  Forall (fun iv => startTime iv < endTime iv /\
                    duration iv = endTime iv - startTime iv /\
                    0 < duration iv)
         (matchIntervals events).
Proof.
  eapply Forall_impl; [apply matchIntervals_wellFormed|].
  intros iv [Hlt Hdur]. split_and!; [done|done|lia].
Qed.

(** C1, at a trace whose end-markers are not in time order: the begin at
    10 has two unconsumed end-markers of its own key later than itself,
    at 30 and at 20; the matcher pairs it with the one at 30, the first
    in trace order, and not with the earliest one, at 20. *)
Theorem C1_first_in_trace_order_not_earliest :
  let b := Scenario.beginAt "a.h" 10 0 in
  let late := Scenario.endAt 30 0 in
  let early := Scenario.endAt 20 0 in
  beginEvents Scenario.unorderedEnds = [b] /\
  pool (buildEndMap (endEvents Scenario.unorderedEnds)) (eventKey b) = [late; early] /\
  ts b < ts early < ts late /\
  matchIntervals Scenario.unorderedEnds = [mkInterval "a.h" 10 30 20].
Proof. cbv zeta. split_and!; try (vm_compute; reflexivity); vm_compute; done. Qed.

End MatcherTheorems.

(** ** Self-time *)

Section SelfTime.
Import Trace.
Implicit Types (intervals : list Interval) (i j m : nat).

Lemma contains_spec (a b : Interval) : contains a b = true <-> Spec.containsP a b.
Proof.
  unfold contains, Spec.containsP.
  destruct a, b; cbn. rewrite andb_true_iff, !Z.leb_le. lia.
Qed.

Lemma fold_left_guarded_sum {B} (guard direct : B -> bool) (w : B -> Z) (l : list B) acc :
  fold_left (fun acc o => if guard o then if direct o then acc + w o else acc else acc)
            l acc
  = acc + Spec.sumZ (map w (List.filter (fun o => guard o && direct o) l)).
Proof.
  unfold Spec.sumZ. revert acc. induction l as [|o l IH]; intros acc; cbn; [lia|].
  rewrite IH. destruct (guard o), (direct o); cbn; lia.
Qed.

(** The test of the loops on [other], read on positions. *)
Lemma contained_test intervals i interval o :
  intervals !! i = Some interval ->
  In o (Js.entries intervals) ->
  (negb (Nat.eqb (fst o) i) && contains interval (snd o) = true
   <-> Spec.containedIn intervals i (fst o)).
Proof.
  intros Hi Ho%entries_In. rewrite andb_true_iff, negb_true_iff, Nat.eqb_neq, contains_spec.
  unfold Spec.containedIn. split.
  - intros [Hne Hc]. split; [done|]. by exists interval, (snd o).
  - intros [Hne (a & b & Ha & Hb & Hc)]. by simplify_eq.
Qed.

Lemma isDirect_spec intervals i interval j other :
  intervals !! i = Some interval ->
  intervals !! j = Some other ->
  j <> i ->
  (Profiler.isDirect intervals i interval j other = true <->
   ~ exists m, m <> j /\ Spec.containedIn intervals i m /\ Spec.containedIn intervals m j).
Proof.
  intros Hi Hj Hne. unfold Profiler.isDirect. rewrite negb_true_iff, <- not_true_iff_false.
  apply not_iff_compat. rewrite existsb_exists. split.
  - intros ([m middle] & Hm%entries_In & Htest). cbn [fst snd] in *.
    rewrite !andb_true_iff, !negb_true_iff, !Nat.eqb_neq, !contains_spec in Htest.
    destruct Htest as [[[Hmi Hmj] Hc1] Hc2].
    exists m. split; [done|]. split; (split; [done|]).
    + by exists interval, middle.
    + by exists middle, other.
  - intros (m & Hmj & [Hmi (a & c & Ha & Hc & Hac)] & [_ (c' & b & Hc' & Hb & Hcb)]).
    simplify_eq. exists (m, c). split; [by apply entries_In|]. cbn [fst snd].
    rewrite !andb_true_iff, !negb_true_iff, !Nat.eqb_neq, !contains_spec. done.
Qed.

Lemma directChildren_NoDup intervals i interval :
  NoDup (Profiler.directChildren intervals i interval).
Proof.
  unfold Profiler.directChildren.
  apply NoDup_map_filter. rewrite entries_fst. apply NoDup_seq.
Qed.

Lemma directChildren_spec intervals i interval j :
  intervals !! i = Some interval ->
  (j ∈ Profiler.directChildren intervals i interval <-> Spec.directChild intervals i j).
Proof.
  intros Hi. unfold Profiler.directChildren, Spec.directChild.
  rewrite list_elem_of_In, in_map_iff. split.
  - intros ([j' other] & <- & [Ho Htest]%filter_In). cbn [fst snd] in *.
    apply andb_true_iff in Htest as [Hc Hd].
    pose proof Ho as Hj%entries_In. cbn in Hj.
    apply (contained_test _ _ _ (j', other) Hi Ho) in Hc. cbn in Hc.
    split; [done|]. apply (isDirect_spec _ _ _ _ _ Hi Hj); [apply Hc|done].
  - intros [Hc Hd]. pose proof Hc as [Hne (a & b & Ha & Hb & Hab)]. simplify_eq.
    exists (j, b). split; [done|]. apply filter_In.
    assert (Ho : In (j, b) (Js.entries intervals)) by by apply entries_In.
    split; [done|]. apply andb_true_iff. split.
    + by apply (contained_test _ _ _ (j, b) Hi Ho).
    + by apply (isDirect_spec _ _ _ _ _ Hi Hb).
Qed.

Lemma childrenTime_sum intervals i interval :
  Profiler.childrenTime intervals i interval
  = Spec.sumZ (map (Spec.durationAt intervals) (Profiler.directChildren intervals i interval)).
Proof.
  unfold Profiler.childrenTime, Profiler.directChildren.
  rewrite (fold_left_guarded_sum
             (fun o => negb (Nat.eqb (fst o) i) && contains interval (snd o))
             (fun o => Profiler.isDirect intervals i interval (fst o) (snd o))
             (fun o => duration (snd o))).
  rewrite Z.add_0_l, map_map. f_equal. apply map_ext_in.
  intros o [Ho%entries_In _]%filter_In. unfold Spec.durationAt. by rewrite Ho.
Qed.

Lemma markersOf_lookup intervals i interval :
  intervals !! i = Some interval ->
  Profiler.markersOf intervals !! i = Some (Profiler.markerOf intervals i interval).
Proof. intros Hi. unfold Profiler.markersOf. by rewrite list_lookup_imap, Hi. Qed.

End SelfTime.

Section SelfTimeTheorems.
Import Trace.

(** C2: for every interval [i] of a unit, the self-duration stored in
    the marker emitted for [i] is [i]'s total duration minus the sum of
    the durations of exactly its direct children (the other intervals
    contained by [i] that no third interval contained by [i] contains);
    and for an outer interval [0,100] with an inner interval [10,40] the
    outer self-duration is 70 and the inner one 30. *)
Theorem C2_self_duration_direct_children :
  (forall (intervals : list Interval) (i : nat) (interval : Interval),
      intervals !! i = Some interval ->
      exists marker children,
        Profiler.markersOf intervals !! i = Some marker /\
        NoDup children /\
        (forall j, j ∈ children <-> Spec.directChild intervals i j) /\
        Profiler.duration marker
        = duration interval - Spec.sumZ (map (Spec.durationAt intervals) children))
  /\ matchIntervals Scenario.nested
     = [mkInterval "outer.h" 0 100 100; mkInterval "inner.h" 10 40 30]
  /\ map (fun m => (Profiler.file m, Profiler.duration m))
         (Profiler.extractSourceMarkers Scenario.nested)
     = [("outer.h", 70); ("inner.h", 30)].
Proof.
  split; [|split; vm_compute; reflexivity].
  intros intervals i interval Hi.
  exists (Profiler.markerOf intervals i interval),
         (Profiler.directChildren intervals i interval).
  split_and!.
  - by apply markersOf_lookup.
  - apply directChildren_NoDup.
  - intros j. by apply directChildren_spec.
  - cbn. unfold Profiler.selfTime. by rewrite childrenTime_sum.
Qed.

Lemma C2_self_duration_witness :
  let intervals := [mkInterval "outer.h" 0 100 100; mkInterval "inner.h" 10 40 30] in
  intervals !! 0%nat = Some (mkInterval "outer.h" 0 100 100) /\
  exists marker children,
    Profiler.markersOf intervals !! 0%nat = Some marker /\
    NoDup children /\
    (forall j, j ∈ children <-> Spec.directChild intervals 0 j) /\
    Profiler.duration marker
    = 100 - Spec.sumZ (map (Spec.durationAt intervals) children).
Proof.
  cbv zeta. split; [reflexivity|].
  apply (proj1 C2_self_duration_direct_children
               [mkInterval "outer.h" 0 100 100; mkInterval "inner.h" 10 40 30]
               0%nat (mkInterval "outer.h" 0 100 100)).
  reflexivity.
Defined.

End SelfTimeTheorems.

(** ** Full ancestor chain *)

Section Chain.
Import Trace.
Implicit Types (intervals : list Interval) (i j : nat).

Lemma container_test intervals i interval o :
  intervals !! i = Some interval ->
  In o (Js.entries intervals) ->
  (negb (Nat.eqb (fst o) i) && contains (snd o) interval = true
   <-> Spec.containedIn intervals (fst o) i).
Proof.
  intros Hi Ho%entries_In. rewrite andb_true_iff, negb_true_iff, Nat.eqb_neq, contains_spec.
  unfold Spec.containedIn. split.
  - intros [Hne Hc]. split; [done|]. by exists (snd o), interval.
  - intros [Hne (a & b & Ha & Hb & Hc)]. by simplify_eq.
Qed.

Lemma containers_elem intervals i interval o :
  intervals !! i = Some interval ->
  (o ∈ Profiler.containers intervals i interval <->
   intervals !! fst o = Some (snd o) /\ Spec.containedIn intervals (fst o) i).
Proof.
  intros Hi. unfold Profiler.containers. rewrite list_elem_of_In, filter_In. split.
  - intros [Ho Ht]. split; [by apply entries_In|].
    by apply (container_test intervals i interval o Hi Ho).
  - intros [Ho Hc]. apply entries_In in Ho. split; [done|].
    by apply (container_test intervals i interval o Hi Ho).
Qed.

Lemma laminar_cases intervals i j a b :
  Spec.laminar intervals -> intervals !! i = Some a -> intervals !! j = Some b -> i <> j ->
  (endTime a <= startTime b \/ endTime b <= startTime a) \/
  (Spec.containsP a b \/ Spec.containsP b a).
Proof. intros Hlam Hi Hj Hne. exact (Hlam i j a b Hi Hj Hne). Qed.

Lemma StronglySorted_map_elem {B C} (R : B -> B -> Prop) (R' : C -> C -> Prop)
    (f : B -> C) (l : list B) :
  (forall x y, x ∈ l -> y ∈ l -> R x y -> R' (f x) (f y)) ->
  StronglySorted R l -> StronglySorted R' (map f l).
Proof.
  intros HR Hs. induction Hs as [|x l Hs IH Hx]; cbn; constructor.
  - apply IH. intros a b Ha Hb. apply HR; by apply list_elem_of_further.
  - rewrite Forall_forall in Hx. apply Forall_forall. intros c Hc.
    apply list_elem_of_In, in_map_iff in Hc as (b & <- & Hb%list_elem_of_In).
    apply HR; [apply list_elem_of_here|by apply list_elem_of_further|by apply Hx].
Qed.

(** Among the intervals that contain an interval of positive length in
    a laminar family, the one that starts strictly earlier contains the
    other: where the start times differ, the order of the chain is
    outermost first. *)
Lemma earlier_container_is_outer intervals i j k :
  Spec.laminar intervals ->
  (exists interval, intervals !! i = Some interval /\ startTime interval < endTime interval) ->
  Spec.containedIn intervals j i -> Spec.containedIn intervals k i ->
  Spec.startAt intervals j < Spec.startAt intervals k ->
  Spec.containedIn intervals j k.
Proof.
  intros Hlam (interval & Hi & Hpos) [Hji (a & b & Ha & Hb & [Hs1 He1])]
         [Hki (c & d & Hc & Hd & [Hs2 He2])] Hlt.
  simplify_eq. unfold Spec.startAt in Hlt. rewrite Ha, Hc in Hlt. cbn in Hlt.
  assert (Hjk : j <> k) by (intros ->; simplify_eq; lia).
  split; [done|]. exists a, c. split_and!; [done..|].
  destruct (laminar_cases intervals j k a c Hlam Ha Hc Hjk) as [[H|H]|[H|H]];
    unfold Spec.containsP in *; [lia|lia|done|lia].
Qed.

(** What the chain does hold: in full-ancestor mode, the chain emitted
    for an interval [i] lists the files of exactly the other intervals
    [j] of the unit with [j.startTime <= i.startTime] and
    [j.endTime >= i.endTime], each once, in ascending order of start
    time, followed by [i] itself as the last element. *)
Lemma chain_members_sorted_by_start intervals i interval :
  intervals !! i = Some interval ->
  exists marker ancestors,
    Profiler.markersOf intervals !! i = Some marker /\
    NoDup ancestors /\
    (forall j, j ∈ ancestors <->
               j <> i /\ exists other, intervals !! j = Some other /\
                 startTime other <= startTime interval /\
                 endTime other >= endTime interval) /\
    StronglySorted (fun j k => Spec.startAt intervals j <= Spec.startAt intervals k)
                   ancestors /\
    Profiler.stack marker = map (Spec.fileAt intervals) (ancestors ++ [i]).
Proof.
  intros Hi.
  set (cmp := fun a b : nat * Interval => startTime (snd a) - startTime (snd b)).
  set (sorted := Js.sort cmp (Profiler.containers intervals i interval)).
  assert (Hperm : sorted ≡ₚ Profiler.containers intervals i interval)
    by apply sort_Permutation.
  assert (Helem : forall o, o ∈ sorted ->
            intervals !! fst o = Some (snd o) /\ Spec.containedIn intervals (fst o) i).
  { intros o Ho. rewrite Hperm in Ho. by apply containers_elem in Ho. }
  exists (Profiler.markerOf intervals i interval), (map fst sorted). split_and!.
  - by apply markersOf_lookup.
  - change (map fst sorted) with (fst <$> sorted). rewrite Hperm.
    apply NoDup_map_filter. rewrite entries_fst. apply NoDup_seq.
  - intros j. rewrite list_elem_of_In, in_map_iff. split.
    + intros (o & <- & Ho%list_elem_of_In). apply Helem in Ho as [Ho [Hne Hc]].
      split; [done|]. destruct Hc as (a & b & Ha & Hb & Hc). simplify_eq.
      exists (snd o). unfold Spec.containsP in Hc. done.
    + intros [Hne (other & Hj & Hs & He)]. exists (j, other). split; [done|].
      apply list_elem_of_In. rewrite Hperm. apply containers_elem; [done|]. cbn.
      split; [done|]. split; [done|]. by exists other, interval.
  - apply (StronglySorted_map_elem (fun a b => startTime (snd a) <= startTime (snd b))).
    + intros x y [Hx _]%Helem [Hy _]%Helem Hxy. unfold Spec.startAt.
      by rewrite Hx, Hy.
    + apply (sort_sorted (fun a => startTime (snd a)) cmp). intros a b. unfold cmp. lia.
  - cbn [Profiler.markerOf Profiler.stack]. unfold Profiler.chain. fold cmp. fold sorted.
    rewrite !map_app, map_map. cbn. f_equal.
    + apply map_ext_in. intros o [Ho _]%list_elem_of_In%Helem. unfold Spec.fileAt.
      by rewrite Ho.
    + unfold Spec.fileAt. by rewrite Hi.
Qed.

Lemma chain_members_sorted_nested :
  let intervals := [mkInterval "outer.h" 0 100 100; mkInterval "inner.h" 10 40 30] in
  intervals !! 1%nat = Some (mkInterval "inner.h" 10 40 30) /\
  exists marker ancestors,
    Profiler.markersOf intervals !! 1%nat = Some marker /\
    NoDup ancestors /\
    (forall j, j ∈ ancestors <->
               j <> 1%nat /\ exists other, intervals !! j = Some other /\
                 startTime other <= 10 /\ endTime other >= 40) /\
    StronglySorted (fun j k => Spec.startAt intervals j <= Spec.startAt intervals k)
                   ancestors /\
    Profiler.stack marker = map (Spec.fileAt intervals) (ancestors ++ [1%nat]).
Proof.
  cbv zeta. split; [reflexivity|].
  apply (chain_members_sorted_by_start
           [mkInterval "outer.h" 0 100 100; mkInterval "inner.h" 10 40 30]
           1%nat (mkInterval "inner.h" 10 40 30)).
  reflexivity.
Defined.

(** C4: the chain is not always outermost first, as the comment on the
    sort has it ("Sort by start time (outermost first)"). The sort
    compares start times only, so containers that start together stay
    in trace order. With [in.h] over [0,50] listed before [out.h] over
    [0,100], which contains it, and a leaf over [10,20] inside both,
    the chain of the leaf has the inner [in.h] before the outer
    [out.h]. *)
Theorem C4_tied_starts_inner_first :
  let intervals := matchIntervals Scenario.tiedStarts in
  intervals = [mkInterval "in.h" 0 50 50; mkInterval "out.h" 0 100 100;
               mkInterval "leaf.h" 10 20 10] /\
  Spec.laminar intervals /\
  (Spec.containedIn intervals 1 0 /\ ~ Spec.containedIn intervals 0 1) /\
  (Spec.containedIn intervals 0 2 /\ Spec.containedIn intervals 1 2) /\
  map Profiler.stack (Profiler.extractSourceMarkers Scenario.tiedStarts) !! 2%nat
  = Some ["in.h"; "out.h"; "leaf.h"] /\
  map Profiler.stack (Profiler.extractSourceMarkers Scenario.tiedStarts) !! 2%nat
  <> Some ["out.h"; "in.h"; "leaf.h"].
Proof.
  cbv zeta.
  assert (Heq : matchIntervals Scenario.tiedStarts
                = [mkInterval "in.h" 0 50 50; mkInterval "out.h" 0 100 100;
                   mkInterval "leaf.h" 10 20 10])
    by (vm_compute; reflexivity).
  split; [exact Heq|]. rewrite Heq. split_and!.
  - intros i j a b Hi Hj Hne. unfold Spec.disjoint, Spec.containsP.
    by_positions; cbn; try lia; done.
  - split; [done|]. eexists _, _. split_and!; [done..|]. unfold Spec.containsP. cbn. lia.
  - intros [_ (a & b & Ha & Hb & [Hs He])]. cbn in Ha, Hb. simplify_eq. cbn in He. lia.
  - split; [done|]. eexists _, _. split_and!; [done..|]. unfold Spec.containsP. cbn. lia.
  - split; [done|]. eexists _, _. split_and!; [done..|]. unfold Spec.containsP. cbn. lia.
  - by vm_compute.
  - vm_compute. discriminate.
Qed.

End Chain.

(** ** Nearest parent *)

Section NearestParent.
Import Trace.
Implicit Types (intervals : list Interval) (i j : nat).

Local Abbreviation test i interval o :=
  (negb (Nat.eqb (fst o) i) && contains (snd o) interval).

(** What the inner loop of [buildIncludeHierarchy] has found after it
    went through [l]. *)
Lemma parent_fold_inv i interval (l : list (nat * Interval)) :
  match fold_left (Dashboard.parentStep i interval) l (None, None) with
  | (None, bound) =>
      bound = None /\ forall o, o ∈ l -> test i interval o = false
  | (Some p, bound) =>
      bound = Some (duration (snd p)) /\ p ∈ l /\ test i interval p = true /\
      forall o, o ∈ l -> test i interval o = true ->
                duration (snd p) <= duration (snd o)
  end.
Proof.
  induction l as [|x l IH] using rev_ind.
  - cbn. split; [done|]. intros o Ho. by apply elem_of_nil in Ho.
  - rewrite fold_left_app. cbn [fold_left].
    destruct (fold_left _ l _) as [[p|] bound]; unfold Dashboard.parentStep at 1;
      cbn [fst snd]; destruct (test i interval x) eqn:Hx.
    + destruct IH as (-> & Hp & Htp & Hmin). cbn [Dashboard.below].
      destruct (Z.ltb_spec (duration (snd x)) (duration (snd p))) as [Hlt|Hge].
      * split_and!; [done|set_solver|done|].
        intros o [Ho|Ho%list_elem_of_singleton]%elem_of_app Ht; subst; [|lia].
        specialize (Hmin o Ho Ht). lia.
      * split_and!; [done|set_solver|done|].
        intros o [Ho|Ho%list_elem_of_singleton]%elem_of_app Ht; subst; [|lia]. by apply Hmin.
    + destruct IH as (-> & Hp & Htp & Hmin).
      split_and!; [done|set_solver|done|].
      intros o [Ho|Ho%list_elem_of_singleton]%elem_of_app Ht; subst; [|congruence]. by apply Hmin.
    + destruct IH as (-> & Hnone). cbn [Dashboard.below].
      split_and!; [done|set_solver|done|].
      intros o [Ho|Ho%list_elem_of_singleton]%elem_of_app Ht; subst; [|lia].
      specialize (Hnone o Ho). congruence.
    + destruct IH as (-> & Hnone). split; [done|].
      intros o [Ho|Ho%list_elem_of_singleton]%elem_of_app; subst; [by apply Hnone|done].
Qed.

Lemma immediateParent_Some intervals i interval p other :
  intervals !! i = Some interval ->
  Dashboard.immediateParent intervals i interval = Some (p, other) ->
  intervals !! p = Some other /\ Spec.containedIn intervals p i /\
  forall q, Spec.containedIn intervals q i -> duration other <= Spec.durationAt intervals q.
Proof.
  intros Hi. unfold Dashboard.immediateParent.
  pose proof (parent_fold_inv i interval (Js.entries intervals)) as Hinv.
  destruct (fold_left _ _ _) as [[p'|] bound]; cbn [fst]; [|done].
  intros [= ->]. destruct Hinv as (_ & Hp & Htp & Hmin).
  apply list_elem_of_In in Hp. pose proof Hp as Hlk%entries_In. cbn in Hlk.
  split_and!; [done|by apply (container_test intervals i interval (p, other) Hi Hp)|].
  intros q Hq. pose proof Hq as [_ (a & b & Ha & Hb & Hab)].
  assert (Hin : In (q, a) (Js.entries intervals)) by by apply entries_In.
  unfold Spec.durationAt. rewrite Ha. cbn.
  apply (Hmin (q, a)); [by apply list_elem_of_In|].
  by apply (container_test intervals i interval (q, a) Hi Hin).
Qed.

Lemma immediateParent_None intervals i interval :
  intervals !! i = Some interval ->
  Dashboard.immediateParent intervals i interval = None ->
  forall q, ~ Spec.containedIn intervals q i.
Proof.
  intros Hi. unfold Dashboard.immediateParent.
  pose proof (parent_fold_inv i interval (Js.entries intervals)) as Hinv.
  destruct (fold_left _ _ _) as [[p'|] bound]; cbn [fst]; [done|].
  intros _ q Hq. destruct Hinv as [_ Hnone].
  pose proof Hq as [_ (a & b & Ha & Hb & Hab)].
  assert (Hin : In (q, a) (Js.entries intervals)) by by apply entries_In.
  specialize (Hnone (q, a) (proj2 (list_elem_of_In _ _) Hin)).
  apply (container_test intervals i interval (q, a) Hi Hin) in Hq. congruence.
Qed.

Lemma immediateParent_root intervals i interval :
  intervals !! i = Some interval ->
  (forall q, ~ Spec.containedIn intervals q i) ->
  Dashboard.immediateParent intervals i interval = None.
Proof.
  intros Hi Hroot.
  destruct (Dashboard.immediateParent intervals i interval) as [[p other]|] eqn:Hp; [|done].
  apply immediateParent_Some in Hp as (_ & Hc & _); [|done]. by apply Hroot in Hc.
Qed.

Lemma encode_fold ids (l : list Dashboard.Include) a :
  let r := fold_left (Dashboard.encodeStep ids) l a in
  Dashboard.parentFileIds r = Dashboard.parentFileIds a ++ map (Dashboard.parentIdOf ids) l /\
  Dashboard.fileIds r
  = Dashboard.fileIds a ++ map (fun inc => Dashboard.idOf ids (Dashboard.file inc)) l /\
  Dashboard.durations r
  = Dashboard.durations a ++ map (fun inc => Js.roundDiv1000 (Dashboard.duration inc)) l.
Proof.
  revert a. induction l as [|inc l IH]; intros a; cbn.
  - by rewrite !app_nil_r.
  - destruct (IH (Dashboard.encodeStep ids a inc)) as (-> & -> & ->). cbn.
    by rewrite <- !app_assoc.
Qed.

Lemma parentFileIds_encodeUnit ids (l : list Dashboard.Include) :
  Dashboard.parentFileIds (Dashboard.encodeUnit ids l) = map (Dashboard.parentIdOf ids) l.
Proof. unfold Dashboard.encodeUnit. by destruct (encode_fold ids l (Dashboard.mkArrays 0 [] [] [] [])) as (-> & _). Qed.

End NearestParent.

Section NearestParentTheorems.
Import Trace.

(** C5: in nearest-parent mode the parent assigned to an interval [i] is
    another interval that contains [i] and whose duration is minimal
    among all the intervals containing [i]; when no interval contains
    [i] the parent is none, and the entry of [i] in the unit's
    [parentFileIds] array is the sentinel -1. *)
Theorem C5_nearest_parent (intervals : list Interval) (i : nat) (interval : Interval) :
  intervals !! i = Some interval ->
  let inc := Dashboard.includeOf intervals i interval in
  Dashboard.buildIncludeHierarchy intervals !! i = Some inc /\
  match Dashboard.immediateParent intervals i interval with
  | Some (p, other) =>
      intervals !! p = Some other /\ p <> i /\
      startTime other <= startTime interval /\ endTime other >= endTime interval /\
      (forall q, Spec.containedIn intervals q i ->
                 duration other <= Spec.durationAt intervals q) /\
      Dashboard.parentFile inc = Some (file other)
  | None =>
      (forall q, ~ Spec.containedIn intervals q i) /\ Dashboard.parentFile inc = None
  end /\
  forall ids : gmap string nat,
    let includes :=
      Js.sort (fun a b => Dashboard.startTime a - Dashboard.startTime b)
              (Dashboard.buildIncludeHierarchy intervals) in
    exists k, includes !! k = Some inc /\
      ((forall q, ~ Spec.containedIn intervals q i) ->
       Dashboard.parentFileIds (Dashboard.encodeUnit ids includes) !! k
       = Some (Some (-1))).
Proof.
  intros Hi inc.
  assert (Hinc : Dashboard.buildIncludeHierarchy intervals !! i = Some inc).
  { unfold Dashboard.buildIncludeHierarchy. by rewrite list_lookup_imap, Hi. }
  split_and!; [done| |].
  - destruct (Dashboard.immediateParent intervals i interval) as [[p other]|] eqn:Hp.
    + pose proof (immediateParent_Some _ _ _ _ _ Hi Hp) as (Hlk & Hc & Hmin).
      destruct Hc as [Hne (a & b & Ha & Hb & [Hs He])]. simplify_eq.
      split_and!; try done. subst inc. cbn. by rewrite Hp.
    + split; [apply (immediateParent_None _ _ _ Hi Hp)|]. subst inc. cbn. by rewrite Hp.
  - intros ids includes.
    assert (Hin : inc ∈ includes).
    { unfold includes. rewrite sort_Permutation. apply list_elem_of_lookup. eauto. }
    apply list_elem_of_lookup in Hin as [k Hk]. exists k. split; [done|].
    intros Hroot. rewrite parentFileIds_encodeUnit, list_lookup_fmap, Hk. cbn.
    unfold Dashboard.parentIdOf. subst inc. cbn.
    by rewrite (immediateParent_root _ _ _ Hi Hroot).
Qed.

Lemma C5_nearest_parent_witness :
  let intervals := [mkInterval "outer.h" 0 100 100; mkInterval "inner.h" 10 40 30] in
  let interval := mkInterval "inner.h" 10 40 30 in
  intervals !! 1%nat = Some interval /\
  Dashboard.buildIncludeHierarchy intervals !! 1%nat
  = Some (Dashboard.includeOf intervals 1 interval).
Proof.
  cbv zeta. split; [reflexivity|].
  exact (proj1 (C5_nearest_parent
                  [mkInterval "outer.h" 0 100 100; mkInterval "inner.h" 10 40 30]
                  1%nat (mkInterval "inner.h" 10 40 30) eq_refl)).
Defined.

End NearestParentTheorems.

(** ** The merger *)

Section Merger.
Import Profiler.
Implicit Types (markers : list SourceMarker) (units : list (string * list SourceMarker)).

Lemma maxEndTime_fold markers acc :
  let r := fold_left (fun mx m => if mx <? endTime m then endTime m else mx) markers acc in
  acc <= r /\ (forall m, m ∈ markers -> endTime m <= r) /\
  (r = acc \/ exists m, m ∈ markers /\ endTime m = r).
Proof.
  revert acc. induction markers as [|m markers IH]; intros acc; cbn.
  - split_and!; [lia| |by left]. intros m Hm. by apply elem_of_nil in Hm.
  - specialize (IH (if acc <? endTime m then endTime m else acc)).
    cbn in IH. destruct IH as (Hle & Hall & Hex).
    destruct (Z.ltb_spec acc (endTime m)) as [Hlt|Hge].
    + split_and!; [lia| |].
      * intros m' [->|Hm']%elem_of_cons; [done|by apply Hall].
      * right. destruct Hex as [->|(m' & Hm' & Heq)].
        -- exists m. split; [apply list_elem_of_here|done].
        -- exists m'. split; [by apply list_elem_of_further|done].
    + split_and!; [lia| |].
      * intros m' [->|Hm']%elem_of_cons; [lia|by apply Hall].
      * destruct Hex as [->|(m' & Hm' & Heq)]; [by left|].
        right. exists m'. split; [by apply list_elem_of_further|done].
Qed.

(** On non-negative end timestamps [maxEndTime] is the maximum. *)
Lemma maxEndTime_isMaxEnd markers :
  markers <> [] ->
  (forall m, m ∈ markers -> 0 <= endTime m) ->
  Spec.isMaxEnd markers (maxEndTime markers).
Proof.
  intros Hne Hpos. destruct (maxEndTime_fold markers 0) as (Hle & Hall & Hex).
  fold (maxEndTime markers) in *. split; [|done].
  destruct Hex as [Hz|Hex]; [|done].
  destruct markers as [|m markers]; [done|]. exists m.
  split; [apply list_elem_of_here|].
  pose proof (Hall m (list_elem_of_here _ _)). pose proof (Hpos m (list_elem_of_here _ _)).
  lia.
Qed.

Lemma isMaxEnd_maxEndTime markers mx :
  Spec.isMaxEnd markers mx -> 0 <= mx -> maxEndTime markers = mx.
Proof.
  intros [(m & Hm & Heq) Hmax] Hpos.
  destruct (maxEndTime_fold markers 0) as (Hle & Hall & Hex).
  fold (maxEndTime markers) in *. specialize (Hall m Hm).
  destruct Hex as [Hz|(m' & Hm' & Heq')]; [lia|]. specialize (Hmax m' Hm'). lia.
Qed.

(** Both branches of the loop body, read as one: an empty unit has
    [maxEndTime] 0 and nothing to shift. *)
Lemma layoutStep_uniform st (u : string * list SourceMarker) :
  layoutStep st u
  = (fst st + maxEndTime (snd u), snd st ++ [(fst u, map (shift (fst st)) (snd u))]).
Proof.
  unfold layoutStep. destruct u as [name [|m markers]]; cbn [snd fst length Nat.eqb]; [|done].
  cbn. f_equal. lia.
Qed.

Lemma layout_fold units off done :
  fold_left layoutStep units (off, done)
  = (off + Spec.offsetBefore units (length units),
     done ++ imap (fun k u => (fst u, map (shift (off + Spec.offsetBefore units k)) (snd u)))
                  units).
Proof.
  unfold Spec.offsetBefore. revert off done.
  induction units as [|u units IH]; intros off done.
  - cbn. by rewrite Z.add_0_r, app_nil_r.
  - cbn [fold_left]. rewrite layoutStep_uniform. cbn [fst snd]. rewrite IH.
    rewrite imap_cons. cbn [length firstn map]. unfold Spec.sumZ. cbn [foldr].
    rewrite <- app_assoc. cbn [app]. f_equal; [lia|].
    apply (f_equal (app done)). f_equal.
    + by rewrite Z.add_0_r.
    + apply imap_ext. intros k x _. cbn. do 3 f_equal. lia.
Qed.

End Merger.

Section MergerTheorems.
Import Profiler.

Lemma sumZ_app (l1 l2 : list Z) : Spec.sumZ (l1 ++ l2) = Spec.sumZ l1 + Spec.sumZ l2.
Proof. unfold Spec.sumZ. induction l1 as [|x l1 IH]; cbn; lia. Qed.

Lemma offsetBefore_S units k (u : string * list SourceMarker) :
  units !! k = Some u ->
  Spec.offsetBefore units (S k) = Spec.offsetBefore units k + maxEndTime (snd u).
Proof.
  intros Hk. unfold Spec.offsetBefore. rewrite (take_S_r _ _ _ Hk), map_app, sumZ_app.
  unfold Spec.sumZ. cbn. lia.
Qed.

Lemma layout_lookup units k (u : string * list SourceMarker) :
  units !! k = Some u ->
  snd (layout units) !! k
  = Some (fst u, map (shift (Spec.offsetBefore units k)) (snd u)).
Proof.
  intros Hk. unfold layout. rewrite layout_fold. cbn [snd app].
  rewrite list_lookup_imap, Hk. cbn. by rewrite Z.add_0_l.
Qed.

(** What the merger does for units that do not end before zero: it
    visits the units in input order; the unit at position [k] has the
    start and end of each of its markers shifted by the running offset
    accumulated before it, the offset starts at 0, stays as it is
    across a unit without markers (which is left untouched) and
    advances by the maximum end timestamp of a unit with markers; with a
    first unit of maximum end 500 the second unit is shifted by 500. *)
Lemma merger_running_offset :
  (forall units : list (string * list SourceMarker),
     (forall u m, u ∈ units -> m ∈ snd u -> 0 <= endTime m) ->
     Spec.offsetBefore units 0 = 0 /\
     fst (layout units) = Spec.offsetBefore units (length units) /\
     forall k u, units !! k = Some u ->
       snd (layout units) !! k
       = Some (fst u, map (shift (Spec.offsetBefore units k)) (snd u)) /\
       (forall m, startTime (shift (Spec.offsetBefore units k) m)
                  = startTime m + Spec.offsetBefore units k /\
                  endTime (shift (Spec.offsetBefore units k) m)
                  = endTime m + Spec.offsetBefore units k) /\
       (snd u = [] ->
          snd (layout units) !! k = Some u /\
          Spec.offsetBefore units (S k) = Spec.offsetBefore units k) /\
       (snd u <> [] ->
          exists mx, Spec.isMaxEnd (snd u) mx /\
            Spec.offsetBefore units (S k) = Spec.offsetBefore units k + mx))
  /\
  (forall nameA A nameB B,
     Spec.isMaxEnd A 500 ->
     snd (layout [(nameA, A); (nameB, B)]) !! 1%nat = Some (nameB, map (shift 500) B)).
Proof.
  split.
  - intros units Hpos. split_and!.
    + done.
    + unfold layout. rewrite layout_fold. cbn. lia.
    + intros k u Hk. split_and!.
      * by apply layout_lookup.
      * intros m. done.
      * intros Hempty. rewrite (layout_lookup _ _ _ Hk), (offsetBefore_S _ _ _ Hk), Hempty.
        split; [|cbn; lia]. destruct u as [name markers]. cbn in *. by subst.
      * intros Hne. exists (maxEndTime (snd u)). split; [|by apply offsetBefore_S].
        apply maxEndTime_isMaxEnd; [done|]. intros m Hm. apply (Hpos u m); [|done].
        apply list_elem_of_lookup. eauto.
  - intros nameA A nameB B Hmax.
    rewrite (layout_lookup _ 1 (nameB, B)) by done.
    rewrite (offsetBefore_S _ 0 (nameA, A)) by done. cbn [fst snd].
    rewrite (isMaxEnd_maxEndTime A 500) by (done || lia). done.
Qed.

Lemma merger_running_offset_example :
  let a := mkMarker "a.h" 0 500 500 ["a.h"] None in
  let b := mkMarker "b.h" 0 40 40 ["b.h"] None in
  let units := [("A", [a]); ("empty", []); ("B", [b])] in
  (forall u m, u ∈ units -> m ∈ snd u -> 0 <= endTime m) /\
  fst (layout units) = Spec.offsetBefore units 3.
Proof.
  cbv zeta.
  assert (H : forall u m,
             u ∈ [("A", [mkMarker "a.h" 0 500 500 ["a.h"] None]); ("empty", []);
                  ("B", [mkMarker "b.h" 0 40 40 ["b.h"] None])] ->
             m ∈ snd u -> 0 <= endTime m).
  { intros u m Hu Hm. repeat (apply elem_of_cons in Hu as [->|Hu]);
      try (by apply elem_of_nil in Hu); cbn in Hm;
      repeat (apply elem_of_cons in Hm as [->|Hm]);
      try (by apply elem_of_nil in Hm); cbn; lia. }
  split; [exact H|].
  exact (proj1 (proj2 (proj1 merger_running_offset _ H))).
Defined.

(** C6: the running offset does not advance by the maximum end
    timestamp of a unit that ends before zero. The scan for the maximum
    ("max endTime across all its markers") starts from 0 and so never
    gives less than 0. With a first unit whose only marker spans
    [-100,-50], the maximum end is -50 but the offset stays at 0: the
    second unit, over [-80,-60], is not shifted at all and comes to lie
    inside the span of the first, where the units were to be laid out
    one after the other. *)
Theorem C6_negative_end_offset_stays :
  let A := extractSourceMarkers Scenario.beforeZero in
  let B := extractSourceMarkers Scenario.beforeZeroInner in
  let merged := snd (layout [("A", A); ("B", B)]) in
  map (fun m => (startTime m, endTime m)) A = [(-100, -50)] /\
  map (fun m => (startTime m, endTime m)) B = [(-80, -60)] /\
  Spec.isMaxEnd A (-50) /\
  maxEndTime A = 0 /\
  fst (layout [("A", A)]) = 0 /\
  merged !! 1%nat = Some ("B", B) /\
  merged !! 1%nat <> Some ("B", map (shift (-50)) B) /\
  map (fun m => (startTime m, endTime m)) (mergedMarkers [("A", A); ("B", B)])
  = [(-100, -50); (-80, -60)].
Proof.
  cbv zeta.
  assert (HA : extractSourceMarkers Scenario.beforeZero
               = [mkMarker "a.h" (-100) (-50) 50 ["a.h"] None])
    by (vm_compute; reflexivity).
  assert (HB : extractSourceMarkers Scenario.beforeZeroInner
               = [mkMarker "b.h" (-80) (-60) 20 ["b.h"] None])
    by (vm_compute; reflexivity).
  rewrite HA, HB. split_and!; try (by vm_compute).
  - split.
    + eexists. split; [apply list_elem_of_here|done].
    + intros m ->%list_elem_of_singleton. cbn. lia.
Qed.

End MergerTheorems.

(** ** Delta-encoded start times *)

Section StartTimes.
Import Dashboard.

Lemma startTimes_fold ids (l : list Include) a :
  startTimes (fold_left (encodeStep ids) l a)
  = startTimes a
    ++ Spec.deltas (prevStartTime a) (map (fun inc => Js.roundDiv1000 (startTime inc)) l).
Proof.
  revert a. induction l as [|inc l IH]; intros a; cbn.
  - by rewrite app_nil_r.
  - rewrite IH. cbn. by rewrite <- app_assoc.
Qed.

Lemma cumulative_deltas prev (l : list Z) : cumulative prev (Spec.deltas prev l) = l.
Proof.
  revert prev. induction l as [|x l IH]; intros prev; cbn; [done|].
  replace (prev + (x - prev)) with x by lia. by rewrite IH.
Qed.

(** [roundDiv1000 x] is the integer nearest to [x / 1000], the upper
    one on a tie. *)
Lemma roundDiv1000_nearest x :
  -500 < 1000 * Js.roundDiv1000 x - x <= 500.
Proof.
  unfold Js.roundDiv1000.
  pose proof (Z.div_mod (x + 500) 1000 ltac:(lia)).
  pose proof (Z.mod_pos_bound (x + 500) 1000 ltac:(lia)). lia.
Qed.

(** The claim of C7 read in trace units fails: starts at 100, 250 and
    400 are encoded as [0; 0; 0], and the running sum gives back
    [0; 0; 0], neither [100; 150; 150] nor the start times. *)
Lemma C7_trace_units_counterexample :
  map (fun iv => Trace.startTime iv) (extractSourceMarkers Scenario.threeStarts)
  = [100; 250; 400] /\
  map startTimes (includes (main [("unit", Scenario.threeStarts)])) = [[0; 0; 0]] /\
  ~ (map startTimes (includes (main [("unit", Scenario.threeStarts)]))
     = [[100; 150; 150]]) /\
  ~ (map (fun a => cumulative 0 (startTimes a))
         (includes (main [("unit", Scenario.threeStarts)]))
     = [[100; 250; 400]]).
Proof. split_and!; [by vm_compute..| |]; vm_compute; discriminate. Qed.

(** C7, amended: the [startTimes] array of a unit holds, for each
    include in order, the start timestamp rounded to the nearest whole
    millisecond (not truncated) minus the rounded start of the include
    before it, the first one minus zero; the running cumulative sum of
    the array gives back exactly the rounded millisecond start times;
    and starts at 100000, 250000 and 400000 trace units (100, 250 and
    400 ms) are encoded as [100; 150; 150]. *)
Theorem C7_rounded_delta_startTimes :
  (forall (ids : gmap string nat) (incs : list Include),
     startTimes (encodeUnit ids incs)
     = Spec.deltas 0 (map (fun inc => Js.roundDiv1000 (startTime inc)) incs) /\
     cumulative 0 (startTimes (encodeUnit ids incs))
     = map (fun inc => Js.roundDiv1000 (startTime inc)) incs) /\
  (forall x, -500 < 1000 * Js.roundDiv1000 x - x <= 500) /\
  (Js.roundDiv1000 1500 = 2 /\ Js.truncDiv1000 1500 = 1) /\
  map startTimes (includes (main [("unit", Scenario.threeStartsMs)]))
  = [[100; 150; 150]] /\
  map (fun a => cumulative 0 (startTimes a))
      (includes (main [("unit", Scenario.threeStartsMs)]))
  = [[100; 250; 400]].
Proof.
  split_and!; try (by vm_compute).
  - intros ids incs. unfold encodeUnit. rewrite startTimes_fold.
    cbn [startTimes app prevStartTime]. split; [done|]. apply cumulative_deltas.
  - apply roundDiv1000_nearest.
Qed.

End StartTimes.

(** ** The file dictionary *)

Section Dictionary.
Import Dashboard.
Implicit Types (m : list (string * Z)) (f k : string).

Lemma mapGet_mapSet m k v k' :
  mapGet (mapSet m k v) k' = if String.eqb k k' then Some v else mapGet m k'.
Proof.
  induction m as [|[k0 v0] m IH]; cbn.
  - destruct (String.eqb_spec k k'); done.
  - destruct (String.eqb_spec k0 k) as [->|Hne]; cbn.
    + destruct (String.eqb_spec k k'); done.
    + rewrite IH. destruct (String.eqb_spec k0 k') as [->|Hne'];
        destruct (String.eqb_spec k k'); congruence.
Qed.

Lemma mapSet_keys m k v f :
  f ∈ map fst (mapSet m k v) <-> f = k \/ f ∈ map fst m.
Proof.
  induction m as [|[k0 v0] m IH]; cbn.
  - rewrite list_elem_of_singleton. split; [auto|]. intros [?|H]; [done|].
    by apply elem_of_nil in H.
  - destruct (String.eqb_spec k0 k) as [->|Hne]; cbn; rewrite !elem_of_cons.
    + tauto.
    + rewrite IH. tauto.
Qed.

Lemma mapSet_NoDup m k v : NoDup (map fst m) -> NoDup (map fst (mapSet m k v)).
Proof.
  induction m as [|[k0 v0] m IH]; cbn; intros Hnd.
  - apply NoDup_singleton.
  - apply NoDup_cons in Hnd as [Hk0 Hnd].
    destruct (String.eqb_spec k0 k) as [->|Hne]; cbn; apply NoDup_cons; [done|].
    split; [|by apply IH]. rewrite mapSet_keys. intros [?|?]; done.
Qed.

Lemma mapGet_elem m k v : NoDup (map fst m) -> (k, v) ∈ m -> mapGet m k = Some v.
Proof.
  induction m as [|[k0 v0] m IH]; cbn; intros Hnd Hin; [by apply elem_of_nil in Hin|].
  apply NoDup_cons in Hnd as [Hk0 Hnd].
  apply elem_of_cons in Hin as [[= <- <-]|Hin].
  - by rewrite String.eqb_refl.
  - destruct (String.eqb_spec k0 k) as [->|Hne]; [|by apply IH].
    exfalso. apply Hk0. apply list_elem_of_In, in_map_iff. exists (k, v).
    split; [done|]. by apply list_elem_of_In.
Qed.

Lemma usageCount_bump m g f :
  usageCount (bump m g) f = usageCount m f + (if String.eqb g f then 1 else 0).
Proof.
  unfold bump. unfold usageCount at 1. rewrite mapGet_mapSet.
  destruct (String.eqb_spec g f) as [->|Hne]; cbn [default from_option id];
    unfold usageCount; lia.
Qed.

Lemma countInclude_keys m inc f :
  f ∈ map fst (countInclude m inc) <->
  f ∈ map fst m \/ file inc = f \/
  (Js.truthy (parentFile inc) = true /\ default "" (parentFile inc) = f).
Proof.
  unfold countInclude. destruct (Js.truthy (parentFile inc)); unfold bump;
    rewrite ?mapSet_keys; intuition congruence.
Qed.

Lemma countInclude_NoDup m inc :
  NoDup (map fst m) -> NoDup (map fst (countInclude m inc)).
Proof.
  intros Hnd. unfold countInclude, bump.
  destruct (Js.truthy (parentFile inc)); by repeat apply mapSet_NoDup.
Qed.

Lemma usageCount_countInclude m inc f :
  usageCount (countInclude m inc) f = usageCount m f + Spec.occurrences f [inc].
Proof.
  unfold countInclude, Spec.occurrences, Spec.sumZ. cbn.
  destruct (Js.truthy (parentFile inc)); cbn; rewrite ?usageCount_bump; lia.
Qed.

Lemma occurrences_cons f inc incs :
  Spec.occurrences f (inc :: incs) = Spec.occurrences f [inc] + Spec.occurrences f incs.
Proof. unfold Spec.occurrences, Spec.sumZ. cbn. lia. Qed.

Lemma count_fold (incs : list Include) m :
  (NoDup (map fst m) -> NoDup (map fst (fold_left countInclude incs m))) /\
  (forall f, f ∈ map fst (fold_left countInclude incs m) <->
             f ∈ map fst m \/ exists inc, inc ∈ incs /\
               (file inc = f \/
                (Js.truthy (parentFile inc) = true /\ default "" (parentFile inc) = f))) /\
  (forall f, usageCount (fold_left countInclude incs m) f
             = usageCount m f + Spec.occurrences f incs).
Proof.
  revert m. induction incs as [|inc incs IH]; intros m; cbn [fold_left].
  - split_and!; [done| |].
    + intros f. split; [auto|]. intros [?|(inc & Hin & _)]; [done|].
      by apply elem_of_nil in Hin.
    + intros f. unfold Spec.occurrences, Spec.sumZ. cbn. lia.
  - destruct (IH (countInclude m inc)) as (Hnd & Hkeys & Hcount). split_and!.
    + intros H. by apply Hnd, countInclude_NoDup.
    + intros f. rewrite Hkeys, countInclude_keys. split.
      * intros [[?|Hinc]|(inc' & Hin & H')]; [by left| |].
        -- right. exists inc. split; [apply list_elem_of_here|done].
        -- right. exists inc'. split; [by apply list_elem_of_further|done].
      * intros [?|(inc' & [->|Hin]%elem_of_cons & H')]; [by left; left| |].
        -- left. by right.
        -- right. by exists inc'.
    + intros f. rewrite Hcount, usageCount_countInclude, (occurrences_cons f inc incs). lia.
Qed.

End Dictionary.

Section DictionaryTheorems.
Import Dashboard.

Lemma collect_fold (inputs : list (string * list Trace.RawEvent)) st :
  fold_left processFile inputs st
  = (fst st ++ Spec.unitsOf inputs,
     fold_left countInclude (concat (map snd (Spec.unitsOf inputs))) (snd st)).
Proof.
  revert st. induction inputs as [|input inputs IH]; intros st; cbn [fold_left].
  - cbn. rewrite app_nil_r. by destruct st.
  - rewrite IH. unfold processFile, extractSourceMarkers.
    cbn [Spec.unitsOf flat_map].
    destruct (Trace.matchIntervals (snd input)) as [|iv ivs] eqn:Hm; cbn [length Nat.eqb].
    + done.
    + cbn [fst snd app map concat]. rewrite <- app_assoc, fold_left_app. done.
Qed.

Lemma collect_eq (inputs : list (string * list Trace.RawEvent)) :
  collect inputs
  = (Spec.unitsOf inputs,
     fold_left countInclude (concat (map snd (Spec.unitsOf inputs))) []).
Proof. unfold collect. by rewrite collect_fold. Qed.

(** The includes of a unit are those of [buildIncludeHierarchy], one
    per interval of the unit. *)
Lemma unitsOf_elem (inputs : list (string * list Trace.RawEvent)) cu inc :
  cu ∈ Spec.unitsOf inputs -> inc ∈ snd cu ->
  exists intervals i interval,
    (forall inc', inc' ∈ buildIncludeHierarchy intervals -> inc' ∈ snd cu) /\
    intervals !! i = Some interval /\ inc = includeOf intervals i interval.
Proof.
  unfold Spec.unitsOf. rewrite list_elem_of_In, in_flat_map.
  intros (input & _ & Hcu) Hinc.
  destruct (Trace.matchIntervals (snd input)) as [|iv ivs] eqn:Hm; [done|].
  destruct Hcu as [<-|[]]. cbn [snd] in *. exists (iv :: ivs).
  rewrite sort_Permutation in Hinc. unfold buildIncludeHierarchy in Hinc.
  apply elem_of_lookup_imap in Hinc as (i & interval & -> & Hi).
  exists i, interval. split_and!; [|done..].
  intros inc' Hinc'. by rewrite sort_Permutation.
Qed.

Lemma fileToId_snoc (l : list string) x :
  fileToId (l ++ [x]) = <[x := length l]> (fileToId l).
Proof.
  unfold fileToId, Js.entries. rewrite imap_app, fold_left_app. cbn.
  by rewrite Nat.add_0_r.
Qed.

(** The id of a file is its position in the dictionary. *)
Lemma fileToId_lookup (l : list string) i f :
  NoDup l -> l !! i = Some f -> fileToId l !! f = Some i.
Proof.
  revert i. induction l as [|x l IH] using rev_ind; intros i Hnd Hi; [done|].
  rewrite fileToId_snoc. apply NoDup_app in Hnd as (Hnd & Hx & _).
  destruct (decide (i < length l)%nat) as [Hlt|Hge].
  - rewrite lookup_app_l in Hi by done.
    rewrite lookup_insert_ne; [by apply IH|].
    intros ->. apply (Hx f); [|apply list_elem_of_here].
    apply list_elem_of_lookup. eauto.
  - rewrite lookup_app_r in Hi by lia.
    destruct (i - length l)%nat as [|n] eqn:Hn; [|done].
    cbn in Hi. injection Hi as ->. rewrite lookup_insert_eq. f_equal. lia.
Qed.

(** The includes of a run are those of the intervals of its traces. *)
Lemma unitsOf_includes (inputs : list (string * list Trace.RawEvent)) inc :
  inc ∈ concat (map snd (Spec.unitsOf inputs)) <->
  exists input i interval,
    input ∈ inputs /\
    Trace.matchIntervals (snd input) !! i = Some interval /\
    inc = includeOf (Trace.matchIntervals (snd input)) i interval.
Proof.
  rewrite list_elem_of_In, in_concat. split.
  - intros (incs & (cu & <- & Hcu)%in_map_iff & Hinc). unfold Spec.unitsOf in Hcu.
    apply in_flat_map in Hcu as (input & Hinput & Hcu). exists input.
    destruct (Trace.matchIntervals (snd input)) as [|iv ivs] eqn:Hm; [done|].
    destruct Hcu as [<-|[]]. cbn [snd] in Hinc.
    apply list_elem_of_In in Hinc. rewrite sort_Permutation in Hinc.
    unfold buildIncludeHierarchy in Hinc.
    apply elem_of_lookup_imap in Hinc as (i & interval & -> & Hi).
    exists i, interval. split_and!; [by apply list_elem_of_In|done..].
  - intros (input & i & interval & Hinput & Hi & ->).
    set (intervals := Trace.matchIntervals (snd input)) in *.
    exists (Js.sort (fun a b => startTime a - startTime b) (buildIncludeHierarchy intervals)).
    split.
    + apply in_map_iff.
      exists (fst input,
              Js.sort (fun a b => startTime a - startTime b)
                      (buildIncludeHierarchy intervals)).
      split; [done|]. unfold Spec.unitsOf. apply in_flat_map. exists input.
      split; [by apply list_elem_of_In|]. fold intervals.
      destruct intervals as [|iv ivs]; [done|]. by left.
    + apply list_elem_of_In. rewrite sort_Permutation. unfold buildIncludeHierarchy.
      apply elem_of_lookup_imap. by exists i, interval.
Qed.

(** C8: the file dictionary of a dashboard run lists, each once, exactly
    the file paths that occur in the traces of the run as the file of
    an interval or as the file of the nearest parent of an interval;
    the usage count of a file is the number of those occurrences, and
    the counts do not increase along the dictionary, where the id of a
    file is its position. For an outer include with one inner include
    the dictionary is the outer file, used twice, then the inner
    one. *)
Theorem C8_file_dictionary (inputs : list (string * list Trace.RawEvent)) :
  let dictionary := files (main inputs) in
  let includes := concat (map snd (Spec.unitsOf inputs)) in
  NoDup dictionary /\
  (forall i f, dictionary !! i = Some f -> fileToId dictionary !! f = Some i) /\
  (forall f, f ∈ dictionary <->
             exists input i interval,
               input ∈ inputs /\
               Trace.matchIntervals (snd input) !! i = Some interval /\
               (Trace.file interval = f \/
                exists p parent,
                  immediateParent (Trace.matchIntervals (snd input)) i interval
                  = Some (p, parent) /\
                  Trace.file parent = f)) /\
  (forall f, f ∈ dictionary <->
             exists inc, inc ∈ includes /\ (file inc = f \/ parentFile inc = Some f)) /\
  (forall f, usageCount (snd (collect inputs)) f = Spec.occurrences f includes) /\
  (forall i j f g, (i <= j)%nat ->
     dictionary !! i = Some f -> dictionary !! j = Some g ->
     Spec.occurrences g includes <= Spec.occurrences f includes) /\
  files (main [("unit", Scenario.nested)]) = ["outer.h"; "inner.h"].
Proof.
  cbv zeta. split_and!; [..|by vm_compute];
    unfold main; rewrite collect_eq; cbn [fst snd files];
    set (incs := concat (map snd (Spec.unitsOf inputs)));
    set (usage := fold_left countInclude incs []);
    destruct (count_fold incs []) as (Hnd & Hkeys & Hcount);
    fold usage in Hnd, Hkeys, Hcount; specialize (Hnd (NoDup_nil_2));
    set (cmp := fun a b : string * Z => snd b - snd a);
    assert (Hperm : Js.sort cmp usage ≡ₚ usage) by apply sort_Permutation;
    unfold filesArray; fold cmp;
    assert (Hdict : NoDup (map fst (Js.sort cmp usage)))
      by (change (map fst (Js.sort cmp usage)) with (fst <$> Js.sort cmp usage);
          by rewrite Hperm);
    assert (Hmem : forall f, f ∈ map fst (Js.sort cmp usage) <->
              exists inc, inc ∈ incs /\
                (file inc = f \/
                 (Js.truthy (parentFile inc) = true /\ default "" (parentFile inc) = f)))
      by (intros f;
          change (map fst (Js.sort cmp usage)) with (fst <$> Js.sort cmp usage);
          rewrite Hperm; change (fst <$> usage) with (map fst usage);
          rewrite Hkeys; split;
          [intros [Hnil|H]; [by apply elem_of_nil in Hnil|done]|by right]).
  - done.
  - intros i f. by apply fileToId_lookup.
  - intros f. rewrite Hmem. split.
    + intros (inc & (input & i & interval & Hinput & Hi & ->)%unitsOf_includes & Hf).
      exists input, i, interval. split_and!; [done..|].
      destruct Hf as [Hf|[Ht Hf]]; [by left|right]. cbn in Ht, Hf.
      destruct (immediateParent (Trace.matchIntervals (snd input)) i interval)
        as [[p parent]|]; cbn in Ht, Hf.
      * by exists p, parent.
      * done.
    + intros (input & i & interval & Hinput & Hi & Hf).
      destruct Hf as [Hf|(p & parent & Hp & Hf)].
      * exists (includeOf (Trace.matchIntervals (snd input)) i interval).
        split; [|by left]. apply unitsOf_includes. by exists input, i, interval.
      * apply immediateParent_Some in Hp as (Hlk & _); [|done].
        exists (includeOf (Trace.matchIntervals (snd input)) p parent).
        split; [|by left]. apply unitsOf_includes. by exists input, p, parent.
  - intros f. rewrite Hmem. split.
    + intros (inc & Hinc & Hf). exists inc. split; [done|].
      destruct Hf as [?|[Ht Hd]]; [by left|right].
      destruct (parentFile inc); [by cbn in Hd; subst|done].
    + intros (inc & Hinc & [Hf|Hf]); [exists inc; split; [done|by left]|].
      apply unitsOf_includes in Hinc as (input & i & interval & Hinput & Hi & ->).
      cbn in Hf.
      destruct (immediateParent (Trace.matchIntervals (snd input)) i interval)
        as [[p parent]|] eqn:Hp; [|done].
      cbn in Hf. injection Hf as <-.
      apply immediateParent_Some in Hp as (Hlk & _); [|done].
      exists (includeOf (Trace.matchIntervals (snd input)) p parent).
      split; [|by left]. apply unitsOf_includes. by exists input, p, parent.
  - intros f. rewrite Hcount. unfold usageCount. cbn. lia.
  - intros i j f g Hij Hi Hj.
    rewrite list_lookup_fmap in Hi, Hj.
    destruct (Js.sort cmp usage !! i) as [[f' cf]|] eqn:Hei; [|done].
    destruct (Js.sort cmp usage !! j) as [[g' cg]|] eqn:Hej; [|done].
    cbn in Hi, Hj. simplify_eq.
    assert (Hget : forall k h c, Js.sort cmp usage !! k = Some (h, c) ->
                                 Spec.occurrences h incs = c).
    { intros k h c Hk.
      assert (usageCount usage h = c) as <-.
      { unfold usageCount. rewrite (mapGet_elem usage h c); [done..|].
        rewrite <- Hperm. apply list_elem_of_lookup. eauto. }
      rewrite Hcount. unfold usageCount. cbn. lia. }
    rewrite (Hget _ _ _ Hei), (Hget _ _ _ Hej).
    destruct (decide (i = j)) as [->|Hne]; [by simplify_eq|].
    pose proof (sort_sorted (fun a : string * Z => - snd a) cmp
                  ltac:(intros a b; unfold cmp; lia) usage) as Hsorted.
    pose proof (StronglySorted_lookup _ _ i j _ _ Hsorted ltac:(lia) Hei Hej) as Hle.
    cbn in Hle. lia.
Qed.

End DictionaryTheorems.

(** ** The deduplicated tables *)

Section Tables.
Import Profiler.
Implicit Types (t : Tables) (r : Request) (F Fr : gset string)
  (St : gset (nat * option nat)).

Lemma tablesInv_initial : Spec.tablesInv initialTables ∅ ∅ ∅.
Proof.
  split_and!.
  - intros s i. cbn. intros [<- <-]%lookup_singleton_Some. done.
  - split_and!; cbn; try done; intros; lia.
  - split_and!; cbn; try done; intros; lia.
  - split_and!; done.
Qed.

Lemma tablesInv_mono t F Fr St F' Fr' St' :
  F ⊆ F' -> Fr ⊆ Fr' -> St ⊆ St' ->
  Spec.tablesInv t F Fr St -> Spec.tablesInv t F' Fr' St'.
Proof.
  intros HF HFr HSt (Hs & (F1 & F2 & F3 & F4 & F5) & (R1 & R2 & R3 & R4 & R5)
                     & (S1 & S2 & S3)).
  split; [exact Hs|]. split; [|split].
  - split_and!; [exact F1|exact F2|by etrans|exact F4|exact F5].
  - split_and!; [exact R1|exact R2|by etrans|exact R4|exact R5].
  - split_and!; [exact S1|exact S2|].
    intros i f p Hrow. destruct (S3 i f p Hrow). split; [by apply HSt|done].
Qed.

(** [addString] interns a string and touches the string table only. *)
Lemma addString_spec str t :
  Spec.stringsInv t ->
  let index := fst (addString str t) in
  let t' := snd (addString str t) in
  Spec.stringsInv t' /\
  stringMap t' !! str = Some index /\
  (forall s i, stringMap t !! s = Some i -> stringMap t' !! s = Some i) /\
  funcTable_name t' = funcTable_name t /\ funcTable_length t' = funcTable_length t /\
  funcCache t' = funcCache t /\ frameTable_func t' = frameTable_func t /\
  frameTable_length t' = frameTable_length t /\ frameCache t' = frameCache t /\
  stackTable_frame t' = stackTable_frame t /\ stackTable_prefix t' = stackTable_prefix t /\
  stackTable_length t' = stackTable_length t /\ stackCache t' = stackCache t.
Proof.
  intros Hs. unfold addString. destruct (stringMap t !! str) as [index|] eqn:Hstr; cbn.
  - split_and!; done.
  - split_and!; try done.
    + intros s i. cbn. destruct (decide (s = str)) as [->|Hne].
      * rewrite lookup_insert_eq. intros [= <-]. by rewrite list_lookup_middle.
      * rewrite lookup_insert_ne by done. intros Hi. apply Hs in Hi.
        rewrite lookup_app_l; [done|]. by eapply lookup_lt_Some.
    + by rewrite lookup_insert_eq.
    + intros s i Hi. rewrite lookup_insert_ne; [done|]. intros ->. congruence.
Qed.

Lemma getOrCreateFunc_spec name t F :
  Spec.stringsInv t -> Spec.funcInv t F -> name ∈ F ->
  let a := fst (getOrCreateFunc name t) in
  let t' := snd (getOrCreateFunc name t) in
  Spec.stringsInv t' /\ Spec.funcInv t' F /\
  funcCache t' !! name = Some a /\
  (forall n i, funcCache t !! n = Some i -> funcCache t' !! n = Some i) /\
  frameTable_func t' = frameTable_func t /\ frameTable_length t' = frameTable_length t /\
  frameCache t' = frameCache t /\
  stackTable_frame t' = stackTable_frame t /\ stackTable_prefix t' = stackTable_prefix t /\
  stackTable_length t' = stackTable_length t /\ stackCache t' = stackCache t.
Proof.
  intros Hs (F1 & F2 & F3 & F4 & F5) Hname. unfold getOrCreateFunc.
  destruct (funcCache t !! name) as [funcIndex|] eqn:Hc; cbn [fst snd].
  - split_and!; done.
  - unfold bind. pose proof (addString_spec name t Hs) as Hadd.
    destruct (addString name t) as [nameIndex t1]. cbn [fst snd] in Hadd.
    destruct Hadd as (Hs1 & Hidx & Hmono & E1 & E2 & E3 & E4 & E5 & E6 & E7 & E8 & E9 & E10).
    unfold pushFunc. cbn [fst snd]. split_and!; try done.
    + split_and!; cbn; rewrite ?E1, ?E2, ?E3.
      * rewrite length_app. cbn. lia.
      * rewrite map_size_insert_None by done. lia.
      * rewrite dom_insert_L. apply union_least; [by apply singleton_subseteq_l|done].
      * intros n i. destruct (decide (n = name)) as [->|Hne].
        -- rewrite lookup_insert_eq. intros [= <-]. exists nameIndex.
           split; [|done]. rewrite F1. by rewrite list_lookup_middle.
        -- rewrite lookup_insert_ne by done. intros Hn.
           destruct (F4 n i Hn) as (si & Hrow & Hsi). exists si.
           split; [|by apply Hmono]. rewrite lookup_app_l; [done|].
           by eapply lookup_lt_Some.
      * intros i Hi. destruct (decide (i = funcTable_length t)) as [->|Hne].
        -- exists name. by rewrite lookup_insert_eq.
        -- destruct (F5 i ltac:(lia)) as (n & Hn). exists n.
           rewrite lookup_insert_ne; [done|]. intros ->. congruence.
    + cbn. by rewrite E3, lookup_insert_eq.
    + intros n i Hn. cbn. rewrite E3, lookup_insert_ne; [done|]. intros ->. congruence.
Qed.

Lemma getOrCreateFrame_spec name t F Fr St :
  Spec.tablesInv t F Fr St -> name ∈ F -> name ∈ Fr ->
  let a := fst (getOrCreateFrame name t) in
  let t' := snd (getOrCreateFrame name t) in
  Spec.tablesInv t' F Fr St /\
  frameCache t' !! name = Some a /\
  (forall r b, Spec.cached t r = Some b -> Spec.cached t' r = Some b).
Proof.
  intros (Hs & HFn & (R1 & R2 & R3 & R4 & R5) & (S1 & S2 & S3)) HF HFr.
  unfold getOrCreateFrame.
  destruct (frameCache t !! name) as [frameIndex|] eqn:Hc; cbn [fst snd].
  - split_and!; done.
  - unfold bind. pose proof (getOrCreateFunc_spec name t F Hs HFn HF) as Hfn.
    destruct (getOrCreateFunc name t) as [funcIndex t1]. cbn [fst snd] in Hfn.
    destruct Hfn as (Hs1 & HFn1 & Hans & Hmono & E4 & E5 & E6 & E7 & E8 & E9 & E10).
    unfold pushFrame. cbn [fst snd]. split_and!.
    + split_and!; try done.
      * split_and!; cbn; rewrite ?E4, ?E5, ?E6.
        -- rewrite length_app. cbn. lia.
        -- rewrite map_size_insert_None by done. lia.
        -- rewrite dom_insert_L. apply union_least; [by apply singleton_subseteq_l|done].
        -- intros n i. destruct (decide (n = name)) as [->|Hne].
           ++ rewrite lookup_insert_eq. intros [= <-]. exists funcIndex.
              split; [|done]. rewrite R1. by rewrite list_lookup_middle.
           ++ rewrite lookup_insert_ne by done. intros Hn.
              destruct (R4 n i Hn) as (fi & Hrow & Hfi). exists fi.
              split; [|by apply Hmono]. rewrite lookup_app_l; [done|].
              by eapply lookup_lt_Some.
        -- intros i Hi. destruct (decide (i = frameTable_length t)) as [->|Hne].
           ++ exists name. by rewrite lookup_insert_eq.
           ++ destruct (R5 i ltac:(lia)) as (n & Hn). exists n.
              rewrite lookup_insert_ne; [done|]. intros ->. congruence.
      * unfold Spec.stackInv, Spec.stackRows. cbn. by rewrite E7, E8, E9, E10.
    + cbn. by rewrite E6, lookup_insert_eq.
    + intros [n|n|f p] b; cbn; rewrite ?E6, ?E10.
      * apply Hmono.
      * intros Hn. rewrite lookup_insert_ne; [done|]. intros ->. congruence.
      * done.
Qed.

Lemma stackRows_snoc t f p :
  length (stackTable_prefix t) = length (stackTable_frame t) ->
  zip (stackTable_frame t ++ [f]) (stackTable_prefix t ++ [p])
  = Spec.stackRows t ++ [(f, p)].
Proof. intros Hlen. unfold Spec.stackRows. by rewrite zip_with_app. Qed.

Lemma getOrCreateStack_spec f p t F Fr St :
  Spec.tablesInv t F Fr St -> (f, p) ∈ St ->
  let a := fst (getOrCreateStack f p t) in
  let t' := snd (getOrCreateStack f p t) in
  Spec.tablesInv t' F Fr St /\
  stackCache t' !! stackKey f p = Some a /\
  (forall r b, Spec.cached t r = Some b -> Spec.cached t' r = Some b).
Proof.
  intros (Hs & HFn & HFr & (S1 & S2 & S3)) HSt. unfold getOrCreateStack.
  destruct (stackCache t !! stackKey f p) as [stackIndex|] eqn:Hc; cbn [fst snd].
  - split_and!; done.
  - split_and!.
    + split_and!; try done. split_and!; cbn.
      * rewrite length_app. cbn. lia.
      * rewrite !length_app. cbn. lia.
      * unfold Spec.stackRows. cbn. rewrite stackRows_snoc by done.
        intros i f' p' Hrow.
        assert (Hlen : length (Spec.stackRows t) = stackTable_length t).
        { unfold Spec.stackRows. rewrite length_zip_with. lia. }
        destruct (decide (i < length (Spec.stackRows t))%nat) as [Hlt|Hge].
        -- rewrite lookup_app_l in Hrow by done.
           destruct (S3 i f' p' Hrow) as [Hin Hcache]. split; [done|].
           rewrite lookup_insert_ne; [done|]. intros Heq. rewrite Heq in Hc. congruence.
        -- rewrite lookup_app_r in Hrow by lia.
           destruct (i - length (Spec.stackRows t))%nat as [|n] eqn:Hn; [|done].
           cbn in Hrow. injection Hrow as <- <-. split; [done|].
           rewrite lookup_insert_eq. f_equal. lia.
    + cbn. by rewrite lookup_insert_eq.
    + intros [n|n|f' p'] b; cbn; try done.
      intros Hn. rewrite lookup_insert_ne; [done|]. intros Heq. rewrite Heq in Hc. congruence.
Qed.

(** Two names with the same function index are the same name. *)
Lemma funcCache_inj t F n n' i :
  Spec.stringsInv t -> Spec.funcInv t F ->
  funcCache t !! n = Some i -> funcCache t !! n' = Some i -> n = n'.
Proof.
  intros Hs (_ & _ & _ & F4 & _) Hn Hn'.
  destruct (F4 n i Hn) as (si & Hrow & Hsi). destruct (F4 n' i Hn') as (si' & Hrow' & Hsi').
  simplify_eq. apply Hs in Hsi, Hsi'. congruence.
Qed.

Lemma funcTable_NoDup t F :
  Spec.stringsInv t -> Spec.funcInv t F -> NoDup (funcTable_name t).
Proof.
  intros Hs HFn. pose proof HFn as (F1 & _ & _ & F4 & F5). apply NoDup_alt.
  intros i j si Hi Hj.
  destruct (F5 i) as (n & Hn); [rewrite F1; by eapply lookup_lt_Some|].
  destruct (F5 j) as (n' & Hn'); [rewrite F1; by eapply lookup_lt_Some|].
  destruct (F4 n i Hn) as (s1 & Hr1 & Hs1). destruct (F4 n' j Hn') as (s2 & Hr2 & Hs2).
  simplify_eq. apply Hs in Hs1, Hs2. congruence.
Qed.

Lemma frameTable_NoDup t F Fr :
  Spec.stringsInv t -> Spec.funcInv t F -> Spec.frameInv t Fr -> NoDup (frameTable_func t).
Proof.
  intros Hs HFn (R1 & _ & _ & R4 & R5). apply NoDup_alt.
  intros i j fi Hi Hj.
  destruct (R5 i) as (n & Hn); [rewrite R1; by eapply lookup_lt_Some|].
  destruct (R5 j) as (n' & Hn'); [rewrite R1; by eapply lookup_lt_Some|].
  destruct (R4 n i Hn) as (f1 & Hr1 & Hf1). destruct (R4 n' j Hn') as (f2 & Hr2 & Hf2).
  simplify_eq. pose proof (funcCache_inj t F n n' fi Hs HFn Hf1 Hf2) as ->. congruence.
Qed.

Lemma stackRows_NoDup t St : Spec.stackInv t St -> NoDup (Spec.stackRows t).
Proof.
  intros (_ & _ & Hrows). apply NoDup_alt. intros i j [f p] Hi Hj.
  destruct (Hrows i f p Hi) as [_ Hci]. destruct (Hrows j f p Hj) as [_ Hcj]. congruence.
Qed.

End Tables.

Section TablesTheorems.
Import Profiler.
Implicit Types (t : Tables) (r : Request) (rs : list Request) (F Fr : gset string)
  (St : gset (nat * option nat)).

Lemma getOrCreateFunc_tables name t F Fr St :
  Spec.tablesInv t F Fr St -> name ∈ F ->
  Spec.tablesInv (snd (getOrCreateFunc name t)) F Fr St /\
  funcCache (snd (getOrCreateFunc name t)) !! name = Some (fst (getOrCreateFunc name t)) /\
  (forall r b, Spec.cached t r = Some b ->
               Spec.cached (snd (getOrCreateFunc name t)) r = Some b).
Proof.
  intros (Hs & HFn & (R1 & R2 & R3 & R4 & R5) & (S1 & S2 & S3)) HF.
  destruct (getOrCreateFunc_spec name t F Hs HFn HF)
    as (Hs1 & HFn1 & Hans & Hmono & E4 & E5 & E6 & E7 & E8 & E9 & E10).
  split_and!.
  - split; [exact Hs1|]. split; [exact HFn1|]. split.
    + unfold Spec.frameInv. rewrite E4, E5, E6. split_and!; [done..| |done].
      intros n i Hn. destruct (R4 n i Hn) as (fi & Hrow & Hfi). exists fi.
      split; [done|by apply Hmono].
    + unfold Spec.stackInv, Spec.stackRows. rewrite E7, E8, E9, E10. done.
  - done.
  - intros [n|n|f p] b; cbn; rewrite ?E6, ?E10; [apply Hmono|done..].
Qed.

Lemma serveAll_cons r rs t :
  serveAll (r :: rs) t
  = (fst (serve r t) :: fst (serveAll rs (snd (serve r t))),
     snd (serveAll rs (snd (serve r t)))).
Proof.
  cbn [serveAll]. unfold bind, ret. destruct (serve r t) as [a t1]. cbn [fst snd].
  by destruct (serveAll rs t1).
Qed.

Lemma serveAll_app_tables rs1 rs2 t :
  snd (serveAll (rs1 ++ rs2) t) = snd (serveAll rs2 (snd (serveAll rs1 t))).
Proof.
  revert t. induction rs1 as [|r rs1 IH]; intros t; [done|].
  cbn [app]. rewrite !serveAll_cons. cbn [snd]. apply IH.
Qed.

Lemma keys_cons r rs :
  Spec.funcKeys (r :: rs) = Spec.funcKeys [r] ∪ Spec.funcKeys rs /\
  Spec.frameKeys (r :: rs) = Spec.frameKeys [r] ∪ Spec.frameKeys rs /\
  Spec.stackKeys (r :: rs) = Spec.stackKeys [r] ∪ Spec.stackKeys rs.
Proof.
  unfold Spec.funcKeys, Spec.frameKeys, Spec.stackKeys. cbn [flat_map].
  rewrite !app_nil_r, !list_to_set_app_L. done.
Qed.

Lemma serve_spec r t F Fr St :
  Spec.tablesInv t F Fr St ->
  Spec.funcKeys [r] ⊆ F -> Spec.frameKeys [r] ⊆ Fr -> Spec.stackKeys [r] ⊆ St ->
  Spec.tablesInv (snd (serve r t)) F Fr St /\
  Spec.cached (snd (serve r t)) r = Some (fst (serve r t)) /\
  (forall r' b, Spec.cached t r' = Some b -> Spec.cached (snd (serve r t)) r' = Some b).
Proof.
  intros Hinv HF HFr HSt.
  unfold Spec.funcKeys, Spec.frameKeys, Spec.stackKeys in *.
  destruct r as [n|n|f p]; cbn [flat_map app serve Spec.cached] in *.
  - apply getOrCreateFunc_tables; [done|]. apply HF. set_solver.
  - apply getOrCreateFrame_spec; [done|apply HF; set_solver|apply HFr; set_solver].
  - apply getOrCreateStack_spec; [done|]. apply HSt. set_solver.
Qed.

(** A key that is in its cache is answered from the cache, and nothing
    changes. *)
Lemma serve_hit r t a : Spec.cached t r = Some a -> serve r t = (a, t).
Proof.
  destruct r as [n|n|f p]; cbn; intros Hc.
  - unfold getOrCreateFunc. by rewrite Hc.
  - unfold getOrCreateFrame. by rewrite Hc.
  - unfold getOrCreateStack. by rewrite Hc.
Qed.

Lemma serveAll_length rs t : length (fst (serveAll rs t)) = length rs.
Proof.
  revert t. induction rs as [|r rs IH]; intros t; [done|].
  rewrite serveAll_cons. cbn. by rewrite IH.
Qed.

Lemma keys_cons_subseteq r rs F Fr St :
  Spec.funcKeys (r :: rs) ⊆ F -> Spec.frameKeys (r :: rs) ⊆ Fr ->
  Spec.stackKeys (r :: rs) ⊆ St ->
  (Spec.funcKeys [r] ⊆ F /\ Spec.frameKeys [r] ⊆ Fr /\ Spec.stackKeys [r] ⊆ St) /\
  (Spec.funcKeys rs ⊆ F /\ Spec.frameKeys rs ⊆ Fr /\ Spec.stackKeys rs ⊆ St).
Proof.
  destruct (keys_cons r rs) as (-> & -> & ->). intros HF HFr HSt.
  split_and!; (etrans; [|eassumption]);
    (apply union_subseteq_l || apply union_subseteq_r).
Qed.

Lemma serveAll_inv rs t F Fr St :
  Spec.tablesInv t F Fr St ->
  Spec.funcKeys rs ⊆ F -> Spec.frameKeys rs ⊆ Fr -> Spec.stackKeys rs ⊆ St ->
  Spec.tablesInv (snd (serveAll rs t)) F Fr St.
Proof.
  revert t. induction rs as [|r rs IH]; intros t Hinv HF HFr HSt; [done|].
  destruct (keys_cons_subseteq r rs F Fr St HF HFr HSt)
    as ((A1 & A2 & A3) & (B1 & B2 & B3)).
  rewrite serveAll_cons. cbn [snd]. apply IH; [|done..].
  by apply serve_spec.
Qed.

(** Once a key is in its cache, every later request for it gets the
    cached index. *)
Lemma serveAll_cached rs t F Fr St r a j :
  Spec.tablesInv t F Fr St ->
  Spec.funcKeys rs ⊆ F -> Spec.frameKeys rs ⊆ Fr -> Spec.stackKeys rs ⊆ St ->
  Spec.cached t r = Some a ->
  rs !! j = Some r ->
  fst (serveAll rs t) !! j = Some a.
Proof.
  revert t j. induction rs as [|r0 rs IH]; intros t j Hinv HF HFr HSt Hc Hj; [done|].
  destruct (keys_cons_subseteq r0 rs F Fr St HF HFr HSt)
    as ((A1 & A2 & A3) & (B1 & B2 & B3)).
  rewrite serveAll_cons. cbn [fst].
  destruct (serve_spec r0 t F Fr St Hinv A1 A2 A3) as (Hinv1 & _ & Hmono).
  destruct j as [|j]; cbn in *.
  - injection Hj as ->. by rewrite (serve_hit r t a Hc).
  - apply (IH _ _ Hinv1); [done..|by apply Hmono|done].
Qed.

Lemma serveAll_same rs t F Fr St r i j :
  Spec.tablesInv t F Fr St ->
  Spec.funcKeys rs ⊆ F -> Spec.frameKeys rs ⊆ Fr -> Spec.stackKeys rs ⊆ St ->
  (i <= j)%nat -> rs !! i = Some r -> rs !! j = Some r ->
  exists a, fst (serveAll rs t) !! i = Some a /\ fst (serveAll rs t) !! j = Some a.
Proof.
  revert t i j. induction rs as [|r0 rs IH]; intros t i j Hinv HF HFr HSt Hij Hi Hj; [done|].
  destruct (keys_cons_subseteq r0 rs F Fr St HF HFr HSt)
    as ((A1 & A2 & A3) & (B1 & B2 & B3)).
  rewrite serveAll_cons. cbn [fst].
  destruct (serve_spec r0 t F Fr St Hinv A1 A2 A3) as (Hinv1 & Hans & Hmono).
  destruct i as [|i]; cbn in Hi.
  - injection Hi as ->. exists (fst (serve r t)). split; [done|].
    destruct j as [|j]; [done|]. cbn in *.
    by apply (serveAll_cached rs _ F Fr St r).
  - destruct j as [|j]; [lia|]. cbn in *.
    apply (IH _ i j Hinv1); [done..|lia|done|done].
Qed.

(** A run of [convertToProfiler] reaches its tables by a sequence of
    requests to the three helpers. *)
Lemma walkStack_requests (includeStack : list string) currentStack t :
  exists rs, snd (walkStack includeStack currentStack t) = snd (serveAll rs t).
Proof.
  revert currentStack t. induction includeStack as [|filePath rest IH];
    intros currentStack t.
  - by exists [].
  - cbn [walkStack]. unfold bind.
    destruct (getOrCreateFrame filePath t) as [frameIndex t1] eqn:E1.
    destruct (getOrCreateStack frameIndex currentStack t1) as [stackIndex t2] eqn:E2.
    destruct (IH (Some stackIndex) t2) as [rs Hrs].
    exists (GetFrame filePath :: GetStack frameIndex currentStack :: rs).
    rewrite !serveAll_cons. cbn [serve snd]. rewrite E1. cbn [snd]. rewrite E2.
    cbn [snd]. exact Hrs.
Qed.

Lemma processMarker_requests (marker : SourceMarker) t :
  exists rs, snd (processMarker marker t) = snd (serveAll rs t).
Proof.
  unfold processMarker, bind, ret.
  destruct (Js.truthy (compilationUnit marker)).
  - destruct (getOrCreateFrame _ t) as [frameIndex t1] eqn:E1.
    destruct (getOrCreateStack frameIndex None t1) as [stackIndex t2] eqn:E2.
    destruct (walkStack_requests (stack marker) (Some stackIndex) t2) as [rs Hrs].
    exists (GetFrame (default "" (compilationUnit marker))
              :: GetStack frameIndex None :: rs).
    rewrite !serveAll_cons. cbn [serve snd]. rewrite E1. cbn [snd]. rewrite E2.
    cbn [snd]. rewrite <- Hrs. by destruct (walkStack _ _ t2).
  - destruct (walkStack_requests (stack marker) None t) as [rs Hrs]. exists rs.
    rewrite <- Hrs. by destruct (walkStack _ _ t).
Qed.

Lemma processMarkers_requests (markers : list SourceMarker) t :
  exists rs, snd (processMarkers markers t) = snd (serveAll rs t).
Proof.
  revert t. induction markers as [|marker rest IH]; intros t.
  - by exists [].
  - cbn [processMarkers]. unfold bind, ret.
    destruct (processMarker_requests marker t) as [rs1 H1].
    destruct (processMarker marker t) as [s t1]. cbn [snd] in H1.
    destruct (IH t1) as [rs2 H2]. destruct (processMarkers rest t1) as [ss t2].
    cbn [snd] in *. exists (rs1 ++ rs2). by rewrite serveAll_app_tables, <- H1.
Qed.

(** C9: in a run of requests served from the initial tables, two
    requests for the same function name, the same frame name or the
    same (frame index, parent stack) pair get the same table index; the
    length of each of the function, frame and stack tables is at most
    the number of distinct keys requested from it, and no table has two
    equal rows; the tables of a run of [convertToProfiler] are those of
    such a run of requests. *)
Theorem C9_table_dedup (rs : list Request) :
  let answers := fst (serveAll rs initialTables) in
  let t := snd (serveAll rs initialTables) in
  length answers = length rs /\
  (forall i j r, rs !! i = Some r -> rs !! j = Some r ->
     is_Some (answers !! i) /\ answers !! i = answers !! j) /\
  (funcTable_length t = length (funcTable_name t) /\
   funcTable_length t <= size (Spec.funcKeys rs))%nat /\
  (frameTable_length t = length (frameTable_func t) /\
   frameTable_length t <= size (Spec.frameKeys rs))%nat /\
  (stackTable_length t = length (Spec.stackRows t) /\
   stackTable_length t <= size (Spec.stackKeys rs))%nat /\
  (NoDup (funcTable_name t) /\ NoDup (frameTable_func t) /\ NoDup (Spec.stackRows t)) /\
  forall markers : list SourceMarker,
    exists requests, snd (convertToProfiler markers) = snd (serveAll requests initialTables).
Proof.
  cbv zeta.
  assert (Hinit : Spec.tablesInv initialTables (Spec.funcKeys rs) (Spec.frameKeys rs)
                                 (Spec.stackKeys rs)).
  { eapply tablesInv_mono; [..|apply tablesInv_initial]; apply empty_subseteq. }
  pose proof (serveAll_inv rs _ _ _ _ Hinit ltac:(done) ltac:(done) ltac:(done)) as Hinv.
  destruct Hinv as (Hs & HFn & HFr & HSt).
  pose proof HFn as (F1 & F2 & F3 & _). pose proof HFr as (R1 & R2 & R3 & _).
  pose proof HSt as (S1 & S2 & S3).
  assert (Hlen : stackTable_length (snd (serveAll rs initialTables))
                 = length (Spec.stackRows (snd (serveAll rs initialTables)))).
  { unfold Spec.stackRows. rewrite length_zip_with. lia. }
  split; [apply serveAll_length|]. split.
  { intros i j r Hi Hj. destruct (decide (i <= j)%nat) as [Hij|Hij].
    - assert (exists a, fst (serveAll rs initialTables) !! i = Some a /\
                        fst (serveAll rs initialTables) !! j = Some a) as (a & -> & ->)
        by (by apply (serveAll_same rs _ _ _ _ r i j Hinit)).
      split; [by eexists|done].
    - assert (exists a, fst (serveAll rs initialTables) !! j = Some a /\
                        fst (serveAll rs initialTables) !! i = Some a) as (a & -> & ->)
        by (apply (serveAll_same rs _ _ _ _ r j i Hinit); done || lia).
      split; [by eexists|done]. }
  split; [split; [exact F1|rewrite F2, <- size_dom; by apply subseteq_size]|].
  split; [split; [exact R1|rewrite R2, <- size_dom; by apply subseteq_size]|].
  split.
  { split; [exact Hlen|].
    rewrite Hlen, <- (size_list_to_set (C := gset (nat * option nat)))
      by (by eapply stackRows_NoDup).
    apply subseteq_size. intros [f p] Hin. apply elem_of_list_to_set in Hin.
    apply list_elem_of_lookup in Hin as [i Hi]. by destruct (S3 i f p Hi). }
  split.
  { split; [by eapply funcTable_NoDup|].
    split; [by eapply frameTable_NoDup|by eapply stackRows_NoDup]. }
  intros markers. apply processMarkers_requests.
Qed.

End TablesTheorems.

(** ** Conservation of self-time *)

Section Sums.
Context {A : Type}.

Lemma sumZ_cons x (l : list Z) : Spec.sumZ (x :: l) = x + Spec.sumZ l.
Proof. done. Qed.

Lemma sumZ_map_sub (f g : A -> Z) (l : list A) :
  Spec.sumZ (map (fun x => f x - g x) l) = Spec.sumZ (map f l) - Spec.sumZ (map g l).
Proof. induction l as [|x l IH]; cbn [map]; rewrite ?sumZ_cons; [done|lia]. Qed.

Lemma sumZ_map_add (f g : A -> Z) (l : list A) :
  Spec.sumZ (map (fun x => f x + g x) l) = Spec.sumZ (map f l) + Spec.sumZ (map g l).
Proof. induction l as [|x l IH]; cbn [map]; rewrite ?sumZ_cons; [done|lia]. Qed.

Lemma sumZ_map_ext (f g : A -> Z) (l : list A) :
  (forall x, x ∈ l -> f x = g x) -> Spec.sumZ (map f l) = Spec.sumZ (map g l).
Proof.
  intros H. f_equal. apply map_ext_in. intros x Hx. by apply H, list_elem_of_In.
Qed.

Lemma sumZ_map_zero (f : A -> Z) (l : list A) :
  (forall x, x ∈ l -> f x = 0) -> Spec.sumZ (map f l) = 0.
Proof.
  induction l as [|x l IH]; intros H; cbn [map]; rewrite ?sumZ_cons; [done|].
  rewrite (H x (list_elem_of_here _ _)), IH; [done|].
  intros y Hy. by apply H, list_elem_of_further.
Qed.

(** A sum with a single term that is not zero. *)
Lemma sumZ_single (g : A -> Z) (l : list A) (x0 : A) :
  NoDup l -> x0 ∈ l -> (forall x, x ∈ l -> x <> x0 -> g x = 0) ->
  Spec.sumZ (map g l) = g x0.
Proof.
  induction l as [|x l IH]; intros Hnd Hin Hz; [by apply elem_of_nil in Hin|].
  apply NoDup_cons in Hnd as [Hx Hnd]. cbn [map]. rewrite sumZ_cons.
  apply elem_of_cons in Hin as [->|Hin].
  - rewrite sumZ_map_zero; [lia|]. intros y Hy. apply Hz; [by apply list_elem_of_further|].
    by intros ->.
  - rewrite IH; [|done|done|].
    + rewrite (Hz x); [lia|apply list_elem_of_here|]. by intros ->.
    + intros y Hy. apply Hz. by apply list_elem_of_further.
Qed.

End Sums.

(** Exchanging the two sums of a double sum. *)
Lemma sumZ_swap {A B} (h : A -> B -> Z) (l : list A) (k : list B) :
  Spec.sumZ (map (fun x => Spec.sumZ (map (fun y => h x y) k)) l)
  = Spec.sumZ (map (fun y => Spec.sumZ (map (fun x => h x y) l)) k).
Proof.
  induction l as [|x l IH]; cbn [map]; rewrite ?sumZ_cons.
  - change (Spec.sumZ []) with 0. symmetry. by apply sumZ_map_zero.
  - rewrite IH, <- sumZ_map_add. done.
Qed.

Section Conservation.
Import Trace.
Variable intervals : list Interval.
Hypothesis Hspan : Forall Spec.spanned intervals.
Hypothesis Hdistinct : Spec.distinctSpans intervals.
Hypothesis Hlaminar : Spec.laminar intervals.

(** The test under which the self-time loop of [p] adds the duration
    of [o]. *)
Local Abbreviation direct p o :=
  (negb (Nat.eqb (fst o) (fst p)) && contains (snd p) (snd o)
   && Profiler.isDirect intervals (fst p) (snd p) (fst o) (snd o)).

Lemma spanned_lookup i a : intervals !! i = Some a -> Spec.spanned a.
Proof.
  intros Hi. rewrite Forall_forall in Hspan. apply Hspan.
  apply list_elem_of_lookup. eauto.
Qed.

Lemma direct_spec (p o : nat * Interval) :
  p ∈ Js.entries intervals -> o ∈ Js.entries intervals ->
  (direct p o = true <-> Spec.directChild intervals (fst p) (fst o)).
Proof.
  destruct p as [i a], o as [j b]. intros Hp Ho. cbn [fst snd].
  pose proof Hp as Hi%entries_elem. pose proof Ho as Hj%entries_elem.
  apply list_elem_of_In in Ho.
  pose proof (contained_test intervals i a (j, b) Hi Ho) as Hc. cbn [fst snd] in Hc.
  unfold Spec.directChild. rewrite andb_true_iff, Hc. split.
  - intros [Hin Hd]. split; [done|].
    apply (isDirect_spec intervals i a j b Hi Hj); [apply Hin|done].
  - intros [Hin Hd]. split; [done|].
    by apply (isDirect_spec intervals i a j b Hi Hj); [apply Hin|].
Qed.

Lemma sumZ_filter_if {C} (c : C -> bool) (w : C -> Z) (l : list C) :
  Spec.sumZ (map w (List.filter c l))
  = Spec.sumZ (map (fun o => if c o then w o else 0) l).
Proof.
  induction l as [|o l IH]; cbn [List.filter map]; [done|].
  destruct (c o); cbn [map]; rewrite !sumZ_cons, IH; lia.
Qed.

Lemma childrenTime_if i a :
  Profiler.childrenTime intervals i a
  = Spec.sumZ (map (fun o => if direct (i, a) o then duration (snd o) else 0)
                   (Js.entries intervals)).
Proof.
  unfold Profiler.childrenTime.
  rewrite (fold_left_guarded_sum
             (fun o => negb (Nat.eqb (fst o) i) && contains a (snd o))
             (fun o => Profiler.isDirect intervals i a (fst o) (snd o))
             (fun o => duration (snd o))).
  rewrite Z.add_0_l. apply sumZ_filter_if.
Qed.

(** The nearest parent is a direct parent. *)
Lemma nearest_is_direct j b p a :
  intervals !! j = Some b ->
  Dashboard.immediateParent intervals j b = Some (p, a) ->
  Spec.directChild intervals p j.
Proof.
  intros Hj Hp. apply immediateParent_Some in Hp as (Hlk & Hc & Hmin); [|done].
  split; [done|]. intros (m & Hmj & Hpm & Hmjc).
  pose proof Hpm as [Hmp (a' & c & Ha' & Hc' & [Hs1 He1])].
  specialize (Hmin m Hmjc). unfold Spec.durationAt in Hmin. rewrite Hc' in Hmin.
  cbn in Hmin. simplify_eq.
  destruct (spanned_lookup _ _ Hlk) as [_ Hda]. destruct (spanned_lookup _ _ Hc') as [_ Hdc].
  apply Hmp. symmetry. apply (Hdistinct p m a c); [done|done|lia|lia].
Qed.

(** An interval of positive length has at most one direct parent. *)
Lemma direct_parent_unique p1 p2 j b :
  intervals !! j = Some b -> duration b <> 0 ->
  Spec.directChild intervals p1 j -> Spec.directChild intervals p2 j -> p1 = p2.
Proof.
  intros Hj Hpos [Hc1 Hd1] [Hc2 Hd2].
  destruct (decide (p1 = p2)) as [|Hne]; [done|exfalso].
  pose proof Hc1 as [Hj1 (a1 & b1 & Ha1 & Hb1 & [Hs1 He1])].
  pose proof Hc2 as [Hj2 (a2 & b2 & Ha2 & Hb2 & [Hs2 He2])].
  simplify_eq. destruct (spanned_lookup _ _ Hj) as [Hle Hdur].
  destruct (Hlaminar p1 p2 a1 a2 Ha1 Ha2 Hne) as [[Hdis|Hdis]|[Hin|Hin]].
  - lia.
  - lia.
  - apply Hd1. exists p2. split_and!; [done| |done].
    split; [done|]. by exists a1, a2.
  - apply Hd2. exists p1. split_and!; [done| |done].
    split; [congruence|]. by exists a2, a1.
Qed.

(** What the self-time loops of all the intervals subtract, in total,
    for the one interval [o]: nothing for a root, its duration
    otherwise. *)
Lemma subtracted_for (o : nat * Interval) :
  o ∈ Js.entries intervals ->
  Spec.sumZ (map (fun p => if direct p o then duration (snd o) else 0)
                 (Js.entries intervals))
  = match Dashboard.immediateParent intervals (fst o) (snd o) with
    | Some _ => duration (snd o)
    | None => 0
    end.
Proof.
  intros Ho. destruct o as [j b]. pose proof Ho as Hj%entries_elem. cbn [fst snd].
  destruct (Dashboard.immediateParent intervals j b) as [[p a]|] eqn:Hp.
  - destruct (decide (duration b = 0)) as [Hz|Hnz].
    { rewrite Hz. apply sumZ_map_zero. intros x _. by case_match. }
    pose proof (nearest_is_direct _ _ _ _ Hj Hp) as Hdirect.
    apply immediateParent_Some in Hp as (Hlk & _ & _); [|done].
    assert (Hpa : (p, a) ∈ Js.entries intervals) by by apply entries_elem.
    rewrite (sumZ_single _ _ (p, a)); [|apply entries_NoDup|done|].
    + pose proof (proj2 (direct_spec (p, a) (j, b) Hpa Ho) Hdirect) as Hd.
      cbn [fst snd] in Hd |- *. by rewrite Hd.
    + intros [p' a'] Hp' Hne.
      pose proof (direct_spec (p', a') (j, b) Hp' Ho) as Hspec.
      cbn [fst snd] in Hspec |- *. case_match; [|done]. exfalso.
      pose proof (proj1 Hspec eq_refl) as Hd.
      pose proof (direct_parent_unique p' p j b Hj Hnz Hd Hdirect) as ->.
      apply entries_elem in Hp'. apply Hne. congruence.
  - apply sumZ_map_zero. intros [p a] Hpa.
    pose proof (direct_spec (p, a) (j, b) Hpa Ho) as Hspec.
    cbn [fst snd] in Hspec |- *. case_match; [|done]. exfalso.
    destruct (proj1 Hspec eq_refl) as [Hc _].
    by apply (immediateParent_None _ _ _ Hj Hp p).
Qed.

Lemma imap_entries {C} (f : nat -> Interval -> C) (l : list Interval) :
  imap f l = map (fun p => f (fst p) (snd p)) (Js.entries l).
Proof.
  unfold Js.entries. apply list_eq. intros i.
  change (map ?g ?k) with (g <$> k).
  rewrite list_lookup_fmap, !list_lookup_imap. by destruct (l !! i).
Qed.

(** The self-durations of the unit add up to the durations of its
    roots. *)
Lemma selfTime_total :
  Spec.sumZ (map Profiler.duration (Profiler.markersOf intervals))
  = Spec.sumZ (map (fun o => match Dashboard.immediateParent intervals (fst o) (snd o) with
                             | Some _ => 0
                             | None => duration (snd o)
                             end)
                   (Js.entries intervals)).
Proof.
  unfold Profiler.markersOf. rewrite imap_entries, map_map. cbn [Profiler.duration Profiler.markerOf].
  unfold Profiler.selfTime.
  rewrite (sumZ_map_ext _ (fun p => duration (snd p)
             - Spec.sumZ (map (fun o => if direct p o then duration (snd o) else 0)
                              (Js.entries intervals)))).
  2: { intros [i a] _. cbn [fst snd]. by rewrite childrenTime_if. }
  rewrite sumZ_map_sub.
  rewrite (sumZ_swap (fun p o => if direct p o then duration (snd o) else 0)).
  rewrite <- sumZ_map_sub. apply sumZ_map_ext. intros o Ho.
  rewrite (subtracted_for o Ho).
  destruct (Dashboard.immediateParent intervals (fst o) (snd o)); lia.
Qed.

End Conservation.

Section ConservationTheorems.
Import Trace.

(** C3: the self-time computation counts time twice when several
    intervals have the same span, against its own comment ("This avoids
    double-counting"). With a root [0,100] and three includes over
    [10,20] the family is laminar and has the root as its only root;
    each of the three keeps its whole duration, 10, and the root keeps
    its whole duration too, 100, since between the root and each of
    them the code sees one of the two others as an intermediate
    interval. The self-durations add up to 130, not to the 100 of the
    root. *)
Theorem C3_same_span_double_counted :
  let intervals := matchIntervals Scenario.sameSpan in
  intervals = [mkInterval "r.h" 0 100 100; mkInterval "a.h" 10 20 10;
               mkInterval "b.h" 10 20 10; mkInterval "c.h" 10 20 10] /\
  Spec.laminar intervals /\
  Spec.root intervals 0 /\
  (forall r, Spec.root intervals r -> r = 0%nat) /\
  map (fun m => (Profiler.file m, Profiler.duration m))
      (Profiler.extractSourceMarkers Scenario.sameSpan)
  = [("r.h", 100); ("a.h", 10); ("b.h", 10); ("c.h", 10)] /\
  Spec.sumZ (map Profiler.duration (Profiler.extractSourceMarkers Scenario.sameSpan)) = 130 /\
  Spec.durationAt intervals 0 = 100 /\
  Spec.sumZ (map Profiler.duration (Profiler.markersOf intervals))
  <> Spec.durationAt intervals 0.
Proof.
  cbv zeta.
  assert (Heq : matchIntervals Scenario.sameSpan
                = [mkInterval "r.h" 0 100 100; mkInterval "a.h" 10 20 10;
                   mkInterval "b.h" 10 20 10; mkInterval "c.h" 10 20 10])
    by (vm_compute; reflexivity).
  split; [exact Heq|]. unfold Profiler.extractSourceMarkers. rewrite Heq. split_and!.
  - intros i j a b Hi Hj Hne. unfold Spec.disjoint, Spec.containsP.
    by_positions; cbn; try lia; done.
  - split; [by eexists|]. intros j [Hne (a & b & Ha & Hb & [Hs He])].
    cbn in Hb. injection Hb as <-. by_positions; cbn in *; lia.
  - intros r [[a Ha] Hroot]. destruct r as [|r]; [done|]. exfalso.
    apply (Hroot 0%nat). split; [done|].
    exists (mkInterval "r.h" 0 100 100), a. split_and!; [done|done|].
    unfold Spec.containsP. by_positions; cbn; lia.
  - by vm_compute.
  - by vm_compute.
  - by vm_compute.
  - by vm_compute.
Qed.

(** Where no two intervals have the same span the computation does
    conserve time: for every unit whose intervals, each with a duration
    equal to the length of its span, have pairwise distinct spans and
    form a laminar family with exactly one root, the self-durations of
    all the intervals add up to the total duration of the root. *)
Lemma self_time_conservation_distinct_spans (intervals : list Interval) (r : nat) :
  Forall Spec.spanned intervals ->
  Spec.distinctSpans intervals ->
  Spec.laminar intervals ->
  Spec.root intervals r ->
  (forall r', Spec.root intervals r' -> r' = r) ->
  Spec.sumZ (map Profiler.duration (Profiler.markersOf intervals))
  = Spec.durationAt intervals r.
Proof.
  intros Hspan Hdistinct Hlaminar [[a Hr] Hroot] Hunique.
  rewrite (selfTime_total intervals Hspan Hdistinct Hlaminar).
  rewrite (sumZ_single _ _ (r, a)); [|apply entries_NoDup|by apply entries_elem|].
  - cbn [fst snd]. rewrite (immediateParent_root intervals r a Hr Hroot).
    unfold Spec.durationAt. by rewrite Hr.
  - intros [j b] Hj%entries_elem Hne. cbn [fst snd].
    destruct (Dashboard.immediateParent intervals j b) as [p|] eqn:Hp; [done|].
    exfalso. apply Hne. assert (j = r) as ->; [|congruence].
    apply Hunique. split; [by eexists|]. by apply (immediateParent_None _ _ b).
Qed.

Lemma self_time_conservation_nested :
  let intervals := [mkInterval "outer.h" 0 100 100; mkInterval "inner.h" 10 40 30] in
  (Forall Spec.spanned intervals /\ Spec.distinctSpans intervals /\
   Spec.laminar intervals /\ Spec.root intervals 0 /\
   (forall r', Spec.root intervals r' -> r' = 0%nat)) /\
  Spec.sumZ (map Profiler.duration (Profiler.markersOf intervals))
  = Spec.durationAt intervals 0.
Proof.
  cbv zeta.
  assert (H1 : Forall Spec.spanned
                 [mkInterval "outer.h" 0 100 100; mkInterval "inner.h" 10 40 30]).
  { repeat constructor; cbn; lia. }
  assert (H2 : Spec.distinctSpans
                 [mkInterval "outer.h" 0 100 100; mkInterval "inner.h" 10 40 30]).
  { intros i j a b Hi Hj Hs He. by_positions; cbn in *; try lia; done. }
  assert (H3 : Spec.laminar
                 [mkInterval "outer.h" 0 100 100; mkInterval "inner.h" 10 40 30]).
  { intros i j a b Hi Hj Hne. unfold Spec.disjoint, Spec.containsP.
    by_positions; cbn; try lia; done. }
  assert (H4 : Spec.root [mkInterval "outer.h" 0 100 100; mkInterval "inner.h" 10 40 30] 0).
  { split; [by eexists|]. intros j [Hne (a & b & Ha & Hb & [Hs He])].
    cbn in Hb. injection Hb as <-. by_positions; cbn in *; lia. }
  assert (H5 : forall r',
             Spec.root [mkInterval "outer.h" 0 100 100; mkInterval "inner.h" 10 40 30] r' ->
             r' = 0%nat).
  { intros r' [[a Ha] Hroot]. destruct r' as [|r']; [done|]. exfalso.
    apply (Hroot 0%nat). split; [done|].
    exists (mkInterval "outer.h" 0 100 100), a. split_and!; [done|done|].
    unfold Spec.containsP. by_positions; cbn; lia. }
  split; [by split_and!|].
  exact (self_time_conservation_distinct_spans _ 0%nat H1 H2 H3 H4 H5).
Defined.

End ConservationTheorems.

(** ** The scenarios of the specification, run through the converters *)

Section Scenarios.

Example scenario1_interval :
  Trace.matchIntervals Scenario.single = [Trace.mkInterval "a.h" 1000 2000 1000].
Proof. by vm_compute. Qed.

Example scenario1_profile :
  let run := Profiler.convertToProfiler (Profiler.extractSourceMarkers Scenario.single) in
  fst run = [Profiler.mkSample (Some 0%nat) 2000 1000] /\
  Profiler.funcTable_length (snd run) = 1%nat /\
  Profiler.frameTable_length (snd run) = 1%nat /\
  Profiler.stackTable_length (snd run) = 1%nat /\
  Profiler.stringTable (snd run) = [""; "a.h"].
Proof. cbv zeta. split_and!; by vm_compute. Qed.

Example scenario2_chains :
  map Profiler.stack (Profiler.extractSourceMarkers Scenario.nested)
  = [["outer.h"]; ["outer.h"; "inner.h"]].
Proof. by vm_compute. Qed.

Example scenario2_dashboard :
  let out := Dashboard.main [("unit", Scenario.nested)] in
  Dashboard.files out = ["outer.h"; "inner.h"] /\
  map Dashboard.fileIds (Dashboard.includes out) = [[Some 0; Some 1]] /\
  map Dashboard.parentFileIds (Dashboard.includes out) = [[Some (-1); Some 0]].
Proof. cbv zeta. split_and!; by vm_compute. Qed.

End Scenarios.

(** * Further properties *)

(** ** The matcher: pools, provenance, counts *)

Section MatcherMore.
Import Trace.
Implicit Types (endMap : gmap string (list RawEvent)) (b e : RawEvent).

Lemma sameIds_key b e : Derived.sameIds b e = String.eqb (eventKey e) (eventKey b).
Proof.
  unfold Derived.sameIds. destruct (String.eqb_spec (eventKey e) (eventKey b)) as [Heq|Hne].
  - apply eventKey_inj in Heq as (-> & -> & ->). by rewrite !Z.eqb_refl.
  - apply not_true_iff_false. intros H.
    rewrite !andb_true_iff, !Z.eqb_eq in H. apply Hne, eventKey_inj. tauto.
Qed.

Lemma pool_same_ids (events : list RawEvent) (b : RawEvent) :
  pool (buildEndMap (endEvents events)) (eventKey b)
  = List.filter (Derived.sameIds b) (endEvents events).
Proof.
  rewrite pool_buildEndMap. apply filter_ext. intros e. symmetry. apply sameIds_key.
Qed.

(** X1: the pool a begin-marker looks into holds exactly the
    end-markers of category and name [Source] that have its process,
    thread and correlation ids, in the order of the trace: the textual
    key never merges two different id triples. *)
Theorem X1_pool_holds_same_ids (events : list RawEvent) (b : RawEvent) :
  pool (buildEndMap (endEvents events)) (eventKey b)
  = List.filter (Derived.sameIds b) (endEvents events).
Proof. apply pool_same_ids. Qed.

Lemma delete_elem {A} (l : list A) (i : nat) (x : A) : x ∈ delete i l -> x ∈ l.
Proof.
  revert i. induction l as [|y l IH]; intros [|i]; cbn; [done..| |].
  - apply list_elem_of_further.
  - intros [->|H]%elem_of_cons; [apply list_elem_of_here|].
    apply list_elem_of_further. by apply (IH i).
Qed.

Lemma truthy_Some (v : option string) :
  Js.truthy v = true -> exists s, v = Some s /\ s <> "".
Proof.
  destruct v as [s|]; cbn; [|done]. rewrite negb_true_iff. intros H. exists s.
  split; [done|]. intros ->. done.
Qed.

Lemma matchBegin_fromTrace (events : list RawEvent) st b :
  b ∈ beginEvents events ->
  (forall k e, e ∈ pool (fst st) k -> e ∈ endEvents events /\ eventKey e = k) ->
  Forall (Derived.fromTrace events) (snd st) ->
  (forall k e, e ∈ pool (fst (matchBegin st b)) k ->
               e ∈ endEvents events /\ eventKey e = k) /\
  Forall (Derived.fromTrace events) (snd (matchBegin st b)).
Proof.
  destruct st as [endMap intervals]. cbn [fst snd]. intros Hb Hpools Hivs.
  destruct (Js.find (after b) (pool endMap (eventKey b))) as [[idx e]|] eqn:Hfind.
  - destruct (matchBegin_match endMap intervals b idx e Hfind)
      as (Hidx & Hlt & _ & -> & Hpool & Hother).
    split.
    + intros k e' He'. destruct (decide (k = eventKey b)) as [->|Hne].
      * rewrite Hpool in He'. apply Hpools. by eapply delete_elem.
      * rewrite Hother in He' by done. by apply Hpools.
    + apply Forall_app. split; [done|]. constructor; [|constructor].
      assert (He : e ∈ pool endMap (eventKey b)) by (apply list_elem_of_lookup; eauto).
      apply Hpools in He as [He Hkey].
      apply list_elem_of_In in Hb as Hb'. unfold beginEvents in Hb'.
      apply filter_In in Hb' as [_ Hbegin]. unfold isBegin in Hbegin.
      apply andb_true_iff in Hbegin as [_ (s & Hs & Hne)%truthy_Some].
      exists b, e. cbn. unfold detailString. rewrite Hs. cbn.
      split_and!; try done. by rewrite sameIds_key, Hkey, String.eqb_refl.
  - assert (matchBegin (endMap, intervals) b = (endMap, intervals)) as ->; [|done].
    cbn [matchBegin]. by rewrite Hfind.
Qed.

Lemma matchLoop_fromTrace (events : list RawEvent) bs st :
  (forall b, b ∈ bs -> b ∈ beginEvents events) ->
  (forall k e, e ∈ pool (fst st) k -> e ∈ endEvents events /\ eventKey e = k) ->
  Forall (Derived.fromTrace events) (snd st) ->
  Forall (Derived.fromTrace events) (snd (fold_left matchBegin bs st)).
Proof.
  revert st. induction bs as [|b bs IH]; intros st Hbs Hpools Hivs; [done|].
  cbn [fold_left].
  destruct (matchBegin_fromTrace events st b) as [Hpools' Hivs'];
    [apply Hbs, list_elem_of_here|done|done|].
  apply IH; [|done|done]. intros b' Hb'. by apply Hbs, list_elem_of_further.
Qed.

(** X2: every interval the matcher emits is made of a begin-marker and
    an end-marker of the trace that carry the same process, thread and
    correlation ids; its file is the detail of the begin-marker, which
    is not empty, and its start and end are their two timestamps. *)
Theorem X2_interval_provenance (events : list RawEvent) :
  Forall (fun iv =>
            exists b e, b ∈ beginEvents events /\ e ∈ endEvents events /\
              Derived.sameIds b e = true /\
              detail b = Some (file iv) /\ file iv <> "" /\
              startTime iv = ts b /\ endTime iv = ts e)
         (matchIntervals events).
Proof.
  unfold matchIntervals, matchLoop.
  apply (matchLoop_fromTrace events); [done| |constructor].
  intros k e. cbn [fst]. rewrite pool_buildEndMap, list_elem_of_In, filter_In.
  intros [He Hk]. split; [by apply list_elem_of_In|]. by apply String.eqb_eq.
Qed.

Lemma poolTotal_fresh endMap key (l : list RawEvent) :
  endMap !! key = None ->
  Derived.poolTotal (<[key := l]> endMap) = (length l + Derived.poolTotal endMap)%nat.
Proof.
  intros Hnone. unfold Derived.poolTotal.
  rewrite (map_fold_insert_L (fun _ (l : list RawEvent) acc => (length l + acc)%nat));
    [done| |done].
  intros. lia.
Qed.

Lemma poolTotal_insert endMap key (l : list RawEvent) :
  (Derived.poolTotal (<[key := l]> endMap) + length (pool endMap key)
   = Derived.poolTotal endMap + length l)%nat.
Proof.
  unfold pool. destruct (endMap !! key) as [l0|] eqn:Hk; cbn.
  - rewrite <- (insert_delete_id endMap key l0 Hk) at 2.
    rewrite <- (insert_delete_eq endMap key l).
    rewrite !poolTotal_fresh by apply lookup_delete_eq. lia.
  - rewrite poolTotal_fresh by done. lia.
Qed.

Lemma poolTotal_buildEndMap (ends : list RawEvent) endMap :
  Derived.poolTotal (fold_left indexEnd ends endMap)
  = (Derived.poolTotal endMap + length ends)%nat.
Proof.
  revert endMap. induction ends as [|e ends IH]; intros endMap; cbn [fold_left length].
  - lia.
  - rewrite IH. unfold indexEnd.
    pose proof (poolTotal_insert endMap (eventKey e) (pool endMap (eventKey e) ++ [e])) as H.
    rewrite length_app in H. cbn in H. lia.
Qed.

Lemma matchBegin_count st b :
  (length (snd (matchBegin st b)) + Derived.poolTotal (fst (matchBegin st b))
   = length (snd st) + Derived.poolTotal (fst st))%nat /\
  (length (snd (matchBegin st b)) <= S (length (snd st)))%nat.
Proof.
  destruct st as [endMap intervals]. cbn [matchBegin].
  destruct (Js.find (after b) (pool endMap (eventKey b))) as [[idx e]|] eqn:Hfind;
    cbn [fst snd]; [|lia].
  apply find_Some in Hfind as (Hidx & _ & _).
  pose proof (poolTotal_insert endMap (eventKey b)
                (Js.splice1 idx (pool endMap (eventKey b)))) as H.
  rewrite splice1_delete in *. rewrite length_delete in H by eauto.
  apply lookup_lt_Some in Hidx. rewrite length_app. cbn. lia.
Qed.

Lemma matchLoop_count bs st :
  (length (snd (fold_left matchBegin bs st))
   + Derived.poolTotal (fst (fold_left matchBegin bs st))
   = length (snd st) + Derived.poolTotal (fst st))%nat /\
  (length (snd (fold_left matchBegin bs st)) <= length (snd st) + length bs)%nat.
Proof.
  revert st. induction bs as [|b bs IH]; intros st; cbn [fold_left length]; [lia|].
  destruct (IH (matchBegin st b)) as [H1 H2]. destruct (matchBegin_count st b) as [H3 H4].
  lia.
Qed.

(** X3: an end-marker is used for one interval at most, and a
    begin-marker too: the intervals and the end-markers left in the
    pools add up to the end-markers of the trace, and there are no more
    intervals than begin-markers. *)
Theorem X3_interval_count (events : list RawEvent) :
  let final := matchLoop (buildEndMap (endEvents events)) (beginEvents events) in
  (length (matchIntervals events) + Derived.poolTotal (fst final)
   = length (endEvents events))%nat /\
  (length (matchIntervals events) <= length (beginEvents events))%nat /\
  (length (matchIntervals events) <= length (endEvents events))%nat.
Proof.
  cbv zeta. unfold matchIntervals, matchLoop.
  destruct (matchLoop_count (beginEvents events) (buildEndMap (endEvents events), []))
    as [H1 H2].
  cbn [fst snd length] in H1, H2.
  assert (Derived.poolTotal (buildEndMap (endEvents events))
          = length (endEvents events)) as H0.
  { unfold buildEndMap. rewrite poolTotal_buildEndMap.
    unfold Derived.poolTotal at 1. by rewrite map_fold_empty. }
  rewrite H0 in H1. split_and!; lia.
Qed.

(** What [matchBegin] makes of [b] from the pools [endMap]. *)
Local Abbreviation matchIn endMap b :=
  (match Js.find (after b) (pool endMap (eventKey b)) with
   | Some (_, e) => Some (mkInterval (detailString b) (ts b) (ts e) (ts e - ts b))
   | None => None
   end).

Lemma matchLoop_distinct_keys bs endMap intervals :
  NoDup (map eventKey bs) ->
  snd (fold_left matchBegin bs (endMap, intervals))
  = intervals ++ omap (fun b => matchIn endMap b) bs.
Proof.
  revert endMap intervals. induction bs as [|b bs IH]; intros endMap intervals Hnd.
  - cbn. by rewrite app_nil_r.
  - cbn [map] in Hnd. apply NoDup_cons in Hnd as [Hb Hnd]. cbn [fold_left].
    assert (Hrest : forall endMap',
               (forall key, key <> eventKey b -> pool endMap' key = pool endMap key) ->
               omap (fun b' => matchIn endMap' b') bs
               = omap (fun b' => matchIn endMap b') bs).
    { intros endMap' Hother. clear IH Hnd. induction bs as [|b' bs IHbs]; [done|].
      cbn [map] in Hb. apply not_elem_of_cons in Hb as [Hne Hb].
      cbn [omap list_omap]. rewrite (Hother (eventKey b')) by done.
      by rewrite (IHbs Hb). }
    destruct (Js.find (after b) (pool endMap (eventKey b))) as [[idx e]|] eqn:Hfind.
    + destruct (matchBegin_match endMap intervals b idx e Hfind)
        as (_ & _ & _ & Hivs & _ & Hother).
      destruct (matchBegin (endMap, intervals) b) as [endMap' intervals'] eqn:Hstep.
      cbn [fst snd] in Hivs, Hother. subst intervals'.
      rewrite (IH endMap' _ Hnd), (Hrest endMap' Hother).
      cbn [omap list_omap]. rewrite Hfind. cbn. by rewrite <- app_assoc.
    + assert (matchBegin (endMap, intervals) b = (endMap, intervals)) as ->
        by (cbn [matchBegin]; by rewrite Hfind).
      rewrite (IH endMap _ Hnd). cbn [omap list_omap]. by rewrite Hfind.
Qed.

(** X4: when no two begin-markers of the trace have the same process,
    thread and correlation ids, each of them is matched on its own,
    whatever the order of the events: the intervals are, in the order
    of the begin-markers, those of the begin-markers that have a later
    end-marker with their ids, each with the first such end-marker. *)
Theorem X4_distinct_keys_matched_alone (events : list RawEvent) :
  NoDup (map eventKey (beginEvents events)) ->
  matchIntervals events = omap (Derived.matchAlone events) (beginEvents events).
Proof.
  intros Hnd. unfold matchIntervals, matchLoop.
  rewrite (matchLoop_distinct_keys _ _ _ Hnd). cbn [app].
  assert (Hext : forall b, matchIn (buildEndMap (endEvents events)) b
                           = Derived.matchAlone events b).
  { intros b. unfold Derived.matchAlone. by rewrite <- pool_same_ids. }
  clear Hnd. induction (beginEvents events) as [|b bs IH]; [done|].
  cbn [omap list_omap]. by rewrite Hext, IH.
Qed.

Lemma X4_distinct_keys_witness :
  NoDup (map eventKey (beginEvents Scenario.nested)) /\
  matchIntervals Scenario.nested
  = omap (Derived.matchAlone Scenario.nested) (beginEvents Scenario.nested).
Proof.
  assert (H : NoDup (map eventKey (beginEvents Scenario.nested))).
  { apply (bool_decide_unpack _). by vm_compute. }
  split; [exact H|]. exact (X4_distinct_keys_matched_alone Scenario.nested H).
Defined.

End MatcherMore.

(** ** Self-time stays within the duration *)

Section SelfTimeBounds.
Import Trace.
Implicit Types (intervals : list Interval) (C : list (nat * Interval)).

Lemma sumZ_filter_split {A} (p : A -> bool) (w : A -> Z) (l : list A) :
  Spec.sumZ (map w l)
  = Spec.sumZ (map w (List.filter p l))
    + Spec.sumZ (map w (List.filter (fun x => negb (p x)) l)).
Proof.
  induction l as [|x l IH]; cbn [map List.filter]; [done|].
  destruct (p x); cbn [negb map]; rewrite !sumZ_cons, ?IH; lia.
Qed.

Lemma filter_length_le {A} (p : A -> bool) (l : list A) :
  (length (List.filter p l) <= length l)%nat.
Proof. induction l as [|x l IH]; cbn; [lia|]. destruct (p x); cbn; lia. Qed.

(** Intervals inside [s, e] that are disjoint two by two are together
    no longer than [e - s]. *)
Lemma disjoint_sum_le (n : nat) : forall C s e,
  (length C <= n)%nat ->
  NoDup (map fst C) ->
  (forall o, In o C -> Spec.spanned (snd o) /\
                       s <= startTime (snd o) /\ endTime (snd o) <= e) ->
  (forall o1 o2, In o1 C -> In o2 C -> fst o1 <> fst o2 ->
                 Spec.disjoint (snd o1) (snd o2)) ->
  s <= e ->
  Spec.sumZ (map (fun o => duration (snd o)) C) <= e - s.
Proof.
  induction n as [|n IH]; intros C s e Hlen Hnd Hin Hdis Hse.
  - destruct C; [|cbn in Hlen; lia]. cbn. lia.
  - destruct C as [|x C]; [cbn; lia|].
    cbn [map] in Hnd. apply NoDup_cons in Hnd as [Hx Hnd].
    destruct (Hin x (or_introl eq_refl)) as ([Hxle Hxd] & Hxs & Hxe).
    cbn [map]. rewrite sumZ_cons.
    rewrite (sumZ_filter_split (fun y => endTime (snd y) <=? startTime (snd x))).
    set (left := List.filter (fun y => endTime (snd y) <=? startTime (snd x)) C).
    set (right := List.filter (fun y => negb (endTime (snd y) <=? startTime (snd x))) C).
    assert (Hleft : Spec.sumZ (map (fun o => duration (snd o)) left)
                    <= startTime (snd x) - s).
    { apply IH.
      - pose proof (filter_length_le
                      (fun y => endTime (snd y) <=? startTime (snd x)) C).
        cbn in Hlen. unfold left. lia.
      - by apply NoDup_map_filter.
      - intros o [Ho Hp]%filter_In. apply Z.leb_le in Hp.
        destruct (Hin o (or_intror Ho)) as (Hsp & Hos & Hoe). split_and!; [done|done|lia].
      - intros o1 o2 [Ho1 _]%filter_In [Ho2 _]%filter_In. apply Hdis; by right.
      - lia. }
    assert (Hright : Spec.sumZ (map (fun o => duration (snd o)) right)
                     <= e - endTime (snd x)).
    { apply IH.
      - pose proof (filter_length_le
                      (fun y => negb (endTime (snd y) <=? startTime (snd x))) C).
        cbn in Hlen. unfold right. lia.
      - by apply NoDup_map_filter.
      - intros o [Ho Hp]%filter_In. apply negb_true_iff, Z.leb_gt in Hp.
        destruct (Hin o (or_intror Ho)) as (Hsp & Hos & Hoe). split_and!; [done| |done].
        assert (Hne : fst x <> fst o).
        { intros Heq. apply Hx. rewrite Heq. apply list_elem_of_In, in_map. done. }
        destruct (Hdis x o (or_introl eq_refl) (or_intror Ho) Hne) as [H|H]; lia.
      - intros o1 o2 [Ho1 _]%filter_In [Ho2 _]%filter_In. apply Hdis; by right.
      - lia. }
    lia.
Qed.

(** Two direct children of one interval of a laminar unit are disjoint. *)
Lemma direct_children_disjoint intervals i c1 c2 a1 a2 :
  Spec.laminar intervals ->
  intervals !! c1 = Some a1 -> intervals !! c2 = Some a2 -> c1 <> c2 ->
  Spec.directChild intervals i c1 -> Spec.directChild intervals i c2 ->
  Spec.disjoint a1 a2.
Proof.
  intros Hlam H1 H2 Hne [Hc1 Hd1] [Hc2 Hd2].
  destruct (Hlam c1 c2 a1 a2 H1 H2 Hne) as [Hdis|[Hin|Hin]]; [done| |].
  - exfalso. apply Hd2. exists c1. split_and!; [done|done|].
    split; [congruence|]. by exists a1, a2.
  - exfalso. apply Hd1. exists c2. split_and!; [congruence|done|].
    split; [done|]. by exists a2, a1.
Qed.

(** X5: in a laminar unit whose intervals have their span as duration,
    the self-duration of an interval is not negative and not more than
    its total duration. *)
Theorem X5_self_time_within_duration intervals i interval :
  Forall Spec.spanned intervals ->
  Spec.laminar intervals ->
  intervals !! i = Some interval ->
  0 <= Profiler.duration (Profiler.markerOf intervals i interval) <= duration interval.
Proof.
  intros Hspan Hlam Hi. cbn [Profiler.markerOf Profiler.duration].
  unfold Profiler.selfTime, Profiler.childrenTime.
  rewrite (fold_left_guarded_sum
             (fun o => negb (Nat.eqb (fst o) i) && contains interval (snd o))
             (fun o => Profiler.isDirect intervals i interval (fst o) (snd o))
             (fun o => duration (snd o))).
  rewrite Z.add_0_l.
  set (C := List.filter _ (Js.entries intervals)).
  assert (Hsp : forall j a, intervals !! j = Some a -> Spec.spanned a).
  { intros j a Hj. rewrite Forall_forall in Hspan. apply Hspan.
    apply list_elem_of_lookup. eauto. }
  destruct (Hsp i interval Hi) as [Hle Hdur].
  assert (HC : forall o, In o C ->
             intervals !! fst o = Some (snd o) /\ Spec.directChild intervals i (fst o)).
  { intros o [Ho Ht]%filter_In. pose proof Ho as Hlk%entries_In.
    apply andb_true_iff in Ht as [Hg Hd]. split; [done|].
    apply (contained_test intervals i interval o Hi Ho) in Hg.
    split; [done|]. apply (isDirect_spec intervals i interval _ _ Hi Hlk); [apply Hg|done]. }
  split.
  - assert (0 <= Spec.sumZ (map (fun o => duration (snd o)) C)
            <= endTime interval - startTime interval); [|lia].
    split.
    + clear -HC Hsp. induction C as [|o C IH]; [done|].
      cbn [map]. rewrite sumZ_cons.
      destruct (HC o (or_introl eq_refl)) as [Hlk _]. destruct (Hsp _ _ Hlk).
      assert (0 <= Spec.sumZ (map (fun o => duration (snd o)) C)); [|lia].
      apply IH. intros o' Ho'. apply HC. by right.
    + apply (disjoint_sum_le (length C)); [done| | | |done].
      * apply NoDup_map_filter. rewrite entries_fst. apply NoDup_seq.
      * intros o Ho. destruct (HC o Ho) as [Hlk [[_ (a & b & Ha & Hb & [Hs He])] _]].
        simplify_eq. split_and!; [by eapply Hsp|done|lia].
      * intros o1 o2 Ho1 Ho2 Hne. destruct (HC o1 Ho1) as [H1 Hd1].
        destruct (HC o2 Ho2) as [H2 Hd2].
        by apply (direct_children_disjoint intervals i (fst o1) (fst o2)).
  - assert (0 <= Spec.sumZ (map (fun o => duration (snd o)) C)); [|lia].
    clear -HC Hsp. induction C as [|o C IH]; [done|].
    cbn [map]. rewrite sumZ_cons.
    destruct (HC o (or_introl eq_refl)) as [Hlk _]. destruct (Hsp _ _ Hlk).
    assert (0 <= Spec.sumZ (map (fun o => duration (snd o)) C)); [|lia].
    apply IH. intros o' Ho'. apply HC. by right.
Qed.

End SelfTimeBounds.

Section NestedPair.
Import Trace.

Ltac positions :=
  repeat match goal with
         | H : (_ :: _) !! ?i = Some _ |- _ => destruct i; cbn in H
         | H : [] !! _ = Some _ |- _ => by inversion H
         | H : Some _ = Some _ |- _ => injection H as <-
         end.

Lemma nestedPair_spanned : Forall Spec.spanned Derived.nestedPair.
Proof. repeat constructor; cbn; lia. Qed.

Lemma nestedPair_distinct : Spec.distinctSpans Derived.nestedPair.
Proof.
  intros i j a b Hi Hj Hs He. unfold Derived.nestedPair in *.
  positions; cbn in *; try lia; done.
Qed.

Lemma nestedPair_laminar : Spec.laminar Derived.nestedPair.
Proof.
  intros i j a b Hi Hj Hne. unfold Spec.disjoint, Spec.containsP, Derived.nestedPair in *.
  positions; cbn; try lia; done.
Qed.

Lemma X5_self_time_witness :
  (Forall Spec.spanned Derived.nestedPair /\ Spec.laminar Derived.nestedPair /\
   Derived.nestedPair !! 0%nat = Some (mkInterval "outer.h" 0 100 100)) /\
  0 <= Profiler.duration
         (Profiler.markerOf Derived.nestedPair 0 (mkInterval "outer.h" 0 100 100))
    <= 100.
Proof.
  split; [split_and!; [apply nestedPair_spanned|apply nestedPair_laminar|reflexivity]|].
  exact (X5_self_time_within_duration Derived.nestedPair 0%nat
           (mkInterval "outer.h" 0 100 100)
           nestedPair_spanned nestedPair_laminar eq_refl).
Defined.

(** X6: the two hierarchy modes agree. In a unit whose intervals have
    their span as duration and pairwise distinct spans, the nearest
    parent the dashboard assigns to an interval is a direct parent of it
    in the sense of the self-time computation; and when the unit is
    laminar and the interval has a positive length, it is its only
    direct parent. *)
Theorem X6_nearest_parent_is_direct_parent
    (intervals : list Interval) (j : nat) (b : Interval) (p : nat) (a : Interval) :
  Forall Spec.spanned intervals ->
  Spec.distinctSpans intervals ->
  intervals !! j = Some b ->
  Dashboard.immediateParent intervals j b = Some (p, a) ->
  Spec.directChild intervals p j /\
  (Spec.laminar intervals -> duration b <> 0 ->
   forall q, Spec.directChild intervals q j -> q = p).
Proof.
  intros Hspan Hdistinct Hj Hp.
  pose proof (nearest_is_direct intervals Hspan Hdistinct j b p a Hj Hp) as Hdirect.
  split; [done|]. intros Hlam Hpos q Hq.
  by apply (direct_parent_unique intervals Hspan Hlam q p j b).
Qed.

Lemma X6_nearest_parent_witness :
  (Forall Spec.spanned Derived.nestedPair /\ Spec.distinctSpans Derived.nestedPair /\
   Derived.nestedPair !! 1%nat = Some (mkInterval "inner.h" 10 40 30) /\
   Dashboard.immediateParent Derived.nestedPair 1 (mkInterval "inner.h" 10 40 30)
   = Some (0%nat, mkInterval "outer.h" 0 100 100)) /\
  Spec.directChild Derived.nestedPair 0 1.
Proof.
  split; [split_and!; [apply nestedPair_spanned|apply nestedPair_distinct|
                       reflexivity|reflexivity]|].
  exact (proj1 (X6_nearest_parent_is_direct_parent Derived.nestedPair 1%nat
                  (mkInterval "inner.h" 10 40 30) 0%nat (mkInterval "outer.h" 0 100 100)
                  nestedPair_spanned nestedPair_distinct eq_refl eq_refl)).
Defined.

End NestedPair.

(** ** The merged timeline *)

Section MergerMore.
Import Profiler.
Implicit Types (markers : list SourceMarker) (units : list (string * list SourceMarker)).

Lemma maxEndTime_bounds markers :
  0 <= maxEndTime markers /\ forall m, m ∈ markers -> endTime m <= maxEndTime markers.
Proof.
  destruct (maxEndTime_fold markers 0) as (H0 & Hall & _). by split.
Qed.

Lemma offsetBefore_mono units j k :
  (j <= k)%nat -> (k <= length units)%nat ->
  Spec.offsetBefore units j <= Spec.offsetBefore units k.
Proof.
  intros Hjk Hk. induction k as [|k IH].
  - replace j with 0%nat by lia. done.
  - destruct (decide (j = S k)) as [->|Hne]; [done|].
    destruct (lookup_lt_is_Some_2 units k ltac:(lia)) as [u Hu].
    rewrite (offsetBefore_S units k u Hu).
    pose proof (maxEndTime_bounds (snd u)) as [H0 _].
    specialize (IH ltac:(lia) ltac:(lia)). lia.
Qed.

(** X7: after the merger the units do not collide in time. When no
    marker starts before 0, every marker of an earlier unit ends no
    later than any marker of a later unit starts. *)
Theorem X7_merged_units_do_not_collide units j k uj uk m m' :
  (forall u x, u ∈ units -> x ∈ snd u -> 0 <= startTime x) ->
  (j < k)%nat ->
  snd (layout units) !! j = Some uj -> snd (layout units) !! k = Some uk ->
  m ∈ snd uj -> m' ∈ snd uk ->
  endTime m <= startTime m'.
Proof.
  intros Hpos Hjk Hj Hk Hm Hm'.
  assert (Hlen : length (snd (layout units)) = length units).
  { unfold layout. rewrite layout_fold. cbn. by rewrite length_imap. }
  assert (Hkl : (k < length units)%nat) by (rewrite <- Hlen; by eapply lookup_lt_Some).
  destruct (lookup_lt_is_Some_2 units j ltac:(lia)) as [u0 Hu0].
  destruct (lookup_lt_is_Some_2 units k Hkl) as [u1 Hu1].
  rewrite (layout_lookup units j u0 Hu0) in Hj.
  rewrite (layout_lookup units k u1 Hu1) in Hk. simplify_eq. cbn [snd] in *.
  apply list_elem_of_In, in_map_iff in Hm as (x & <- & Hx%list_elem_of_In).
  apply list_elem_of_In, in_map_iff in Hm' as (x' & <- & Hx'%list_elem_of_In).
  cbn [shift endTime startTime].
  pose proof (maxEndTime_bounds (snd u0)) as [_ Hmax]. specialize (Hmax x Hx).
  pose proof (offsetBefore_S units j u0 Hu0) as HS.
  pose proof (offsetBefore_mono units (S j) k ltac:(lia) ltac:(lia)) as Hmono.
  assert (0 <= startTime x').
  { apply (Hpos u1 x'); [|done]. apply list_elem_of_lookup. eauto. }
  lia.
Qed.

Lemma X7_merged_units_witness :
  let a := mkMarker "a.h" 0 500 500 ["a.h"] None in
  let b := mkMarker "b.h" 0 40 40 ["b.h"] None in
  let units := [("A", [a]); ("B", [b])] in
  endTime (shift 0 a) <= startTime (shift 500 b).
Proof.
  cbv zeta.
  apply (X7_merged_units_do_not_collide
           [("A", [mkMarker "a.h" 0 500 500 ["a.h"] None]);
            ("B", [mkMarker "b.h" 0 40 40 ["b.h"] None])]
           0 1
           ("A", [shift 0 (mkMarker "a.h" 0 500 500 ["a.h"] None)])
           ("B", [shift 500 (mkMarker "b.h" 0 40 40 ["b.h"] None)])).
  - intros u x Hu Hx. repeat (apply elem_of_cons in Hu as [->|Hu]);
      try (by apply elem_of_nil in Hu); cbn in Hx;
      repeat (apply elem_of_cons in Hx as [->|Hx]);
      try (by apply elem_of_nil in Hx); cbn; lia.
  - lia.
  - reflexivity.
  - reflexivity.
  - apply list_elem_of_here.
  - apply list_elem_of_here.
Defined.

(** The merger keeps the markers and their order, and changes nothing
    of a marker but its two timestamps, by the same amount. *)
Lemma shifted_shape (g : nat -> Z) units :
  Forall2 (fun x y => file y = file x /\ duration y = duration x /\ stack y = stack x /\
                      compilationUnit y = compilationUnit x /\
                      endTime y - startTime y = endTime x - startTime x)
          (concat (map snd units))
          (concat (map snd (imap (fun k u => (fst u, map (shift (g k)) (snd u))) units))).
Proof.
  revert g. induction units as [|u units IH]; intros g; [constructor|].
  rewrite imap_cons. cbn [map concat snd]. apply Forall2_app.
  - generalize (g 0%nat). intros off. induction (snd u) as [|x l IHl]; cbn;
      constructor; [|done].
    cbn. split_and!; try done. lia.
  - apply (IH (g ∘ S)).
Qed.

Lemma mergedMarkers_shape units :
  Forall2 (fun x y => file y = file x /\ duration y = duration x /\ stack y = stack x /\
                      compilationUnit y = compilationUnit x /\
                      endTime y - startTime y = endTime x - startTime x)
          (concat (map snd units)) (mergedMarkers units).
Proof.
  unfold mergedMarkers, layout. rewrite layout_fold. cbn [snd app].
  apply (shifted_shape (fun k => 0 + Spec.offsetBefore units k)).
Qed.

(** X8: the merger keeps every marker, in the order of the units, and
    changes nothing of a marker but its two timestamps, both by the
    same amount: file, self-duration, include chain and length are as
    they were. *)
Theorem X8_merger_keeps_markers units :
  length (mergedMarkers units) = length (concat (map snd units)) /\
  Forall2 (fun x y => file y = file x /\ duration y = duration x /\ stack y = stack x /\
                      compilationUnit y = compilationUnit x /\
                      endTime y - startTime y = endTime x - startTime x)
          (concat (map snd units)) (mergedMarkers units).
Proof.
  pose proof (mergedMarkers_shape units) as H. split; [|done].
  symmetry. by eapply Forall2_length.
Qed.

End MergerMore.

(** ** The samples *)

Section Samples.
Import Profiler.

Lemma processMarker_sample (marker : SourceMarker) (t : Tables) :
  sample_time (fst (processMarker marker t)) = endTime marker /\
  sample_weight (fst (processMarker marker t)) = duration marker.
Proof.
  unfold processMarker, bind, ret.
  destruct (Js.truthy (compilationUnit marker)).
  - destruct (getOrCreateFrame _ t) as [frameIndex t1].
    destruct (getOrCreateStack frameIndex None t1) as [stackIndex t2].
    by destruct (walkStack _ _ t2).
  - by destruct (walkStack _ _ t).
Qed.

Lemma processMarkers_samples (markers : list SourceMarker) (t : Tables) :
  map (fun s => (sample_time s, sample_weight s)) (fst (processMarkers markers t))
  = map (fun m => (endTime m, duration m)) markers.
Proof.
  revert t. induction markers as [|marker rest IH]; intros t; [done|].
  cbn [processMarkers]. unfold bind, ret.
  destruct (processMarker_sample marker t) as [Ht Hw].
  destruct (processMarker marker t) as [s t1]. cbn [fst] in Ht, Hw.
  specialize (IH t1). destruct (processMarkers rest t1) as [ss t2].
  cbn [fst map] in *. by rewrite Ht, Hw, IH.
Qed.

(** X9: [convertToProfiler] emits one sample per marker, at the
    marker's end time and with its self-duration as weight (both in
    the microseconds that are divided by 1000 on the way out), and the
    samples are in ascending order of time. *)
Theorem X9_one_sample_per_marker (sourceMarkers : list SourceMarker) :
  let samples := fst (convertToProfiler sourceMarkers) in
  length samples = length sourceMarkers /\
  map (fun s => (sample_time s, sample_weight s)) samples
    ≡ₚ map (fun m => (endTime m, duration m)) sourceMarkers /\
  StronglySorted Z.le (map sample_time samples).
Proof.
  cbv zeta. unfold convertToProfiler.
  set (cmp := fun a b : SourceMarker => endTime a - endTime b).
  pose proof (processMarkers_samples (Js.sort cmp sourceMarkers) initialTables) as Hs.
  split_and!.
  - apply (f_equal length) in Hs. rewrite !length_map in Hs.
    by rewrite Hs, sort_length.
  - rewrite Hs. change (map ?f ?l) with (f <$> l). by rewrite sort_Permutation.
  - assert (map sample_time (fst (processMarkers (Js.sort cmp sourceMarkers) initialTables))
            = map endTime (Js.sort cmp sourceMarkers)) as ->.
    { apply (f_equal (map fst)) in Hs. by rewrite !map_map in Hs. }
    apply (StronglySorted_map_elem (fun a b => endTime a <= endTime b)); [done|].
    apply (sort_sorted endTime cmp). intros a b. unfold cmp. lia.
Qed.

End Samples.

(** ** The tables read back *)

Section TablesMore.
Import Profiler.
Implicit Types (t : Tables) (r : Request) (rs : list Request) (F Fr : gset string)
  (St : gset (nat * option nat)).

Lemma numToString_not_null (n : Z) : Js.numToString n <> "null".
Proof.
  unfold Js.numToString. destruct (Z.to_int n) as [d|d] eqn:Hd; cbn; [|done].
  pose proof (to_int_nonnil n d Hd). by destruct d.
Qed.

(** The key of a stack determines its frame and its prefix. *)
Lemma stackKey_inj f p f' p' : stackKey f p = stackKey f' p' -> f = f' /\ p = p'.
Proof.
  unfold stackKey. intros [Hf Hp]%numToString_dash_split.
  split; [lia|]. destruct p as [q|], p' as [q'|].
  - apply numToString_inj in Hp. f_equal. lia.
  - by apply numToString_not_null in Hp.
  - symmetry in Hp. by apply numToString_not_null in Hp.
  - done.
Qed.

Lemma extends_refl t : Derived.extends t t.
Proof. by split_and!. Qed.

Lemma extends_trans t1 t2 t3 :
  Derived.extends t1 t2 -> Derived.extends t2 t3 -> Derived.extends t1 t3.
Proof.
  intros (A1 & A2 & A3 & A4) (B1 & B2 & B3 & B4). split_and!; by etrans.
Qed.

Lemma addString_more str t :
  stringTable t `prefix_of` stringTable (snd (addString str t)) /\
  (Derived.stringsFull t -> Derived.stringsFull (snd (addString str t))).
Proof.
  unfold addString. destruct (stringMap t !! str) as [index|] eqn:Hstr; cbn; [done|].
  split; [by apply prefix_app_r|]. intros Hfull i s Hi. cbn in Hi |- *.
  destruct (decide (i < length (stringTable t))%nat) as [Hlt|Hge].
  - rewrite lookup_app_l in Hi by done. pose proof (Hfull i s Hi) as Hs.
    rewrite lookup_insert_ne; [done|]. intros ->. congruence.
  - rewrite lookup_app_r in Hi by lia.
    destruct (i - length (stringTable t))%nat as [|n] eqn:Hn; [|done].
    cbn in Hi. injection Hi as ->. rewrite lookup_insert_eq. f_equal. lia.
Qed.

Lemma addString_frame_fields str t :
  let t' := snd (addString str t) in
  funcTable_name t' = funcTable_name t /\ frameTable_func t' = frameTable_func t /\
  stackTable_frame t' = stackTable_frame t /\ stackTable_prefix t' = stackTable_prefix t /\
  stackTable_length t' = stackTable_length t /\ stackCache t' = stackCache t /\
  frameTable_length t' = frameTable_length t.
Proof. unfold addString. by destruct (stringMap t !! str). Qed.

(** What [getOrCreateFunc] leaves as it is, and what it only adds to. *)
Lemma getOrCreateFunc_more name t :
  let t' := snd (getOrCreateFunc name t) in
  Derived.extends t t' /\
  (Derived.stringsFull t -> Derived.stringsFull t') /\
  Spec.stackRows t' = Spec.stackRows t /\ stackCache t' = stackCache t /\
  stackTable_length t' = stackTable_length t /\
  frameTable_length t' = frameTable_length t.
Proof.
  unfold getOrCreateFunc. destruct (funcCache t !! name) as [funcIndex|]; cbn [snd].
  - split_and!; try done; apply extends_refl.
  - unfold bind. destruct (addString_more name t) as [Hpre Hfull].
    pose proof (addString_frame_fields name t) as (E1 & E4 & E7 & E8 & E9 & E10 & E5).
    destruct (addString name t) as [nameIndex t1]. cbn [snd] in *.
    unfold pushFunc. cbn [snd]. unfold Derived.extends, Derived.stringsFull, Spec.stackRows.
    cbn. rewrite E1, E4, E7, E8, E9, E10, E5.
    split_and!; try done. by apply prefix_app_r.
Qed.

Lemma getOrCreateFrame_more name t :
  let t' := snd (getOrCreateFrame name t) in
  Derived.extends t t' /\
  (Derived.stringsFull t -> Derived.stringsFull t') /\
  Spec.stackRows t' = Spec.stackRows t /\ stackCache t' = stackCache t /\
  stackTable_length t' = stackTable_length t /\
  (frameTable_length t <= frameTable_length t')%nat.
Proof.
  unfold getOrCreateFrame. destruct (frameCache t !! name) as [frameIndex|]; cbn [snd].
  - split_and!; try done; apply extends_refl.
  - unfold bind. pose proof (getOrCreateFunc_more name t) as Hfn.
    destruct (getOrCreateFunc name t) as [funcIndex t1]. cbn [snd] in Hfn.
    destruct Hfn as ((A1 & A2 & A3 & A4) & Hfull & E1 & E2 & E3 & E4).
    unfold pushFrame. cbn [snd]. unfold Derived.extends, Derived.stringsFull, Spec.stackRows in *.
    cbn. rewrite E2, E3, E4. split_and!; try done; [by apply prefix_app_r|lia].
Qed.

Lemma getOrCreateStack_more f p t :
  length (stackTable_prefix t) = length (stackTable_frame t) ->
  let t' := snd (getOrCreateStack f p t) in
  Derived.extends t t' /\
  stringTable t' = stringTable t /\ stringMap t' = stringMap t /\
  frameTable_length t' = frameTable_length t /\
  (stackTable_length t <= stackTable_length t')%nat.
Proof.
  intros Hlen. unfold getOrCreateStack.
  destruct (stackCache t !! stackKey f p) as [stackIndex|]; cbn [snd].
  - split_and!; try done; apply extends_refl.
  - unfold Derived.extends. cbn. split_and!; try done; [|lia].
    rewrite stackRows_snoc by done. by apply prefix_app_r.
Qed.

Lemma stackRows_length t St :
  Spec.stackInv t St -> length (Spec.stackRows t) = stackTable_length t.
Proof.
  intros (S1 & S2 & _). unfold Spec.stackRows. rewrite length_zip_with. lia.
Qed.

Lemma getOrCreateStack_cacheInv f p t St :
  Spec.stackInv t St -> Derived.stackCacheInv t ->
  Derived.stackCacheInv (snd (getOrCreateStack f p t)).
Proof.
  intros HSt Hinv. pose proof (stackRows_length t St HSt) as Hlen.
  destruct HSt as (S1 & S2 & S3). unfold getOrCreateStack.
  destruct (stackCache t !! stackKey f p) as [stackIndex|] eqn:Hc; cbn [snd]; [done|].
  intros k i. unfold Spec.stackRows. cbn. rewrite stackRows_snoc by done.
  destruct (decide (k = stackKey f p)) as [->|Hne].
  - rewrite lookup_insert_eq. intros [= <-]. exists f, p. split; [|done].
    rewrite <- Hlen. by rewrite list_lookup_middle.
  - rewrite lookup_insert_ne by done. intros Hk.
    destruct (Hinv k i Hk) as (f0 & p0 & Hrow & Hkey). exists f0, p0. split; [|done].
    rewrite lookup_app_l; [done|]. by eapply lookup_lt_Some.
Qed.

Lemma serve_more r t F Fr St :
  Spec.tablesInv t F Fr St ->
  Derived.stringsFull t -> Derived.stackCacheInv t ->
  Derived.stringsFull (snd (serve r t)) /\ Derived.stackCacheInv (snd (serve r t)) /\
  Derived.extends t (snd (serve r t)).
Proof.
  intros (Hs & HFn & HFr & HSt) Hfull Hcache. destruct r as [n|n|f p]; cbn [serve].
  - destruct (getOrCreateFunc_more n t) as (Hext & Hf & E1 & E2 & _).
    split_and!; [by apply Hf| |done]. unfold Derived.stackCacheInv. by rewrite E1, E2.
  - destruct (getOrCreateFrame_more n t) as (Hext & Hf & E1 & E2 & _).
    split_and!; [by apply Hf| |done]. unfold Derived.stackCacheInv. by rewrite E1, E2.
  - pose proof HSt as (_ & S2 & _).
    destruct (getOrCreateStack_more f p t S2) as (Hext & E1 & E2 & _).
    split_and!; [|by eapply getOrCreateStack_cacheInv|done].
    unfold Derived.stringsFull. by rewrite E1, E2.
Qed.

Lemma serveAll_more rs t F Fr St :
  Spec.tablesInv t F Fr St ->
  Spec.funcKeys rs ⊆ F -> Spec.frameKeys rs ⊆ Fr -> Spec.stackKeys rs ⊆ St ->
  Derived.stringsFull t -> Derived.stackCacheInv t ->
  Derived.stringsFull (snd (serveAll rs t)) /\ Derived.stackCacheInv (snd (serveAll rs t)) /\
  Derived.extends t (snd (serveAll rs t)) /\
  (forall r a, Spec.cached t r = Some a -> Spec.cached (snd (serveAll rs t)) r = Some a).
Proof.
  revert t. induction rs as [|r rs IH]; intros t Hinv HF HFr HSt Hfull Hcache.
  - split_and!; try done; apply extends_refl.
  - destruct (keys_cons_subseteq r rs F Fr St HF HFr HSt)
      as ((A1 & A2 & A3) & (B1 & B2 & B3)).
    rewrite serveAll_cons. cbn [snd].
    destruct (serve_spec r t F Fr St Hinv A1 A2 A3) as (Hinv1 & _ & Hmono).
    destruct (serve_more r t F Fr St Hinv Hfull Hcache) as (Hfull1 & Hcache1 & Hext1).
    destruct (IH _ Hinv1 B1 B2 B3 Hfull1 Hcache1) as (Hfull2 & Hcache2 & Hext2 & Hmono2).
    split_and!; [done|done|by eapply extends_trans|].
    intros r' a Hr'. by apply Hmono2, Hmono.
Qed.

(** The index a request was answered with is in the cache of its key
    at the end of the run. *)
Lemma serveAll_answer_cached rs t F Fr St i r a :
  Spec.tablesInv t F Fr St ->
  Spec.funcKeys rs ⊆ F -> Spec.frameKeys rs ⊆ Fr -> Spec.stackKeys rs ⊆ St ->
  Derived.stringsFull t -> Derived.stackCacheInv t ->
  rs !! i = Some r -> fst (serveAll rs t) !! i = Some a ->
  Spec.cached (snd (serveAll rs t)) r = Some a.
Proof.
  revert t i. induction rs as [|r0 rs IH]; intros t i Hinv HF HFr HSt Hfull Hcache Hi Ha;
    [done|].
  destruct (keys_cons_subseteq r0 rs F Fr St HF HFr HSt)
    as ((A1 & A2 & A3) & (B1 & B2 & B3)).
  rewrite serveAll_cons in Ha |- *. cbn [fst snd] in Ha |- *.
  destruct (serve_spec r0 t F Fr St Hinv A1 A2 A3) as (Hinv1 & Hans & Hmono).
  destruct (serve_more r0 t F Fr St Hinv Hfull Hcache) as (Hfull1 & Hcache1 & Hext1).
  destruct i as [|i]; cbn in Hi, Ha.
  - simplify_eq.
    by apply (serveAll_more rs _ F Fr St Hinv1 B1 B2 B3 Hfull1 Hcache1).
  - by apply (IH _ i Hinv1).
Qed.

(** An index in a cache leads back to the key it is cached for. *)
Lemma cached_resolves t F Fr St r a :
  Spec.tablesInv t F Fr St -> Derived.stackCacheInv t ->
  Spec.cached t r = Some a -> Reader.resolves t r a.
Proof.
  intros (Hs & (_ & _ & _ & F4 & _) & (_ & _ & _ & R4 & _) & _) Hcache.
  destruct r as [n|n|f p]; cbn [Spec.cached Reader.resolves]; intros Hc.
  - destruct (F4 n a Hc) as (si & Hrow & Hsi). unfold Reader.funcName. rewrite Hrow.
    by apply Hs.
  - destruct (R4 n a Hc) as (fi & Hrow & Hfi). unfold Reader.frameName. rewrite Hrow.
    destruct (F4 n fi Hfi) as (si & Hrow' & Hsi). unfold Reader.funcName. rewrite Hrow'.
    by apply Hs.
  - destruct (Hcache _ a Hc) as (f' & p' & Hrow & Hkey).
    by apply stackKey_inj in Hkey as [-> ->].
Qed.

Lemma initial_more :
  Derived.stringsFull initialTables /\ Derived.stackCacheInv initialTables.
Proof.
  split.
  - intros [|i] s; cbn; [|done]. intros [= <-]. by rewrite lookup_singleton_eq.
  - intros k i. cbn. done.
Qed.

(** The state at the end of a run of requests. *)
Lemma run_state rs :
  let t := snd (serveAll rs initialTables) in
  Spec.tablesInv t (Spec.funcKeys rs) (Spec.frameKeys rs) (Spec.stackKeys rs) /\
  Derived.stringsFull t /\ Derived.stackCacheInv t /\ Derived.extends initialTables t.
Proof.
  cbv zeta.
  assert (Hinit : Spec.tablesInv initialTables (Spec.funcKeys rs) (Spec.frameKeys rs)
                                 (Spec.stackKeys rs)).
  { eapply tablesInv_mono; [..|apply tablesInv_initial]; apply empty_subseteq. }
  destruct initial_more as [Hfull Hcache].
  destruct (serveAll_more rs _ _ _ _ Hinit ltac:(done) ltac:(done) ltac:(done) Hfull Hcache)
    as (H1 & H2 & H3 & _).
  split_and!; [|done..]. by apply serveAll_inv.
Qed.

(** X10: the string table never holds a string twice and keeps the
    empty string at index 0; the string map and the string table say
    the same: a string is mapped to an index exactly when the table
    holds it at that index. *)
Theorem X10_string_table_interned rs :
  let t := snd (serveAll rs initialTables) in
  stringTable t !! 0%nat = Some "" /\
  NoDup (stringTable t) /\
  forall s i, stringMap t !! s = Some i <-> stringTable t !! i = Some s.
Proof.
  cbv zeta. destruct (run_state rs) as ((Hs & _) & Hfull & _ & (Hpre & _)).
  split_and!.
  - by apply (prefix_lookup_Some _ _ _ _ (eq_refl : stringTable initialTables !! 0%nat = Some "")).
  - apply NoDup_alt. intros i j s Hi Hj. apply Hfull in Hi, Hj. congruence.
  - intros s i. split; [apply Hs|apply Hfull].
Qed.

(** X11: the index a request is answered with leads back to its key:
    the function and frame indices to the name, through the string
    table, the stack index to the row of the frame and prefix asked
    for. So two requests to one table that get the same index have the
    same key. *)
Theorem X11_index_resolves_to_key rs :
  let answers := fst (serveAll rs initialTables) in
  let t := snd (serveAll rs initialTables) in
  (forall i r a, rs !! i = Some r -> answers !! i = Some a -> Reader.resolves t r a) /\
  (forall i j r r' a, rs !! i = Some r -> rs !! j = Some r' -> Derived.sameTable r r' ->
     answers !! i = Some a -> answers !! j = Some a -> r = r').
Proof.
  cbv zeta. destruct (run_state rs) as (Hinv & Hfull & Hcache & _).
  assert (Hinit : Spec.tablesInv initialTables (Spec.funcKeys rs) (Spec.frameKeys rs)
                                 (Spec.stackKeys rs)).
  { eapply tablesInv_mono; [..|apply tablesInv_initial]; apply empty_subseteq. }
  destruct initial_more as [Hfull0 Hcache0].
  assert (Hres : forall i r a, rs !! i = Some r ->
            fst (serveAll rs initialTables) !! i = Some a ->
            Reader.resolves (snd (serveAll rs initialTables)) r a).
  { intros i r a Hi Ha. apply (cached_resolves _ _ _ _ r a Hinv Hcache).
    by apply (serveAll_answer_cached rs _ _ _ _ i r a Hinit). }
  split; [exact Hres|].
  intros i j r r' a Hi Hj Hsame Hai Haj.
  pose proof (Hres i r a Hi Hai) as H1. pose proof (Hres j r' a Hj Haj) as H2.
  destruct r as [n|n|f p], r' as [n'|n'|f' p']; cbn in Hsame, H1, H2; try done;
    congruence.
Qed.

End TablesMore.

(** ** A run of [convertToProfiler]: well-formed tables, stacks read back *)

Section RunMore.
Import Profiler.
Implicit Types (t : Tables) (F Fr : gset string) (St : gset (nat * option nat)).

Lemma runInv_initial : Derived.runInv initialTables.
Proof.
  destruct initial_more as [Hfull Hcache]. split_and!; [|done|done|].
  - exists ∅, ∅, ∅. apply tablesInv_initial.
  - intros i f p. cbn. done.
Qed.

Lemma getOrCreateFrame_run name t :
  Derived.runInv t ->
  let f := fst (getOrCreateFrame name t) in
  let t' := snd (getOrCreateFrame name t) in
  Derived.runInv t' /\ Derived.extends t t' /\
  (f < frameTable_length t')%nat /\ Reader.frameName t' f = Some name /\
  stackTable_length t' = stackTable_length t.
Proof.
  intros ((F & Fr & St & Hinv) & Hfull & Hcache & Hwf). cbv zeta.
  assert (Hinv' : Spec.tablesInv t (F ∪ {[name]}) (Fr ∪ {[name]}) St).
  { eapply tablesInv_mono; [..|exact Hinv]; [apply union_subseteq_l..|done]. }
  destruct (getOrCreateFrame_spec name t _ _ _ Hinv') as (Hinv1 & Hans & _);
    [apply elem_of_union_r; by apply elem_of_singleton..|].
  destruct (serve_more (GetFrame name) t _ _ _ Hinv' Hfull Hcache)
    as (Hfull1 & Hcache1 & Hext). cbn [serve] in *.
  destruct (getOrCreateFrame_more name t) as (_ & _ & E1 & E2 & E3 & Hle).
  assert (Hres : Reader.resolves (snd (getOrCreateFrame name t)) (GetFrame name)
                   (fst (getOrCreateFrame name t)))
    by (by eapply cached_resolves).
  cbn in Hres. split_and!; [|done| |done|done].
  - split_and!; [by eauto|done|done|].
    intros i f p. rewrite E1. intros Hrow. destruct (Hwf i f p Hrow). split; [lia|done].
  - destruct Hinv1 as (_ & _ & (R1 & _ & _ & R4 & _) & _).
    destruct (R4 _ _ Hans) as (fi & Hrow & _). rewrite R1. by eapply lookup_lt_Some.
Qed.

Lemma getOrCreateStack_run f p t :
  Derived.runInv t -> (f < frameTable_length t)%nat -> Derived.validStack t p ->
  let i := fst (getOrCreateStack f p t) in
  let t' := snd (getOrCreateStack f p t) in
  Derived.runInv t' /\ Derived.extends t t' /\
  (i < stackTable_length t')%nat /\ Spec.stackRows t' !! i = Some (f, p) /\
  frameTable_length t' = frameTable_length t.
Proof.
  intros ((F & Fr & St & Hinv) & Hfull & Hcache & Hwf) Hf Hp. cbv zeta.
  assert (Hinv' : Spec.tablesInv t F Fr (St ∪ {[(f, p)]})).
  { eapply tablesInv_mono; [..|exact Hinv]; [done..|apply union_subseteq_l]. }
  destruct (getOrCreateStack_spec f p t _ _ _ Hinv') as (Hinv1 & Hans & _);
    [apply elem_of_union_r; by apply elem_of_singleton|].
  destruct (serve_more (GetStack f p) t _ _ _ Hinv' Hfull Hcache)
    as (Hfull1 & Hcache1 & Hext). cbn [serve] in *.
  pose proof Hinv' as (_ & _ & _ & HSt). pose proof HSt as (S1 & S2 & S3).
  destruct (getOrCreateStack_more f p t S2) as (_ & _ & _ & E4 & Hle).
  assert (Hres : Reader.resolves (snd (getOrCreateStack f p t)) (GetStack f p)
                   (fst (getOrCreateStack f p t)))
    by (by eapply cached_resolves).
  cbn in Hres. pose proof Hinv1 as (_ & _ & _ & HSt1).
  pose proof (stackRows_length _ _ HSt1) as Hlen1.
  pose proof (stackRows_length _ _ HSt) as Hlen.
  split_and!; [|done| |done|done].
  - split_and!; [by eauto|done|done|].
    intros i f' p' Hrow. rewrite E4.
    destruct (decide (i < length (Spec.stackRows t))%nat) as [Hlt|Hge].
    + destruct Hext as (_ & _ & _ & [k Hk]). rewrite Hk, lookup_app_l in Hrow by done.
      by apply Hwf.
    + revert Hrow Hlen1. unfold getOrCreateStack.
      destruct (stackCache t !! stackKey f p) as [stackIndex|]; cbn [snd].
      * intros Hrow _. apply lookup_lt_Some in Hrow. lia.
      * unfold Spec.stackRows at 1 2. cbn. rewrite stackRows_snoc by done.
        intros Hrow _. rewrite lookup_app_r in Hrow by lia.
        destruct (i - length (Spec.stackRows t))%nat as [|n] eqn:Hn; [|done].
        cbn in Hrow. injection Hrow as <- <-. split; [done|].
        intros q Hq. specialize (Hp q Hq). lia.
  - rewrite <- Hlen1. by eapply lookup_lt_Some.
Qed.

Lemma stackNames_fuel t n n' s l :
  Reader.stackNames t n s = Some l -> (n <= n')%nat -> Reader.stackNames t n' s = Some l.
Proof.
  revert n' s l. induction n as [|n IH]; intros n' s l Hs Hle.
  - destruct s as [i|]; cbn in Hs; [done|]. by destruct n'.
  - destruct s as [i|]; [|by destruct n'].
    destruct n' as [|n']; [lia|]. cbn in Hs |- *.
    destruct (Spec.stackRows t !! i) as [[f p]|]; [|done].
    destruct (Reader.frameName t f) as [name|]; [|done].
    destruct (Reader.stackNames t n p) as [rest|] eqn:Hrest; [|done].
    by rewrite (IH n' p rest Hrest ltac:(lia)).
Qed.

Lemma frameName_extends t t' f name :
  Derived.extends t t' -> Reader.frameName t f = Some name ->
  Reader.frameName t' f = Some name.
Proof.
  intros (P1 & P2 & P3 & _). unfold Reader.frameName, Reader.funcName.
  destruct (frameTable_func t !! f) as [fi|] eqn:Hfi; [|done].
  rewrite (prefix_lookup_Some _ _ _ _ Hfi P3).
  destruct (funcTable_name t !! fi) as [si|] eqn:Hsi; [|done].
  rewrite (prefix_lookup_Some _ _ _ _ Hsi P2).
  intros Hs. by rewrite (prefix_lookup_Some _ _ _ _ Hs P1).
Qed.

(** What was read from a stack stays readable after more rows were
    added. *)
Lemma stackNames_extends t t' n s l :
  Derived.extends t t' -> Reader.stackNames t n s = Some l ->
  Reader.stackNames t' n s = Some l.
Proof.
  intros Hext. revert s l. induction n as [|n IH]; intros s l Hs.
  - by destruct s.
  - destruct s as [i|]; [|done]. cbn in Hs |- *.
    destruct (Spec.stackRows t !! i) as [[f p]|] eqn:Hrow; [|done].
    pose proof Hext as (_ & _ & _ & P4). rewrite (prefix_lookup_Some _ _ _ _ Hrow P4).
    destruct (Reader.frameName t f) as [name|] eqn:Hname; [|done].
    rewrite (frameName_extends t t' f name Hext Hname).
    destruct (Reader.stackNames t n p) as [rest|] eqn:Hrest; [|done].
    by rewrite (IH p rest Hrest).
Qed.

(** Reading a row: the names of its prefix, then the name of its frame. *)
Lemma stackNames_row t i f p name pre :
  Derived.stackWf t ->
  Spec.stackRows t !! i = Some (f, p) -> Reader.frameName t f = Some name ->
  Reader.stackNames t (Derived.depthFuel p) p = Some pre ->
  Reader.stackNames t (S i) (Some i) = Some (pre ++ [name]).
Proof.
  intros Hwf Hrow Hname Hpre. cbn. rewrite Hrow, Hname.
  destruct (Hwf i f p Hrow) as [_ Hlt].
  assert (Reader.stackNames t i p = Some pre) as ->; [|done].
  apply (stackNames_fuel t (Derived.depthFuel p)); [done|].
  destruct p as [q|]; cbn; [|lia]. specialize (Hlt q eq_refl). lia.
Qed.

Lemma extends_lengths t t' :
  Derived.runInv t -> Derived.runInv t' -> Derived.extends t t' ->
  (stackTable_length t <= stackTable_length t')%nat.
Proof.
  intros ((F & Fr & St & (_ & _ & _ & HSt)) & _) ((F' & Fr' & St' & (_ & _ & _ & HSt')) & _)
         (_ & _ & _ & P4).
  rewrite <- (stackRows_length _ _ HSt), <- (stackRows_length _ _ HSt').
  by apply prefix_length.
Qed.

Lemma walkStack_run (includeStack : list string) cur t pre :
  Derived.runInv t -> Derived.validStack t cur ->
  Reader.stackNames t (Derived.depthFuel cur) cur = Some pre ->
  let cur' := fst (walkStack includeStack cur t) in
  let t' := snd (walkStack includeStack cur t) in
  Derived.runInv t' /\ Derived.extends t t' /\ Derived.validStack t' cur' /\
  Reader.stackNames t' (Derived.depthFuel cur') cur' = Some (pre ++ includeStack).
Proof.
  revert cur t pre. induction includeStack as [|filePath rest IH];
    intros cur t pre Hrun Hvalid Hpre; cbv zeta.
  - cbn. rewrite app_nil_r. split_and!; try done; apply extends_refl.
  - cbn [walkStack]. unfold bind.
    pose proof (getOrCreateFrame_run filePath t Hrun) as Hframe.
    destruct (getOrCreateFrame filePath t) as [f t1]. cbn [fst snd] in Hframe.
    destruct Hframe as (Hrun1 & Hext1 & Hf & Hname & Hlen1).
    assert (Hvalid1 : Derived.validStack t1 cur).
    { intros q Hq. rewrite Hlen1. by apply Hvalid. }
    pose proof (getOrCreateStack_run f cur t1 Hrun1 Hf Hvalid1) as Hstack.
    destruct (getOrCreateStack f cur t1) as [i t2]. cbn [fst snd] in Hstack.
    destruct Hstack as (Hrun2 & Hext2 & Hi & Hrow & _).
    assert (Hpre2 : Reader.stackNames t2 (Derived.depthFuel (Some i)) (Some i)
                    = Some (pre ++ [filePath])).
    { pose proof Hrun2 as (_ & _ & _ & Hwf2).
      apply (stackNames_row t2 i f cur filePath pre Hwf2 Hrow).
      - by apply (frameName_extends t1 t2).
      - apply (stackNames_extends t t2); [by eapply extends_trans|done]. }
    assert (Hvalid2 : Derived.validStack t2 (Some i)) by (by intros q [= <-]).
    destruct (IH (Some i) t2 (pre ++ [filePath]) Hrun2 Hvalid2 Hpre2)
      as (Hrun3 & Hext3 & Hvalid3 & Hnames).
    split_and!; [done| |done|].
    + by repeat (eapply extends_trans; [eassumption|]).
    + by rewrite <- app_assoc in Hnames.
Qed.

Lemma processMarker_run (marker : SourceMarker) t :
  Derived.runInv t ->
  let s := fst (processMarker marker t) in
  let t' := snd (processMarker marker t) in
  Derived.runInv t' /\ Derived.extends t t' /\ Derived.validStack t' (sample_stack s) /\
  Reader.stackNames t' (Derived.depthFuel (sample_stack s)) (sample_stack s)
  = Some (Reader.markerNames marker).
Proof.
  intros Hrun. cbv zeta. unfold processMarker, bind, ret, Reader.markerNames.
  destruct (Js.truthy (compilationUnit marker)).
  - pose proof (getOrCreateFrame_run (default "" (compilationUnit marker)) t Hrun) as Hframe.
    destruct (getOrCreateFrame _ t) as [f t1]. cbn [fst snd] in Hframe.
    destruct Hframe as (Hrun1 & Hext1 & Hf & Hname & Hlen1).
    assert (Hvalid1 : Derived.validStack t1 None) by (by intros q).
    pose proof (getOrCreateStack_run f None t1 Hrun1 Hf Hvalid1) as Hstack.
    destruct (getOrCreateStack f None t1) as [i t2]. cbn [fst snd] in Hstack.
    destruct Hstack as (Hrun2 & Hext2 & Hi & Hrow & _).
    assert (Hpre2 : Reader.stackNames t2 (Derived.depthFuel (Some i)) (Some i)
                    = Some ([] ++ [default "" (compilationUnit marker)])).
    { pose proof Hrun2 as (_ & _ & _ & Hwf2).
      apply (stackNames_row t2 i f None _ [] Hwf2 Hrow); [|done].
      by apply (frameName_extends t1 t2). }
    assert (Hvalid2 : Derived.validStack t2 (Some i)) by (by intros q [= <-]).
    pose proof (walkStack_run (stack marker) (Some i) t2 _ Hrun2 Hvalid2 Hpre2) as Hwalk.
    destruct (walkStack (stack marker) (Some i) t2) as [cur t3]. cbn [fst snd] in *.
    destruct Hwalk as (Hrun3 & Hext3 & Hvalid3 & Hnames).
    split_and!; [done| |done|done].
    by repeat (eapply extends_trans; [eassumption|]).
  - assert (Hvalid : Derived.validStack t None) by (by intros q).
    pose proof (walkStack_run (stack marker) None t [] Hrun Hvalid eq_refl) as Hwalk.
    destruct (walkStack (stack marker) None t) as [cur t3]. cbn [fst snd] in *.
    done.
Qed.

Lemma processMarkers_run (markers : list SourceMarker) t :
  Derived.runInv t ->
  let samples := fst (processMarkers markers t) in
  let t' := snd (processMarkers markers t) in
  Derived.runInv t' /\ Derived.extends t t' /\
  Forall2 (fun m s =>
             Derived.validStack t' (sample_stack s) /\
             Reader.stackNames t' (stackTable_length t') (sample_stack s)
             = Some (Reader.markerNames m))
          markers samples.
Proof.
  revert t. induction markers as [|marker rest IH]; intros t Hrun; cbv zeta.
  - cbn. split_and!; [done|apply extends_refl|constructor].
  - cbn [processMarkers]. unfold bind, ret.
    pose proof (processMarker_run marker t Hrun) as H1.
    destruct (processMarker marker t) as [s t1]. cbn [fst snd] in H1.
    destruct H1 as (Hrun1 & Hext1 & Hvalid1 & Hnames1).
    pose proof (IH t1 Hrun1) as H2.
    destruct (processMarkers rest t1) as [ss t2]. cbn [fst snd] in *.
    destruct H2 as (Hrun2 & Hext2 & Hall).
    pose proof (extends_lengths t1 t2 Hrun1 Hrun2 Hext2) as Hle.
    split_and!; [done|by eapply extends_trans|]. constructor; [|done].
    assert (Hvalid2 : Derived.validStack t2 (sample_stack s)).
    { intros q Hq. specialize (Hvalid1 q Hq). lia. }
    split; [done|].
    apply (stackNames_fuel t2 (Derived.depthFuel (sample_stack s))).
    + by apply (stackNames_extends t1 t2).
    + destruct (sample_stack s) as [q|]; cbn; [|lia]. specialize (Hvalid2 q eq_refl). lia.
Qed.

(** X12: the tables [convertToProfiler] returns are well formed. Every
    index stored in a table is in range: the frame of a stack row is a
    row of the frame table, the function of a frame a row of the
    function table, the name of a function an index of the string
    table, and the stack of a sample a row of the stack table; and the
    prefix of a stack row is an earlier row, so that following prefixes
    always ends. *)
Theorem X12_profile_tables_well_formed (sourceMarkers : list SourceMarker) :
  let samples := fst (convertToProfiler sourceMarkers) in
  let t := snd (convertToProfiler sourceMarkers) in
  (forall i f p, Spec.stackRows t !! i = Some (f, p) ->
     (f < length (frameTable_func t))%nat /\ forall q, p = Some q -> (q < i)%nat) /\
  (forall i fi, frameTable_func t !! i = Some fi -> (fi < length (funcTable_name t))%nat) /\
  (forall i si, funcTable_name t !! i = Some si -> (si < length (stringTable t))%nat) /\
  Forall (fun s => forall q, sample_stack s = Some q ->
                             (q < length (Spec.stackRows t))%nat) samples /\
  (stackTable_length t = length (Spec.stackRows t) /\
   frameTable_length t = length (frameTable_func t) /\
   funcTable_length t = length (funcTable_name t)).
Proof.
  cbv zeta. unfold convertToProfiler.
  set (sorted := Js.sort _ sourceMarkers).
  destruct (processMarkers_run sorted initialTables runInv_initial)
    as (((F & Fr & St & Hinv) & Hfull & Hcache & Hwf) & _ & Hall).
  pose proof Hinv as (Hs & (F1 & _ & _ & F4 & F5) & (R1 & _ & _ & R4 & R5) & HSt).
  pose proof (stackRows_length _ _ HSt) as Hlen.
  split_and!.
  - intros i f p Hrow. rewrite <- R1. by apply Hwf.
  - intros i fi Hi.
    destruct (R5 i) as (n & Hn); [rewrite R1; by eapply lookup_lt_Some|].
    destruct (R4 n i Hn) as (fi' & Hrow & Hfi). simplify_eq.
    destruct (F4 n fi Hfi) as (si & Hrow' & _). by eapply lookup_lt_Some.
  - intros i si Hi.
    destruct (F5 i) as (n & Hn); [rewrite F1; by eapply lookup_lt_Some|].
    destruct (F4 n i Hn) as (si' & Hrow & Hsi). simplify_eq.
    apply Hs in Hsi. by eapply lookup_lt_Some.
  - rewrite Hlen. revert Hall.
    generalize (snd (processMarkers sorted initialTables)) as t.
    generalize (fst (processMarkers sorted initialTables)) as samples.
    generalize sorted as ms. clear. intros ms samples t Hall.
    induction Hall as [|m s ms ss [Hv _] _ IH]; constructor; done.
  - done.
  - done.
  - done.
Qed.

(** X13: the stack of a sample reads back as the include chain of its
    marker. Following the prefixes of the sample's stack row up to the
    root and taking the name of each frame, through the function table
    and the string table, gives the compilation unit of the marker, if
    it has one, followed by its include chain, outermost first. *)
Theorem X13_sample_stack_reads_back (sourceMarkers : list SourceMarker) :
  let samples := fst (convertToProfiler sourceMarkers) in
  let t := snd (convertToProfiler sourceMarkers) in
  Forall2 (fun m s =>
             Reader.stackNames t (stackTable_length t) (sample_stack s)
             = Some (Reader.markerNames m))
          (Js.sort (fun a b => endTime a - endTime b) sourceMarkers) samples.
Proof.
  cbv zeta. unfold convertToProfiler.
  set (sorted := Js.sort _ sourceMarkers).
  destruct (processMarkers_run sorted initialTables runInv_initial) as (_ & _ & Hall).
  eapply Forall2_impl; [exact Hall|]. by intros m s [_ H].
Qed.

End RunMore.

(** ** The dashboard document *)

Section DashboardMore.
Import Dashboard.
Implicit Types (inputs : list (string * list Trace.RawEvent)) (incs : list Include).

Lemma deltas_length prev (l : list Z) : length (Spec.deltas prev l) = length l.
Proof. revert prev. induction l as [|x l IH]; intros prev; cbn; [done|]. by rewrite IH. Qed.

Lemma encodeUnit_arrays (ids : gmap string nat) incs :
  fileIds (encodeUnit ids incs) = map (fun inc => idOf ids (file inc)) incs /\
  startTimes (encodeUnit ids incs)
  = Spec.deltas 0 (map (fun inc => Js.roundDiv1000 (startTime inc)) incs) /\
  durations (encodeUnit ids incs) = map (fun inc => Js.roundDiv1000 (duration inc)) incs /\
  parentFileIds (encodeUnit ids incs) = map (parentIdOf ids) incs.
Proof.
  unfold encodeUnit.
  destruct (encode_fold ids incs (mkArrays 0 [] [] [] [])) as (H1 & H2 & H3).
  rewrite H1, H2, H3, startTimes_fold. done.
Qed.

(** A unit of the run: the includes of a trace with at least one
    interval, in chronological order. *)
Lemma unitsOf_shape inputs cu :
  cu ∈ Spec.unitsOf inputs ->
  exists events,
    Trace.matchIntervals events <> [] /\
    snd cu = Js.sort (fun a b => startTime a - startTime b)
                     (buildIncludeHierarchy (Trace.matchIntervals events)).
Proof.
  unfold Spec.unitsOf. rewrite list_elem_of_In, in_flat_map.
  intros (input & _ & Hcu). exists (snd input).
  destruct (Trace.matchIntervals (snd input)) as [|iv ivs] eqn:Hm; [done|].
  destruct Hcu as [<-|[]]. done.
Qed.

Lemma main_eq inputs :
  main inputs
  = let files := filesArray (snd (collect inputs)) in
    let cus := sortUnits (Spec.unitsOf inputs) in
    mkOutput (length cus) (length (concat (map snd cus))) (map fst cus) files
             (map (fun cu => encodeUnit (fileToId files) (snd cu)) cus).
Proof. unfold main. rewrite collect_eq. done. Qed.

Lemma Forall2_map_same {A B} (P : A -> B -> Prop) (f : A -> B) (l : list A) :
  (forall x, x ∈ l -> P x (f x)) -> Forall2 P l (map f l).
Proof.
  induction l as [|x l IH]; intros H; cbn; constructor.
  - apply H, list_elem_of_here.
  - apply IH. intros y Hy. by apply H, list_elem_of_further.
Qed.

(** X14: the arrays of the dashboard document are aligned. There is
    one name and one group of arrays per trace with at least one
    interval, none lost and none twice, in descending order of the
    number of includes; the four arrays of a unit have one entry per
    include of the unit, and the totals of the metadata count the units
    and the includes. *)
Theorem X14_dashboard_arrays_aligned inputs :
  let out := main inputs in
  let units := sortUnits (Spec.unitsOf inputs) in
  units ≡ₚ Spec.unitsOf inputs /\
  names out = map fst units /\
  totalCompilationUnits out = length (includes out) /\
  Forall2 (fun cu a =>
             (1 <= length (snd cu))%nat /\
             length (fileIds a) = length (snd cu) /\
             length (startTimes a) = length (snd cu) /\
             length (durations a) = length (snd cu) /\
             length (parentFileIds a) = length (snd cu))
          units (includes out) /\
  totalIncludes out = sum_list (map (fun a => length (fileIds a)) (includes out)) /\
  (forall u v cu cv, (u <= v)%nat -> units !! u = Some cu -> units !! v = Some cv ->
     (length (snd cv) <= length (snd cu))%nat).
Proof.
  cbv zeta. rewrite main_eq. cbv zeta. cbn [names totalCompilationUnits includes totalIncludes].
  set (cmp := fun a b : string * list Include =>
                Z.of_nat (length (snd b)) - Z.of_nat (length (snd a))).
  assert (Hperm : sortUnits (Spec.unitsOf inputs) ≡ₚ Spec.unitsOf inputs)
    by apply sort_Permutation.
  split_and!.
  - done.
  - done.
  - by rewrite length_map.
  - apply Forall2_map_same. intros cu Hcu. rewrite Hperm in Hcu.
    destruct (encodeUnit_arrays (fileToId (filesArray (snd (collect inputs)))) (snd cu))
      as (-> & -> & -> & ->).
    rewrite deltas_length, !length_map. split_and!; try done.
    destruct (unitsOf_shape inputs cu Hcu) as (events & Hne & ->).
    rewrite sort_length. unfold buildIncludeHierarchy. rewrite length_imap.
    destruct (Trace.matchIntervals events); [done|cbn; lia].
  - rewrite map_map. clear Hperm.
    induction (sortUnits (Spec.unitsOf inputs)) as [|cu cus IH]; [done|].
    cbn [map concat sum_list]. rewrite length_app, IH. f_equal.
    destruct (encodeUnit_arrays (fileToId (filesArray (snd (collect inputs)))) (snd cu))
      as (-> & _). unfold id. by rewrite length_map.
  - intros u v cu cv Huv Hu Hv. destruct (decide (u = v)) as [->|Hne]; [by simplify_eq|].
    pose proof (sort_sorted (fun a : string * list Include => - Z.of_nat (length (snd a)))
                  cmp ltac:(intros a b; unfold cmp; lia) (Spec.unitsOf inputs)) as Hsorted.
    pose proof (StronglySorted_lookup _ _ u v _ _ Hsorted ltac:(lia) Hu Hv) as Hle.
    cbn in Hle. lia.
Qed.

(** What the dictionary holds: no file twice, the own file of every
    include of the run, and every parent file the encoder looks up. *)
Lemma dictionary_facts inputs :
  let dictionary := filesArray (snd (collect inputs)) in
  NoDup dictionary /\
  forall cu inc, cu ∈ Spec.unitsOf inputs -> inc ∈ snd cu ->
    file inc ∈ dictionary /\
    (Js.truthy (parentFile inc) = true -> default "" (parentFile inc) ∈ dictionary).
Proof.
  cbv zeta. rewrite collect_eq. cbn [snd].
  set (units := Spec.unitsOf inputs).
  set (usage := fold_left countInclude (concat (map snd units)) []).
  destruct (count_fold (concat (map snd units)) []) as (Hnd & Hkeys & _).
  fold usage in Hnd, Hkeys. specialize (Hnd (NoDup_nil_2)).
  set (cmp := fun a b : string * Z => snd b - snd a).
  assert (Hperm : Js.sort cmp usage ≡ₚ usage) by apply sort_Permutation.
  unfold filesArray. fold cmp.
  assert (Hdict : forall f, f ∈ map fst (Js.sort cmp usage) <-> f ∈ map fst usage).
  { intros f. change (map fst (Js.sort cmp usage)) with (fst <$> Js.sort cmp usage).
    by rewrite Hperm. }
  split.
  { change (map fst (Js.sort cmp usage)) with (fst <$> Js.sort cmp usage).
    by rewrite Hperm. }
  intros cu inc Hcu Hinc.
  assert (Hconcat : inc ∈ concat (map snd units)).
  { apply list_elem_of_In, in_concat. exists (snd cu).
    split; [apply in_map; by apply list_elem_of_In|by apply list_elem_of_In]. }
  split.
  - apply Hdict, Hkeys. right. exists inc. split; [done|by left].
  - intros Ht. apply Hdict, Hkeys. right. exists inc. split; [done|by right].
Qed.

Lemma readId_idOf (dictionary : list string) f :
  NoDup dictionary -> f ∈ dictionary ->
  Reader.readId dictionary (idOf (fileToId dictionary) f) = Some (Some f).
Proof.
  intros Hnd (i & Hi)%list_elem_of_lookup.
  unfold idOf. rewrite (fileToId_lookup _ _ _ Hnd Hi). cbn.
  destruct (Z.eqb_spec (Z.of_nat i) (-1)) as [?|_]; [lia|].
  destruct (Z.leb_spec 0 (Z.of_nat i)) as [_|?]; [|lia].
  by rewrite Nat2Z.id, Hi.
Qed.

(** X15: the numeric ids of the dashboard document read back through
    its file dictionary. For every unit, looking up each entry of
    [fileIds] in [files] gives the file of the include at that
    position, and each entry of [parentFileIds] gives the file of its
    nearest parent, or is the sentinel -1 where the include has no
    parent file; no entry is undefined or out of range. *)
Theorem X15_file_ids_read_back inputs :
  let out := main inputs in
  Forall2 (fun cu a =>
             map (Reader.readId (files out)) (fileIds a)
             = map (fun inc => Some (Some (file inc))) (snd cu) /\
             map (Reader.readId (files out)) (parentFileIds a)
             = map (fun inc => Some (if Js.truthy (parentFile inc)
                                     then parentFile inc else None)) (snd cu))
          (sortUnits (Spec.unitsOf inputs)) (includes out).
Proof.
  cbv zeta. rewrite main_eq. cbv zeta. cbn [files includes].
  destruct (dictionary_facts inputs) as (Hnd & Hin).
  apply Forall2_map_same. intros cu Hcu.
  assert (Hcu' : cu ∈ Spec.unitsOf inputs).
  { unfold sortUnits in Hcu. by rewrite sort_Permutation in Hcu. }
  destruct (encodeUnit_arrays (fileToId (filesArray (snd (collect inputs)))) (snd cu))
    as (-> & _ & _ & ->).
  rewrite !map_map. split.
  - apply map_ext_in. intros inc Hinc%list_elem_of_In.
    apply readId_idOf; [done|]. by apply (Hin cu inc).
  - apply map_ext_in. intros inc Hinc%list_elem_of_In.
    unfold parentIdOf. destruct (Js.truthy (parentFile inc)) eqn:Ht; [|done].
    rewrite readId_idOf; [|done|by apply (Hin cu inc)].
    destruct (parentFile inc); [done|discriminate].
Qed.

Lemma roundDiv1000_mono x y : x <= y -> Js.roundDiv1000 x <= Js.roundDiv1000 y.
Proof. intros H. unfold Js.roundDiv1000. apply Z.div_le_mono; lia. Qed.

Lemma deltas_nonneg incs prev :
  StronglySorted (fun a b => startTime a <= startTime b) incs ->
  Forall (fun inc => prev <= Js.roundDiv1000 (startTime inc)) incs ->
  Forall (fun d => 0 <= d)
         (Spec.deltas prev (map (fun inc => Js.roundDiv1000 (startTime inc)) incs)).
Proof.
  intros Hs. revert prev. induction Hs as [|inc incs Hs IH Hinc]; intros prev Hprev; cbn.
  - constructor.
  - apply Forall_cons in Hprev as [Hp _]. constructor; [lia|].
    apply IH. eapply Forall_impl; [exact Hinc|]. cbn. intros b Hb.
    by apply roundDiv1000_mono.
Qed.

(** X16: time in the dashboard document does not run backwards. In
    every unit each entry of [startTimes] after the first is a
    non-negative step, so the running sums a consumer computes never
    decrease, and no entry of [durations] is negative. *)
Theorem X16_dashboard_times_nonnegative inputs :
  Forall (fun a =>
            Forall (fun d => 0 <= d) (drop 1 (startTimes a)) /\
            Forall (fun d => 0 <= d) (durations a))
         (includes (main inputs)).
Proof.
  rewrite main_eq. cbv zeta. cbn [includes].
  apply Forall_forall. intros a (cu & <- & Hcu)%list_elem_of_In%in_map_iff.
  apply list_elem_of_In in Hcu. unfold sortUnits in Hcu. rewrite sort_Permutation in Hcu.
  destruct (encodeUnit_arrays (fileToId (filesArray (snd (collect inputs)))) (snd cu))
    as (_ & -> & -> & _).
  destruct (unitsOf_shape inputs cu Hcu) as (events & _ & ->).
  set (cmp := fun a b : Include => startTime a - startTime b).
  pose proof (sort_sorted startTime cmp ltac:(intros a b; unfold cmp; lia)
                (buildIncludeHierarchy (Trace.matchIntervals events))) as Hsorted.
  split.
  - destruct (Js.sort cmp (buildIncludeHierarchy (Trace.matchIntervals events)))
      as [|inc incs]; [constructor|].
    cbn [map Spec.deltas drop]. apply StronglySorted_inv in Hsorted as [Hs Hinc].
    apply deltas_nonneg; [done|]. eapply Forall_impl; [exact Hinc|]. cbn. intros b Hb.
    by apply roundDiv1000_mono.
  - apply Forall_forall. intros d (inc & <- & Hinc)%list_elem_of_In%in_map_iff.
    apply list_elem_of_In in Hinc. rewrite sort_Permutation in Hinc.
    unfold buildIncludeHierarchy in Hinc.
    apply elem_of_lookup_imap in Hinc as (i & iv & -> & Hi).
    pose proof (matchIntervals_wellFormed events) as Hwf.
    rewrite Forall_forall in Hwf.
    destruct (Hwf iv) as [Hlt Hd]; [apply list_elem_of_lookup; eauto|].
    cbn. unfold Js.roundDiv1000. apply Z.div_pos; lia.
Qed.

End DashboardMore.
